(** * geohash-hilbert: the Hilbert-curve geohash of [_hilbert.py]

    A shallow embedding of [geohash_hilbert/_hilbert.py], the properties
    its specification states about it, and further properties of the code:
    the shape of the curve, the behaviour off the grid, and the arithmetic
    of the quantizer and of the decoder.

    - Python [int] is [Z]; [&], [^], [>>], [<<] are [Z.land], [Z.lxor],
      [Z.shiftr], [Z.shiftl] (two's complement on negative numbers, as in
      Python).
    - Python [float] is IEEE 754 binary64, modelled by [spec_float] with
      [prec = 53] and [emax = 1024] and the operations of [SpecFloat].
    - A call either returns or raises: [result]. *)

From Stdlib Require Import ZArith QArith Qpower Qfield List Bool Lia Znumtheory.
From Stdlib Require Import Floats.SpecFloat.
Import ListNotations.

Local Open Scope Z_scope.

(** ** Python values and exceptions *)

Module Py.

Inductive exn : Type :=
| AssertionError
| OverflowError
| ValueError
| ZeroDivisionError.

(** [NoFuel] is not a Python outcome: it marks a loop of the model that
    was cut off before its test failed.  The theorems below show that it
    never happens. *)
Inductive result (A : Type) : Type :=
| Ok (a : A)
| Raise (e : exn)
| NoFuel.

Arguments Ok {A} a.
Arguments Raise {A} e.
Arguments NoFuel {A}.

Definition bind {A B : Type} (r : result A) (k : A -> result B) : result B :=
  match r with
  | Ok a => k a
  | Raise e => Raise e
  | NoFuel => NoFuel
  end.

(** [assert c] *)
Definition assert (c : bool) : result unit :=
  if c then Ok tt else Raise AssertionError.

(** [int(b)] for a [bool] *)
Definition int_of_bool (b : bool) : Z := if b then 1 else 0.

End Py.

Import Py.

Declare Scope py_scope.
Delimit Scope py_scope with py.
Notation "x <- r ;; k" := (bind r (fun x => k))
  (at level 61, r at next level, right associativity) : py_scope.
Notation "' p <- r ;; k" := (bind r (fun p => k))
  (at level 61, p pattern, r at next level, right associativity) : py_scope.
Notation "r ;;; k" := (bind r (fun _ => k))
  (at level 61, right associativity) : py_scope.
Local Open Scope py_scope.

(** ** The curve transform (integers only) *)

(** [_rotate(n, x, y, rx, ry)] *)
Definition _rotate (n x y rx ry : Z) : Z * Z :=
  if ry =? 0 then
    let '(x, y) := if rx =? 1 then (n - 1 - x, n - 1 - y) else (x, y) in
    (y, x)
  else (x, y).

(** The body of the [while (lvl > 0)] loop of [_xy2hash], for a positive
    [lvl]: the new [(x, y, d)]. *)
Definition xy2hash_body (lvl x y d : Z) : Z * Z * Z :=
  let rx := int_of_bool (Z.land x lvl >? 0) in
  let ry := int_of_bool (Z.land y lvl >? 0) in
  let d := d + lvl * lvl * Z.lxor (3 * rx) ry in
  let '(x, y) := _rotate lvl x y rx ry in
  (x, y, d).

(** The loop of [_xy2hash] entered with [lvl > 0].  [lvl >>= 1] removes the
    last binary digit of [lvl], and the loop stops when none is left. *)
Fixpoint xy2hash_loop (lvl : positive) (x y d : Z) : Z :=
  let '(x, y, d) := xy2hash_body (Z.pos lvl) x y d in
  match lvl with
  | xH => d
  | xO lvl' | xI lvl' => xy2hash_loop lvl' x y d
  end.

(** The loop of [_xy2hash] from any [lvl]: [while (lvl > 0): ...]. *)
Definition xy2hash_while (lvl x y d : Z) : Z :=
  match lvl with
  | Z.pos p => xy2hash_loop p x y d
  | _ => d
  end.

(** [_xy2hash(x, y, dim)] *)
Definition _xy2hash (x y dim : Z) : Z :=
  xy2hash_while (Z.shiftr dim 1) x y 0.

(** The body of the [while (lvl < dim)] loop of [_hash2xy]: the new
    [(lvl, x, y, hashcode)]. *)
Definition hash2xy_body (lvl x y hashcode : Z) : Z * Z * Z * Z :=
  let rx := Z.land 1 (Z.shiftr hashcode 1) in
  let ry := Z.land 1 (Z.lxor hashcode rx) in
  let '(x, y) := _rotate lvl x y rx ry in
  let x := x + lvl * rx in
  let y := y + lvl * ry in
  (Z.shiftl lvl 1, x, y, Z.shiftr hashcode 2).

(** The loop of [_hash2xy], run for at most [fuel] iterations. *)
Fixpoint hash2xy_loop (fuel : nat) (dim lvl x y hashcode : Z) : result (Z * Z) :=
  if lvl <? dim then
    match fuel with
    | O => NoFuel
    | S fuel' =>
        let '(lvl, x, y, hashcode) := hash2xy_body lvl x y hashcode in
        hash2xy_loop fuel' dim lvl x y hashcode
    end
  else Ok (x, y).

(** [_hash2xy(hashcode, dim)].  [lvl] starts at 1 and doubles: it reaches
    [dim] within [log2_up dim] iterations. *)
Definition _hash2xy (hashcode dim : Z) : result (Z * Z) :=
  assert (hashcode <=? dim * dim - 1) ;;;
  hash2xy_loop (Z.to_nat (Z.log2_up dim)) dim 1 0 0 hashcode.

(** ** Python floats: IEEE 754 binary64 *)

Definition float : Type := spec_float.

Module F64.

Definition prec : Z := 53.
Definition emax : Z := 1024.

Definition add : float -> float -> float := SFadd prec emax.
Definition sub : float -> float -> float := SFsub prec emax.
Definition mul : float -> float -> float := SFmul prec emax.
Definition div : float -> float -> float := SFdiv prec emax.
Definition leb : float -> float -> bool := SFleb.
Definition ltb : float -> float -> bool := SFltb.
Definition valid : float -> bool := valid_binary prec emax.

(** The integer [n] rounded to the nearest float, ties to even
    ([S754_infinity] when it is too large). *)
Definition of_Z (n : Z) : float := binary_normalize prec emax n 0 false.

(** The float literals of the module. *)
Definition f90 : float := Eval vm_compute in of_Z 90.
Definition f180 : float := Eval vm_compute in of_Z 180.
Definition f360 : float := Eval vm_compute in of_Z 360.
Definition fm90 : float := Eval vm_compute in of_Z (-90).
Definition fm180 : float := Eval vm_compute in of_Z (-180).
Definition f0 : float := S754_zero false.

(** The float literals [-180.1] and [90.1] (the floats nearest to 1801/10
    and 901/10), and [179.99999999999997] and [89.99999999999999], the
    floats just below [180.0] and [90.0]. *)
Definition fm180_1 : float := Eval vm_compute in div (of_Z (-1801)) (of_Z 10).
Definition f90_1 : float := Eval vm_compute in div (of_Z 901) (of_Z 10).
Definition f180_pred : float := Eval vm_compute in SFpred prec emax f180.
Definition f90_pred : float := Eval vm_compute in SFpred prec emax f90.

(** [179.99999999999994] and [89.99999999999997], two floats below [180.0]
    and [90.0]. *)
Definition f180_pred2 : float := Eval vm_compute in SFpred prec emax f180_pred.
Definition f90_pred2 : float := Eval vm_compute in SFpred prec emax f90_pred.

(** [f] is [+0.0], [-0.0] or a positive float at most [mb * 2 ^ eb]. *)
Definition at_most (mb eb : Z) (f : float) : Prop :=
  match f with
  | S754_zero _ => True
  | S754_finite s m e => s = false /\ e <= eb /\ Z.pos m <= mb * 2 ^ (eb - e)
  | _ => False
  end.

(** 1 when a rounding position is not exact. *)
Definition inexact (l : location) : Z :=
  match l with
  | loc_Exact => 0
  | loc_Inexact _ => 1
  end.

(** The rational number a float stands for. *)
Definition to_Q (f : float) : option Q :=
  match f with
  | S754_zero _ => Some 0%Q
  | S754_finite s m e => Some (inject_Z (cond_Zopp s (Z.pos m)) * Qpower 2 e)%Q
  | _ => None
  end.

(** [f] is exactly the rational [q]. *)
Definition exactlyb (f : float) (q : Q) : bool :=
  match to_Q f with
  | Some v => Qeq_bool v q
  | None => false
  end.

(** [f'] is exactly half of [f]. *)
Definition half_ofb (f' f : float) : bool :=
  match to_Q f with
  | Some v => exactlyb f' (v / 2)%Q
  | None => false
  end.

(** The integer [m * 2 ^ e] (for [0 <= e]) or [floor (m / 2 ^ (- e))]. *)
Definition floor_scaled (m e : Z) : Z := Z.shiftl m e.

(** [f] is a zero or a finite number below [2 ^ k] in absolute value. *)
Definition below_pow2 (k : Z) (f : float) : Prop :=
  match f with
  | S754_zero _ => True
  | S754_finite _ m e => Z.pos (digits2_pos m) + e <= k
  | _ => False
  end.

(** [f] is the number [v * 2 ^ E], held with an exponent of at most [E]:
    its mantissa is [|v|] shifted to the left. *)
Definition scaled (v E : Z) (f : float) : Prop :=
  match f with
  | S754_zero _ => v = 0
  | S754_finite s m e => e <= E /\ cond_Zopp s (Z.pos m) = v * 2 ^ (E - e)
  | _ => False
  end.

End F64.

(** [float(n)] as done by [float * int] and [float - int]: OverflowError
    when [n] is too large for a float. *)
Definition float_of_int (n : Z) : result float :=
  match F64.of_Z n with
  | S754_infinity _ => Raise OverflowError
  | f => Ok f
  end.

(** [a / b] on two ints (true division): the quotient of the two integers
    rounded once to the nearest float, whatever their size. *)
Definition int_truediv (a b : Z) : result float :=
  match b with
  | 0 => Raise ZeroDivisionError
  | _ =>
      match a with
      | 0 => Ok (S754_zero (b <? 0))
      | _ =>
          match F64.div (S754_finite (a <? 0) (Z.to_pos (Z.abs a)) 0)
                        (S754_finite (b <? 0) (Z.to_pos (Z.abs b)) 0) with
          | S754_infinity _ => Raise OverflowError
          | f => Ok f
          end
      end
  end.

(** [float * int], [float - int], [int * float] *)
Definition float_mul_int (f : float) (n : Z) : result float :=
  g <- float_of_int n ;; Ok (F64.mul f g).
Definition float_sub_int (f : float) (n : Z) : result float :=
  g <- float_of_int n ;; Ok (F64.sub f g).
Definition int_mul_float (n : Z) (f : float) : result float :=
  g <- float_of_int n ;; Ok (F64.mul g f).

(** [math.floor(f)] (Python 3: an int) *)
Definition floor (f : float) : result Z :=
  match f with
  | S754_nan => Raise ValueError
  | S754_infinity _ => Raise OverflowError
  | S754_zero _ => Ok 0
  | S754_finite s m e => Ok (F64.floor_scaled (cond_Zopp s (Z.pos m)) e)
  end.

(** [1 << n] on ints: ValueError on a negative shift count. *)
Definition int_shiftl (a n : Z) : result Z :=
  if n <? 0 then Raise ValueError else Ok (Z.shiftl a n).

(** ** The integer/string codec [_int2str] *)

Module Int2Str.

(** Modelled from the spec: the module [_int2str] ([encode_int],
    [decode_int]) is missing from the sources, and so is its alphabet.  A
    code is the list of its characters, each character standing for its
    value in the alphabet of [2 ^ bits_per_char] characters; the
    character ['0'], with which [encode] pads, is the zero character. *)
Definition code : Type := list Z.


Fixpoint encode_digits (fuel : nat) (bits_per_char value : Z) (acc : code) : code :=
  match fuel with
  | O => acc
  | S fuel' =>
      if value <=? 0 then acc
      else encode_digits fuel' bits_per_char (Z.shiftr value bits_per_char)
             (Z.land value (Z.ones bits_per_char) :: acc)
  end.

(** Modelled from the spec: [encode_int(value, bits_per_char)] is the
    shortest representation of [value], most significant group first, with
    no leading padding.  That fixes every character of a positive [value].
    It does not fix how 0 is written, as the empty string or as one zero
    character: [zero bits_per_char] stands for what the codec returns
    for 0. *)
Definition encode_int (zero : Z -> code) (value bits_per_char : Z) : code :=
  if value =? 0 then zero bits_per_char
  else encode_digits (S (Z.to_nat (Z.log2 value))) bits_per_char value [].

(** The two ways of writing 0: as the empty string, and as one zero
    character. *)
Definition zero_empty : Z -> code := fun _ => [].


(** Modelled from the spec: [decode_int(code, bits_per_char)]: each
    character contributes [bits_per_char] bits, most significant character
    first. *)
Definition decode_int (c : code) (bits_per_char : Z) : Z :=
  fold_left (fun acc ch => Z.shiftl acc bits_per_char + ch) c 0.

(** [s.rjust(width, fill)] *)
Definition rjust (width : Z) (fill : Z) (s : code) : code :=
  repeat fill (Z.to_nat (width - Z.of_nat (length s))) ++ s.

End Int2Str.

Import Int2Str.

(** ** The facade: [encode], [decode], [decode_exactly] and their helpers *)

Definition _LAT_INTERVAL : float * float := (F64.fm90, F64.f90).
Definition _LNG_INTERVAL : float * float := (F64.fm180, F64.f180).

(** [_dim_error(level)] *)
Definition _dim_error (level : Z) : result (float * float) :=
  p <- int_shiftl 1 level ;;
  error <- int_truediv 1 p ;;
  lng_err <- int_mul_float 180 error ;;
  lat_err <- int_mul_float 90 error ;;
  Ok (lng_err, lat_err).

(** [_coord2int(lng, lat, dim)] *)
Definition _coord2int (lng lat : float) (dim : Z) : result (Z * Z) :=
  assert (dim >=? 1) ;;;
  lat_y <- float_mul_int (F64.div (F64.add lat (snd _LAT_INTERVAL)) F64.f180) dim ;;
  lng_x <- float_mul_int (F64.div (F64.add lng (snd _LNG_INTERVAL)) F64.f360) dim ;;
  x <- floor lng_x ;;
  y <- floor lat_y ;;
  Ok (x, y).

(** [_int2coord(x, y, dim)] *)
Definition _int2coord (x y dim : Z) : result (float * float) :=
  assert (dim >=? 1) ;;;
  assert (x <? dim) ;;;
  assert (y <? dim) ;;;
  qx <- int_truediv x dim ;;
  sx <- float_mul_int qx 360 ;;
  lng <- float_sub_int sx 180 ;;
  qy <- int_truediv y dim ;;
  sy <- float_mul_int qy 180 ;;
  lat <- float_sub_int sy 90 ;;
  Ok (lng, lat).

(** [bits_per_char in (2, 4, 6)] *)
Definition bits_per_char_ok (bits_per_char : Z) : bool :=
  (bits_per_char =? 2) || (bits_per_char =? 4) || (bits_per_char =? 6).

(** [encode(lng, lat, precision, bits_per_char)]; [zero] is how the imported
    [encode_int] writes 0. *)
Definition encode (zero : Z -> code) (lng lat : float) (precision bits_per_char : Z)
  : result code :=
  assert (F64.leb (fst _LNG_INTERVAL) lng && F64.leb lng (snd _LNG_INTERVAL)) ;;;
  assert (F64.leb (fst _LAT_INTERVAL) lat && F64.leb lat (snd _LAT_INTERVAL)) ;;;
  assert (precision >=? 0) ;;;
  assert (bits_per_char_ok bits_per_char) ;;;
  let bits := precision * bits_per_char in
  let level := Z.shiftr bits 1 in
  let dim := Z.shiftl 1 level in
  '(x, y) <- _coord2int lng lat dim ;;
  Ok (rjust precision 0 (encode_int zero (_xy2hash x y dim) bits_per_char)).

(** [decode_exactly(code, bits_per_char)] *)
Definition decode_exactly (c : code) (bits_per_char : Z)
  : result (float * float * float * float) :=
  assert (bits_per_char_ok bits_per_char) ;;;
  let bits := Z.of_nat (length c) * bits_per_char in
  let level := Z.shiftr bits 1 in
  let dim := Z.shiftl 1 level in
  '(x, y) <- _hash2xy (decode_int c bits_per_char) dim ;;
  '(lng, lat) <- _int2coord x y dim ;;
  '(lng_err, lat_err) <- _dim_error level ;;
  Ok (F64.add lng lng_err, F64.add lat lat_err, lng_err, lat_err).

(** [decode(code, bits_per_char)] *)
Definition decode (c : code) (bits_per_char : Z) : result (float * float) :=
  assert (bits_per_char_ok bits_per_char) ;;;
  '(lng, lat, _lng_err, _lat_err) <- decode_exactly c bits_per_char ;;
  Ok (lng, lat).

(** The sum of [3 * lvl * lvl] over the values [lvl] takes in [_xy2hash]. *)
Fixpoint level_sum (lvl : positive) : Z :=
  3 * Z.pos lvl * Z.pos lvl +
  match lvl with
  | xH => 0
  | xO lvl' | xI lvl' => level_sum lvl'
  end.

Definition level_sum_from (lvl : Z) : Z :=
  match lvl with
  | Z.pos p => level_sum p
  | _ => 0
  end.

(** What the specification says of [_dim_error(level)]: it returns exactly
    [(180 * (1 / 2 ^ level), 90 * (1 / 2 ^ level))]. *)
Definition dim_error_exactb (level : Z) : bool :=
  match _dim_error level with
  | Ok (lng_err, lat_err) =>
      F64.exactlyb lng_err (180 * (1 / inject_Z (2 ^ level)))%Q &&
      F64.exactlyb lat_err (90 * (1 / inject_Z (2 ^ level)))%Q
  | _ => false
  end.
Definition dim_error_exact (level : Z) : Prop := dim_error_exactb level = true.

(** What the specification says of consecutive levels: each component of
    [_dim_error(level + 1)] is exactly half that of [_dim_error(level)]. *)
Definition dim_error_halvesb (level : Z) : bool :=
  match _dim_error level, _dim_error (level + 1) with
  | Ok (lng_err, lat_err), Ok (lng_err', lat_err') =>
      F64.half_ofb lng_err' lng_err && F64.half_ofb lat_err' lat_err
  | _, _ => false
  end.
Definition dim_error_halves (level : Z) : Prop := dim_error_halvesb level = true.

(** [2 ^ j] as a [positive]. *)
Fixpoint pow2p (j : nat) : positive :=
  match j with
  | O => xH
  | S j' => xO (pow2p j')
  end.

(** The two loops unrolled on a grid of [2 ^ k] cells a side, with the loop
    bodies of the source: the grid is cut in four quadrants of
    [2 ^ (k - 1)] cells a side, the quadrant of the cell is the leading
    base-4 digit of the index, and the cell is rotated into the quadrant's
    frame.  [_xy2hash] and [_hash2xy] are shown below to compute them. *)
Fixpoint cell_to_index (k : nat) (x y : Z) : Z :=
  match k with
  | O => 0
  | S k' =>
      let '(x', y', d) := xy2hash_body (2 ^ Z.of_nat k') x y 0 in
      d + cell_to_index k' x' y'
  end.

Fixpoint index_to_cell (k : nat) (index : Z) : Z * Z :=
  match k with
  | O => (0, 0)
  | S k' =>
      let '(x, y) := index_to_cell k' index in
      let '(_, x', y', _) :=
        hash2xy_body (2 ^ Z.of_nat k') x y (Z.shiftr index (2 * Z.of_nat k')) in
      (x', y')
  end.

(** * Properties *)

(** ** Examples *)

Example xy2hash_4 :
  map (fun xy => _xy2hash (fst xy) (snd xy) 4)
      [(0,0); (1,0); (1,1); (0,1); (0,2); (0,3); (1,3); (1,2);
       (2,2); (2,3); (3,3); (3,2); (3,1); (2,1); (2,0); (3,0)]
  = [0; 1; 2; 3; 4; 5; 6; 7; 8; 9; 10; 11; 12; 13; 14; 15].
Proof. vm_compute. reflexivity. Qed.

Example hash2xy_4 :
  map (fun h => _hash2xy h 4) [0; 1; 2; 3; 4; 7; 8; 13; 15]
  = map Ok [(0,0); (1,0); (1,1); (0,1); (0,2); (1,2); (2,2); (2,1); (3,0)].
Proof. vm_compute. reflexivity. Qed.

(** ** The loops are the source's loops *)

(** [xy2hash_while] satisfies the equation of
    [while (lvl > 0): <body>; lvl >>= 1]. *)
Lemma xy2hash_while_unfold (lvl x y d : Z) :
  xy2hash_while lvl x y d =
  if lvl >? 0 then
    let '(x', y', d') := xy2hash_body lvl x y d in
    xy2hash_while (Z.shiftr lvl 1) x' y' d'
  else d.
Proof.
  destruct lvl as [|p|p]; try reflexivity.
  destruct p; cbn [xy2hash_while xy2hash_loop Z.gtb Z.compare];
    destruct (xy2hash_body _ x y d) as [[x' y'] d']; reflexivity.
Qed.

(** ** Bits of an integer *)

Lemma pow2_pos (j : Z) : 0 <= j -> 0 < 2 ^ j.
Proof. intros; apply Z.pow_pos_nonneg; lia. Qed.

Lemma pow2_succ_nat (k : nat) : 2 ^ Z.of_nat (S k) = 2 * 2 ^ Z.of_nat k.
Proof. rewrite Nat2Z.inj_succ, Z.pow_succ_r by lia. reflexivity. Qed.

Lemma pow2_nat_pos (k : nat) : 0 < 2 ^ Z.of_nat k.
Proof. apply pow2_pos; lia. Qed.

Lemma pow2_ge_2 (k : Z) : 0 < k -> 2 <= 2 ^ k.
Proof.
  intros Hk. change 2 with (2 ^ 1) at 1. apply Z.pow_le_mono_r; lia.
Qed.

Lemma land_pow2 (x j : Z) :
  0 <= j -> Z.land x (2 ^ j) = if Z.testbit x j then 2 ^ j else 0.
Proof.
  intros Hj. apply Z.bits_inj'. intros n Hn.
  rewrite Z.land_spec, Z.pow2_bits_eqb by assumption.
  destruct (Z.eqb_spec j n) as [->|Hne].
  - destruct (Z.testbit x n).
    + rewrite Z.pow2_bits_true by assumption. reflexivity.
    + rewrite Z.bits_0. reflexivity.
  - rewrite andb_false_r. destruct (Z.testbit x j).
    + rewrite Z.pow2_bits_false by lia. reflexivity.
    + rewrite Z.bits_0. reflexivity.
Qed.

(** [int((x & lvl) > 0)] is the binary digit of [x] at [lvl = 2 ^ j]. *)
Lemma bit_at_level (x j : Z) :
  0 <= j -> int_of_bool (Z.land x (2 ^ j) >? 0) = (x / 2 ^ j) mod 2.
Proof.
  intros Hj. rewrite land_pow2, <- Z.testbit_spec' by assumption.
  pose proof (pow2_pos j Hj).
  destruct (Z.testbit x j); cbn [Z.b2z].
  - replace (2 ^ j >? 0) with true by (symmetry; apply Z.gtb_lt; lia). reflexivity.
  - reflexivity.
Qed.

Lemma bit_01 (a : Z) : a mod 2 = 0 \/ a mod 2 = 1.
Proof. pose proof (Z.mod_pos_bound a 2); lia. Qed.

Lemma land_1 (a : Z) : Z.land 1 a = a mod 2.
Proof. rewrite Z.land_comm. change 1 with (Z.ones 1). rewrite Z.land_ones by lia. reflexivity. Qed.

Lemma lxor_mod2 (a b : Z) : Z.lxor a b mod 2 = (a + b) mod 2.
Proof.
  rewrite <- !Z.bit0_mod, Z.lxor_spec, !Z.bit0_odd, Z.odd_add. reflexivity.
Qed.

(** The quadrant digit [(3 * rx) ^ ry]. *)
Lemma quadrant_digit (rx ry : Z) :
  (rx = 0 \/ rx = 1) -> (ry = 0 \/ ry = 1) ->
  Z.lxor (3 * rx) ry = 3 * rx + ry - 2 * rx * ry.
Proof. intros [-> | ->] [-> | ->]; reflexivity. Qed.

Lemma quadrant_digit_range (rx ry : Z) :
  (rx = 0 \/ rx = 1) -> (ry = 0 \/ ry = 1) ->
  0 <= Z.lxor (3 * rx) ry <= 3.
Proof. intros [-> | ->] [-> | ->]; cbn; lia. Qed.

Lemma int_of_bool_01 (b : bool) : int_of_bool b = 0 \/ int_of_bool b = 1.
Proof. destruct b; cbn; auto. Qed.

(** ** The forward transform is total and bounded *)

Lemma xy2hash_body_eq (lvl x y d : Z) :
  let rx := int_of_bool (Z.land x lvl >? 0) in
  let ry := int_of_bool (Z.land y lvl >? 0) in
  xy2hash_body lvl x y d =
  (fst (_rotate lvl x y rx ry), snd (_rotate lvl x y rx ry),
   d + lvl * lvl * Z.lxor (3 * rx) ry).
Proof.
  cbv zeta. unfold xy2hash_body. destruct (_rotate _ _ _ _ _). reflexivity.
Qed.

(** One iteration adds between 0 and [3 * lvl * lvl] to [d]. *)
Lemma xy2hash_body_step (lvl x y d : Z) :
  let d' := snd (xy2hash_body lvl x y d) in
  d <= d' <= d + 3 * lvl * lvl.
Proof.
  cbv zeta. rewrite xy2hash_body_eq. cbn [snd].
  pose proof (quadrant_digit_range _ _ (int_of_bool_01 (Z.land x lvl >? 0))
                (int_of_bool_01 (Z.land y lvl >? 0))).
  nia.
Qed.

Lemma xy2hash_loop_bound (p : positive) :
  forall x y d, d <= xy2hash_loop p x y d <= d + level_sum p.
Proof.
  induction p as [p IH | p IH |]; intros x y d; cbn [xy2hash_loop level_sum].
  - pose proof (xy2hash_body_step (Z.pos p~1) x y d) as H1. cbv zeta in H1.
    destruct (xy2hash_body (Z.pos p~1) x y d) as [[x' y'] d'].
    cbn [snd] in H1. specialize (IH x' y' d'). lia.
  - pose proof (xy2hash_body_step (Z.pos p~0) x y d) as H0. cbv zeta in H0.
    destruct (xy2hash_body (Z.pos p~0) x y d) as [[x' y'] d'].
    cbn [snd] in H0. specialize (IH x' y' d'). lia.
  - pose proof (xy2hash_body_step 1 x y d) as Hh. cbv zeta in Hh.
    destruct (xy2hash_body 1 x y d) as [[x' y'] d'].
    cbn [snd] in Hh. lia.
Qed.

Lemma level_sum_le (p : positive) : level_sum p <= 4 * Z.pos p * Z.pos p - 1.
Proof.
  induction p as [p IH | p IH |]; cbn [level_sum].
  - rewrite Pos2Z.inj_xI. nia.
  - rewrite Pos2Z.inj_xO. nia.
  - lia.
Qed.

Lemma pow2p_spec (j : nat) : Z.pos (pow2p j) = 2 ^ Z.of_nat j.
Proof.
  induction j as [|j IH]; [reflexivity|].
  cbn [pow2p]. rewrite Pos2Z.inj_xO, IH, Nat2Z.inj_succ, Z.pow_succ_r by lia.
  reflexivity.
Qed.

Lemma level_sum_pow2 (j : nat) :
  level_sum (pow2p j) = 4 * 2 ^ Z.of_nat j * 2 ^ Z.of_nat j - 1.
Proof.
  induction j as [|j IH]; [reflexivity|].
  cbn [pow2p level_sum]. rewrite IH, Pos2Z.inj_xO, pow2p_spec.
  rewrite Nat2Z.inj_succ, Z.pow_succ_r by lia. ring.
Qed.

Lemma shiftr1_pow2_succ (j : nat) :
  Z.shiftr (2 ^ Z.of_nat (S j)) 1 = Z.pos (pow2p j).
Proof.
  rewrite Z.shiftr_div_pow2 by lia.
  rewrite Nat2Z.inj_succ, Z.pow_succ_r by lia.
  rewrite pow2p_spec. change (2 ^ 1) with 2.
  rewrite Z.mul_comm, Z.div_mul by lia. reflexivity.
Qed.

Lemma shiftr1_double_le (dim : Z) : 0 <= dim -> 0 <= 2 * Z.shiftr dim 1 <= dim.
Proof.
  intros H. rewrite Z.shiftr_div_pow2 by lia. change (2 ^ 1) with 2.
  pose proof (Z.mul_div_le dim 2). pose proof (Z.div_pos dim 2). lia.
Qed.

(** C9: [_xy2hash] is a total function of its three integer arguments (its
    loop is structural on the binary digits of [lvl]); on non-negative
    arguments, also with [x >= dim], [y >= dim] or a [dim] that is no power
    of two, its result is non-negative and at most the sum of
    [3 * lvl * lvl] over the levels visited, each iteration adding at most
    [3 * lvl * lvl]; for [dim >= 1] that sum is at most [dim * dim - 1], so
    the result is below [dim * dim], and for a power of two the sum is
    exactly [dim * dim - 1]. *)
Theorem xy2hash_total_bounded (x y dim : Z) :
  0 <= x -> 0 <= y -> 0 <= dim ->
  let d := _xy2hash x y dim in
  0 <= d <= level_sum_from (Z.shiftr dim 1) /\
  (forall lvl x0 y0 d0,
      d0 <= snd (xy2hash_body lvl x0 y0 d0) <= d0 + 3 * lvl * lvl) /\
  (1 <= dim ->
   level_sum_from (Z.shiftr dim 1) <= dim * dim - 1 /\ d < dim * dim) /\
  (forall level, 0 <= level -> dim = 2 ^ level ->
                 level_sum_from (Z.shiftr dim 1) = dim * dim - 1).
Proof.
  intros _ _ Hdim d.
  assert (Hd : 0 <= d <= level_sum_from (Z.shiftr dim 1)).
  { subst d. unfold _xy2hash, xy2hash_while, level_sum_from.
    destruct (Z.shiftr dim 1) as [|p|p]; try lia.
    pose proof (xy2hash_loop_bound p x y 0). lia. }
  assert (Hs : 1 <= dim -> level_sum_from (Z.shiftr dim 1) <= dim * dim - 1).
  { intros H1. pose proof (shiftr1_double_le dim Hdim) as Hle.
    unfold level_sum_from. destruct (Z.shiftr dim 1) as [|p|p]; try nia.
    pose proof (level_sum_le p). nia. }
  repeat split; try tauto; try lia.
  - apply xy2hash_body_step.
  - apply xy2hash_body_step.
  - intros level Hl ->.
    destruct (Z.to_nat level) as [|j] eqn:E.
    + assert (level = 0) by lia. subst level. reflexivity.
    + replace level with (Z.of_nat (S j)) by lia.
      rewrite shiftr1_pow2_succ. cbn [level_sum_from].
      rewrite level_sum_pow2, Nat2Z.inj_succ, Z.pow_succ_r by lia. ring.
Qed.

Lemma xy2hash_total_bounded_witness :
  let d := _xy2hash 7 2 6 in
  0 <= d <= level_sum_from (Z.shiftr 6 1) /\
  (forall lvl x0 y0 d0,
      d0 <= snd (xy2hash_body lvl x0 y0 d0) <= d0 + 3 * lvl * lvl) /\
  (1 <= 6 ->
   level_sum_from (Z.shiftr 6 1) <= 6 * 6 - 1 /\ d < 6 * 6) /\
  (forall level, 0 <= level -> 6 = 2 ^ level ->
                 level_sum_from (Z.shiftr 6 1) = 6 * 6 - 1).
Proof. apply (xy2hash_total_bounded 7 2 6); lia. Defined.

(** ** The loops on a grid of [2 ^ k] cells a side *)

Lemma cell_to_index_unfold_S (k : nat) (x y : Z) :
  cell_to_index (S k) x y =
  let '(x', y', d) := xy2hash_body (2 ^ Z.of_nat k) x y 0 in
  d + cell_to_index k x' y'.
Proof. reflexivity. Qed.

Lemma index_to_cell_unfold_S (k : nat) (index : Z) :
  index_to_cell (S k) index =
  let '(x, y) := index_to_cell k index in
  let '(_, x', y', _) :=
    hash2xy_body (2 ^ Z.of_nat k) x y (Z.shiftr index (2 * Z.of_nat k)) in
  (x', y').
Proof. reflexivity. Qed.

Lemma xy2hash_loop_pow2 (j : nat) :
  forall x y d, xy2hash_loop (pow2p j) x y d = d + cell_to_index (S j) x y.
Proof.
  induction j as [|j IH]; intros x y d.
  - cbn [pow2p xy2hash_loop cell_to_index Z.of_nat]. change (2 ^ 0) with 1.
    rewrite (xy2hash_body_eq _ x y d), (xy2hash_body_eq _ x y 0); cbv zeta. lia.
  - cbn [pow2p xy2hash_loop]. rewrite (cell_to_index_unfold_S (S j)).
    replace (Z.pos (pow2p j)~0) with (2 ^ Z.of_nat (S j))
      by (rewrite <- (pow2p_spec (S j)); reflexivity).
    rewrite (xy2hash_body_eq _ x y d), (xy2hash_body_eq _ x y 0); cbv zeta.
    rewrite IH. lia.
Qed.

Lemma xy2hash_pow2 (k : nat) (x y : Z) :
  _xy2hash x y (2 ^ Z.of_nat k) = cell_to_index k x y.
Proof.
  unfold _xy2hash. destruct k as [|j]; [reflexivity|].
  rewrite shiftr1_pow2_succ. cbn [xy2hash_while].
  rewrite xy2hash_loop_pow2. lia.
Qed.

Lemma hash2xy_body_eq (lvl x y h : Z) :
  let rx := Z.land 1 (Z.shiftr h 1) in
  let ry := Z.land 1 (Z.lxor h rx) in
  hash2xy_body lvl x y h =
  (Z.shiftl lvl 1,
   fst (_rotate lvl x y rx ry) + lvl * rx,
   snd (_rotate lvl x y rx ry) + lvl * ry,
   Z.shiftr h 2).
Proof.
  cbv zeta. unfold hash2xy_body. destruct (_rotate _ _ _ _ _). reflexivity.
Qed.

Lemma hash2xy_loop_pow2 (h : Z) (n : nat) :
  forall i : nat,
    hash2xy_loop n (2 ^ Z.of_nat (i + n)) (2 ^ Z.of_nat i)
      (fst (index_to_cell i h)) (snd (index_to_cell i h))
      (Z.shiftr h (2 * Z.of_nat i))
    = Ok (index_to_cell (i + n) h).
Proof.
  induction n as [|n IH]; intros i.
  - rewrite Nat.add_0_r. cbn [hash2xy_loop]. rewrite Z.ltb_irrefl.
    destruct (index_to_cell i h); reflexivity.
  - cbn [hash2xy_loop].
    replace (2 ^ Z.of_nat i <? 2 ^ Z.of_nat (i + S n)) with true
      by (symmetry; apply Z.ltb_lt, Z.pow_lt_mono_r; lia).
    specialize (IH (S i)). rewrite index_to_cell_unfold_S in IH.
    destruct (index_to_cell i h) as [x0 y0]. cbn [fst snd].
    rewrite hash2xy_body_eq in *. cbv zeta in *. cbn [fst snd] in IH.
    replace (i + S n)%nat with (S i + n)%nat by lia.
    rewrite <- IH. f_equal.
    + rewrite Z.shiftl_mul_pow2, Nat2Z.inj_succ, Z.pow_succ_r by lia.
      change (2 ^ 1) with 2. ring.
    + rewrite Z.shiftr_shiftr by lia. f_equal. lia.
Qed.

Lemma hash2xy_pow2 (k : nat) (h : Z) :
  h <= 2 ^ Z.of_nat k * 2 ^ Z.of_nat k - 1 ->
  _hash2xy h (2 ^ Z.of_nat k) = Ok (index_to_cell k h).
Proof.
  intros Hh. unfold _hash2xy, assert.
  replace (h <=? _) with true by (symmetry; apply Z.leb_le; exact Hh).
  cbn [bind]. rewrite Z.log2_up_pow2, Nat2Z.id by lia.
  exact (hash2xy_loop_pow2 h k 0%nat).
Qed.

(** The loop of [_hash2xy] ends within the iterations it is given: [lvl]
    doubles from 1 and reaches [dim] within [log2_up dim] steps. *)
Lemma hash2xy_loop_fuel (dim : Z) (n : nat) :
  forall (i : nat) (x y h : Z),
    dim <= 2 ^ Z.of_nat (i + n) ->
    hash2xy_loop n dim (2 ^ Z.of_nat i) x y h <> NoFuel.
Proof.
  induction n as [|n IH]; intros i x y h Hdim; cbn [hash2xy_loop].
  - rewrite Nat.add_0_r in Hdim.
    replace (2 ^ Z.of_nat i <? dim) with false by (symmetry; apply Z.ltb_ge; lia).
    discriminate.
  - destruct (2 ^ Z.of_nat i <? dim); [|discriminate].
    rewrite hash2xy_body_eq. cbv zeta.
    replace (Z.shiftl (2 ^ Z.of_nat i) 1) with (2 ^ Z.of_nat (S i)).
    + apply IH. replace (S i + n)%nat with (i + S n)%nat by lia. exact Hdim.
    + rewrite Z.shiftl_mul_pow2, pow2_succ_nat by lia. change (2 ^ 1) with 2. ring.
Qed.

Lemma hash2xy_terminates (hashcode dim : Z) : _hash2xy hashcode dim <> NoFuel.
Proof.
  unfold _hash2xy, assert. destruct (hashcode <=? dim * dim - 1); [|discriminate].
  cbn [bind]. apply (hash2xy_loop_fuel dim _ 0%nat). cbn [Nat.add].
  pose proof (Z.log2_up_nonneg dim) as Hn. rewrite Z2Nat.id by assumption.
  destruct (Z_le_gt_dec dim 1) as [Hle|Hgt].
  - pose proof (pow2_pos (Z.log2_up dim) Hn). lia.
  - apply Z.log2_up_spec. lia.
Qed.

(** [_hash2xy] raises on an index that is not below [dim * dim]. *)
Lemma hash2xy_asserts (hashcode dim : Z) :
  dim * dim <= hashcode -> _hash2xy hashcode dim = Raise AssertionError.
Proof.
  intros H. unfold _hash2xy, assert.
  replace (hashcode <=? dim * dim - 1) with false by (symmetry; apply Z.leb_gt; lia).
  reflexivity.
Qed.

(** ** The rotation *)

Lemma compl_mod (n x : Z) : 0 < n -> (n - 1 - x) mod n = n - 1 - x mod n.
Proof.
  intros Hn. pose proof (Z.mod_pos_bound x n Hn).
  symmetry. apply Z.mod_unique with (q := - (x / n)); [lia|].
  pose proof (Z.div_mod x n). nia.
Qed.

Lemma rotate_mod (n x y rx ry : Z) :
  0 < n ->
  _rotate n (x mod n) (y mod n) rx ry =
  (fst (_rotate n x y rx ry) mod n, snd (_rotate n x y rx ry) mod n).
Proof.
  intros Hn. unfold _rotate.
  destruct (ry =? 0); [destruct (rx =? 1)|]; cbn [fst snd];
    rewrite ?compl_mod by assumption; reflexivity.
Qed.

Lemma rotate_range (n x y rx ry : Z) :
  0 <= x < n -> 0 <= y < n ->
  0 <= fst (_rotate n x y rx ry) < n /\ 0 <= snd (_rotate n x y rx ry) < n.
Proof.
  intros Hx Hy. unfold _rotate.
  destruct (ry =? 0); [destruct (rx =? 1)|]; cbn [fst snd]; lia.
Qed.

Lemma rotate_involutive (n x y rx ry : Z) :
  _rotate n (fst (_rotate n x y rx ry)) (snd (_rotate n x y rx ry)) rx ry = (x, y).
Proof.
  unfold _rotate.
  destruct (ry =? 0); [destruct (rx =? 1)|]; cbn [fst snd]; f_equal; lia.
Qed.

(** ** Cells and indexes, level by level *)

Lemma mod_double_mod (l x : Z) : 0 < l -> (x mod (2 * l)) mod l = x mod l.
Proof.
  intros Hl. apply Z.mod_mod_divide. exists 2. reflexivity.
Qed.

Lemma bit_mod_succ (x : Z) (k : nat) :
  ((x mod 2 ^ Z.of_nat (S k)) / 2 ^ Z.of_nat k) mod 2 = (x / 2 ^ Z.of_nat k) mod 2.
Proof.
  rewrite <- !Z.testbit_spec' by lia.
  rewrite Z.mod_pow2_bits_low by lia. reflexivity.
Qed.

Lemma top_bit (l x : Z) :
  0 < l -> 0 <= x < 2 * l -> x = x mod l + l * ((x / l) mod 2).
Proof.
  intros Hl Hx.
  assert (0 <= x / l < 2).
  { split; [apply Z.div_pos; lia | apply Z.div_lt_upper_bound; lia]. }
  rewrite (Z.mod_small (x / l) 2) by assumption.
  pose proof (Z.div_mod x l). lia.
Qed.

Lemma index_to_cell_range (k : nat) (h : Z) :
  0 <= fst (index_to_cell k h) < 2 ^ Z.of_nat k /\
  0 <= snd (index_to_cell k h) < 2 ^ Z.of_nat k.
Proof.
  induction k as [|k IH].
  - cbn. lia.
  - rewrite index_to_cell_unfold_S, pow2_succ_nat.
    destruct (index_to_cell k h) as [x0 y0]. cbn [fst snd] in IH.
    rewrite hash2xy_body_eq. cbv zeta. cbn [fst snd].
    rewrite !land_1.
    set (rx := Z.shiftr _ 1 mod 2). set (ry := Z.lxor _ rx mod 2).
    pose proof (bit_01 (Z.shiftr (Z.shiftr h (2 * Z.of_nat k)) 1)) as Hrx.
    pose proof (bit_01 (Z.lxor (Z.shiftr h (2 * Z.of_nat k)) rx)) as Hry.
    fold rx in Hrx. fold ry in Hry.
    destruct IH as [Hx Hy].
    pose proof (rotate_range (2 ^ Z.of_nat k) x0 y0 rx ry Hx Hy) as [Ha Hb].
    pose proof (pow2_nat_pos k). nia.
Qed.

Lemma cell_to_index_mod (k : nat) :
  forall x y,
    cell_to_index k x y =
    cell_to_index k (x mod 2 ^ Z.of_nat k) (y mod 2 ^ Z.of_nat k).
Proof.
  induction k as [|k IH]; intros x y; [reflexivity|].
  rewrite !cell_to_index_unfold_S, !xy2hash_body_eq. cbv zeta.
  rewrite !bit_at_level, !bit_mod_succ by lia.
  set (l := 2 ^ Z.of_nat k). set (rx := (x / l) mod 2). set (ry := (y / l) mod 2).
  assert (Hl : 0 < l) by apply pow2_nat_pos.
  f_equal.
  rewrite (IH (fst (_rotate l x y rx ry))), (IH (fst (_rotate l (x mod _) _ rx ry))).
  fold l.
  pose proof (rotate_mod l x y rx ry Hl) as E1.
  pose proof (rotate_mod l (x mod 2 ^ Z.of_nat (S k)) (y mod 2 ^ Z.of_nat (S k))
                rx ry Hl) as E2.
  rewrite pow2_succ_nat in E2. fold l in E2.
  rewrite !mod_double_mod in E2 by assumption.
  rewrite E1 in E2. injection E2 as Ef Es.
  rewrite pow2_succ_nat. fold l. rewrite Ef, Es. reflexivity.
Qed.

Lemma cell_to_index_range (k : nat) :
  forall x y, 0 <= cell_to_index k x y < 2 ^ Z.of_nat k * 2 ^ Z.of_nat k.
Proof.
  induction k as [|k IH]; intros x y.
  - cbn. lia.
  - rewrite cell_to_index_unfold_S, xy2hash_body_eq, pow2_succ_nat. cbv zeta.
    set (l := 2 ^ Z.of_nat k) in *.
    pose proof (quadrant_digit_range _ _ (int_of_bool_01 (Z.land x l >? 0))
                  (int_of_bool_01 (Z.land y l >? 0))) as Hq.
    set (rx := int_of_bool (Z.land x l >? 0)) in *.
    set (ry := int_of_bool (Z.land y l >? 0)) in *.
    specialize (IH (fst (_rotate l x y rx ry)) (snd (_rotate l x y rx ry))).
    nia.
Qed.

Lemma shiftr_even_pow2 (k : nat) (a : Z) :
  Z.shiftr a (2 * Z.of_nat k) = a / (2 ^ Z.of_nat k * 2 ^ Z.of_nat k).
Proof.
  rewrite Z.shiftr_div_pow2 by lia. f_equal.
  replace (2 * Z.of_nat k) with (Z.of_nat k + Z.of_nat k) by lia.
  apply Z.pow_add_r; lia.
Qed.

(** The two binary digits read by [_hash2xy] are those written by
    [_xy2hash]. *)
Lemma digit_decode (hi rx ry : Z) :
  (rx = 0 \/ rx = 1) -> (ry = 0 \/ ry = 1) ->
  let q := 4 * hi + Z.lxor (3 * rx) ry in
  Z.land 1 (Z.shiftr q 1) = rx /\ Z.land 1 (Z.lxor q rx) = ry.
Proof.
  intros Hrx Hry q. subst q.
  rewrite !land_1, lxor_mod2, Z.shiftr_div_pow2 by lia. change (2 ^ 1) with 2.
  rewrite (quadrant_digit rx ry) by assumption.
  destruct Hrx as [-> | ->], Hry as [-> | ->]; split;
    Z.to_euclidean_division_equations; lia.
Qed.

Lemma digit_encode (hh : Z) :
  let rx := Z.land 1 (Z.shiftr hh 1) in
  let ry := Z.land 1 (Z.lxor hh rx) in
  (rx = 0 \/ rx = 1) /\ (ry = 0 \/ ry = 1) /\ Z.lxor (3 * rx) ry = hh mod 4.
Proof.
  cbv zeta. rewrite !land_1, lxor_mod2, Z.shiftr_div_pow2 by lia.
  change (2 ^ 1) with 2.
  pose proof (bit_01 (hh / 2)) as Hrx.
  pose proof (bit_01 (hh + (hh / 2) mod 2)) as Hry.
  repeat split; try assumption.
  rewrite quadrant_digit by assumption.
  Z.to_euclidean_division_equations; nia.
Qed.

(** Decoding after encoding, whatever lies above the [2 k] bits of the
    index. *)
Lemma index_to_cell_cell_to_index (k : nat) :
  forall x y hi,
    0 <= x < 2 ^ Z.of_nat k -> 0 <= y < 2 ^ Z.of_nat k ->
    index_to_cell k (2 ^ Z.of_nat k * 2 ^ Z.of_nat k * hi + cell_to_index k x y)
    = (x, y).
Proof.
  induction k as [|k IH]; intros x y hi Hx Hy.
  - cbn in *. f_equal; lia.
  - rewrite pow2_succ_nat in Hx, Hy.
    rewrite index_to_cell_unfold_S, cell_to_index_unfold_S, xy2hash_body_eq.
    cbv zeta. rewrite !bit_at_level by lia. rewrite pow2_succ_nat.
    set (l := 2 ^ Z.of_nat k) in *.
    assert (Hl : 0 < l) by apply pow2_nat_pos.
    set (rx := (x / l) mod 2). set (ry := (y / l) mod 2).
    pose proof (bit_01 (x / l)) as Hrx. pose proof (bit_01 (y / l)) as Hry.
    fold rx in Hrx. fold ry in Hry.
    set (r := _rotate l x y rx ry).
    rewrite (cell_to_index_mod k (fst r) (snd r)). fold l.
    pose proof (rotate_mod l x y rx ry Hl) as Er. fold r in Er.
    set (c := cell_to_index k (fst r mod l) (snd r mod l)).
    pose proof (cell_to_index_range k (fst r mod l) (snd r mod l)) as Hc.
    fold l c in Hc.
    set (q := 4 * hi + Z.lxor (3 * rx) ry).
    replace (2 * l * (2 * l) * hi + (0 + l * l * Z.lxor (3 * rx) ry + c))
      with (l * l * q + c) by (subst q; ring).
    subst c. rewrite IH by (apply Z.mod_pos_bound; assumption).
    rewrite hash2xy_body_eq. cbv zeta.
    rewrite shiftr_even_pow2. fold l.
    replace ((l * l * q + _) / (l * l)) with q.
    2:{ apply Z.div_unique with (r := cell_to_index k (fst r mod l) (snd r mod l));
        [left; exact Hc | ring]. }
    destruct (digit_decode hi rx ry Hrx Hry) as [Dx Dy]. fold q in Dx, Dy.
    rewrite Dx, Dy.
    replace (fst r mod l) with (fst (_rotate l (x mod l) (y mod l) rx ry))
      by (rewrite Er; reflexivity).
    replace (snd r mod l) with (snd (_rotate l (x mod l) (y mod l) rx ry))
      by (rewrite Er; reflexivity).
    rewrite rotate_involutive. cbn [fst snd].
    f_equal; symmetry; apply top_bit; assumption.
Qed.

(** Encoding after decoding keeps the low [2 k] bits of the index. *)
Lemma cell_to_index_index_to_cell (k : nat) :
  forall h,
    cell_to_index k (fst (index_to_cell k h)) (snd (index_to_cell k h))
    = h mod (2 ^ Z.of_nat k * 2 ^ Z.of_nat k).
Proof.
  induction k as [|k IH]; intros h.
  - cbn. rewrite Z.mod_1_r. reflexivity.
  - pose proof (index_to_cell_range k h) as [Hx0 Hy0].
    rewrite index_to_cell_unfold_S. specialize (IH h).
    destruct (index_to_cell k h) as [x0 y0]. cbn [fst snd] in *.
    rewrite hash2xy_body_eq. cbv zeta. cbn [fst snd].
    rewrite shiftr_even_pow2.
    set (l := 2 ^ Z.of_nat k) in *.
    assert (Hl : 0 < l) by apply pow2_nat_pos.
    destruct (digit_encode (h / (l * l))) as (Hrx & Hry & Hq).
    set (rx := Z.land 1 (Z.shiftr (h / (l * l)) 1)) in *.
    set (ry := Z.land 1 (Z.lxor (h / (l * l)) rx)) in *.
    pose proof (rotate_range l x0 y0 rx ry Hx0 Hy0) as [Ha Hb].
    set (r := _rotate l x0 y0 rx ry) in *.
    rewrite cell_to_index_unfold_S, xy2hash_body_eq. cbv zeta.
    rewrite !bit_at_level by lia. fold l.
    assert (Ex : (fst r + l * rx) / l = rx).
    { symmetry. apply Z.div_unique with (r := fst r); [left; lia | ring]. }
    assert (Ey : (snd r + l * ry) / l = ry).
    { symmetry. apply Z.div_unique with (r := snd r); [left; lia | ring]. }
    rewrite Ex, Ey.
    rewrite (Z.mod_small rx 2), (Z.mod_small ry 2) by lia.
    rewrite (cell_to_index_mod k).
    fold l.
    pose proof (rotate_mod l (fst r + l * rx) (snd r + l * ry) rx ry Hl) as E.
    replace ((fst r + l * rx) mod l) with (fst r) in E
      by (apply Z.mod_unique with (q := rx); [left; lia | ring]).
    replace ((snd r + l * ry) mod l) with (snd r) in E
      by (apply Z.mod_unique with (q := ry); [left; lia | ring]).
    subst r. rewrite rotate_involutive in E. injection E as E1 E2.
    rewrite <- E1, <- E2.
    rewrite IH, Hq, pow2_succ_nat. fold l.
    replace (2 * l * (2 * l)) with (l * l * 4) by ring.
    rewrite (Z.rem_mul_r h (l * l) 4) by nia. ring.
Qed.

(** ** The curve transform is a bijection *)

(** C1: for a power of two [dim] and a cell [(x, y)] of the grid, decoding
    the encoded index gives the cell back:
    [_hash2xy(_xy2hash(x, y, dim), dim) == (x, y)] (the assertion of
    [_hash2xy] holds and its loop ends). *)
Theorem hash2xy_xy2hash (level x y dim : Z) :
  0 <= level -> dim = 2 ^ level ->
  0 <= x < dim -> 0 <= y < dim ->
  _hash2xy (_xy2hash x y dim) dim = Ok (x, y).
Proof.
  intros Hl -> Hx Hy.
  rewrite <- (Z2Nat.id level Hl) in *. set (k := Z.to_nat level) in *.
  rewrite xy2hash_pow2.
  pose proof (cell_to_index_range k x y) as Hr.
  rewrite hash2xy_pow2 by lia.
  pose proof (index_to_cell_cell_to_index k x y 0 Hx Hy) as E.
  rewrite Z.mul_0_r, Z.add_0_l in E. rewrite E. reflexivity.
Qed.

Lemma hash2xy_xy2hash_witness : _hash2xy (_xy2hash 5 6 8) 8 = Ok (5, 6).
Proof. apply (hash2xy_xy2hash 3 5 6 8); [lia | reflexivity | lia | lia]. Defined.

(** C2: for a power of two [dim], every index in [[0, dim * dim)] decodes
    (without error) to a cell of the grid whose encoding is the index again,
    and every cell of the grid is the decoding of an index of the range: the
    transform is a bijection between [[0, dim * dim)] and the grid. *)
Theorem xy2hash_hash2xy (level dim : Z) :
  0 <= level -> dim = 2 ^ level ->
  (forall index, 0 <= index < dim * dim ->
     exists x y, _hash2xy index dim = Ok (x, y) /\
                 0 <= x < dim /\ 0 <= y < dim /\
                 _xy2hash x y dim = index) /\
  (forall x y, 0 <= x < dim -> 0 <= y < dim ->
     exists index, 0 <= index < dim * dim /\ _hash2xy index dim = Ok (x, y)).
Proof.
  intros Hl ->.
  rewrite <- (Z2Nat.id level Hl) in *. set (k := Z.to_nat level) in *.
  split.
  - intros index Hi.
    exists (fst (index_to_cell k index)), (snd (index_to_cell k index)).
    pose proof (index_to_cell_range k index) as [Hx Hy].
    rewrite hash2xy_pow2 by lia. rewrite <- surjective_pairing.
    repeat split; try lia.
    rewrite xy2hash_pow2, cell_to_index_index_to_cell.
    apply Z.mod_small. exact Hi.
  - intros x y Hx Hy. exists (cell_to_index k x y).
    pose proof (cell_to_index_range k x y) as Hr.
    split; [exact Hr|].
    rewrite hash2xy_pow2 by lia.
    pose proof (index_to_cell_cell_to_index k x y 0 Hx Hy) as E.
    rewrite Z.mul_0_r, Z.add_0_l in E. rewrite E. reflexivity.
Qed.

Lemma xy2hash_hash2xy_witness :
  (forall index, 0 <= index < 4 * 4 ->
     exists x y, _hash2xy index 4 = Ok (x, y) /\
                 0 <= x < 4 /\ 0 <= y < 4 /\
                 _xy2hash x y 4 = index) /\
  (forall x y, 0 <= x < 4 -> 0 <= y < 4 ->
     exists index, 0 <= index < 4 * 4 /\ _hash2xy index 4 = Ok (x, y)).
Proof. apply (xy2hash_hash2xy 2 4); [lia | reflexivity]. Defined.

(** ** Binary64 arithmetic: no overflow below a power of two *)

(** Arithmetic in which the powers of two are opaque. *)
Ltac forget_pow2 :=
  repeat match goal with
    | |- context [2 ^ ?e] =>
        let x := fresh "pw" in set (x := 2 ^ e) in *; clearbody x
    | H : context [2 ^ ?e] |- _ =>
        let x := fresh "pw" in set (x := 2 ^ e) in *; clearbody x
    end.
Ltac pow_lia := forget_pow2; lia.

Lemma digits2_pos_spec (p : positive) :
  2 ^ (Z.pos (digits2_pos p) - 1) <= Z.pos p < 2 ^ Z.pos (digits2_pos p).
Proof.
  induction p as [p IH | p IH |]; cbn [digits2_pos].
  - rewrite Pos2Z.inj_succ, (Pos2Z.inj_xI p).
    replace (Z.succ (Z.pos (digits2_pos p)) - 1) with (Z.succ (Z.pos (digits2_pos p) - 1)) by lia.
    rewrite !Z.pow_succ_r by lia. pow_lia.
  - rewrite Pos2Z.inj_succ, (Pos2Z.inj_xO p).
    replace (Z.succ (Z.pos (digits2_pos p)) - 1) with (Z.succ (Z.pos (digits2_pos p) - 1)) by lia.
    rewrite !Z.pow_succ_r by lia. pow_lia.
  - cbn. lia.
Qed.

Lemma Zdigits2_nonneg (m : Z) : 0 <= Zdigits2 m.
Proof. destruct m; cbn; lia. Qed.

Lemma Zdigits2_upper (m : Z) : 0 <= m -> m < 2 ^ Zdigits2 m.
Proof.
  destruct m as [|p|p]; intros H; cbn [Zdigits2].
  - apply pow2_pos. lia.
  - apply digits2_pos_spec.
  - lia.
Qed.

Lemma Zdigits2_le_of_lt (m t : Z) : 0 <= m < 2 ^ t -> 0 <= t -> Zdigits2 m <= t.
Proof.
  intros [H0 Hm] Ht. destruct m as [|p|p]; cbn [Zdigits2]; try lia.
  pose proof (digits2_pos_spec p) as [Hlo _].
  destruct (Z_le_gt_dec (Z.pos (digits2_pos p)) t) as [|Hgt]; [assumption|].
  assert (2 ^ t <= 2 ^ (Z.pos (digits2_pos p) - 1)) by (apply Z.pow_le_mono_r; lia).
  lia.
Qed.

Lemma Zdigits2_div_pow2 (m n : Z) :
  0 <= m -> 0 <= n -> Zdigits2 (m / 2 ^ n) <= Z.max 0 (Zdigits2 m - n).
Proof.
  intros Hm Hn. pose proof (Zdigits2_upper m Hm) as Hu.
  pose proof (Zdigits2_nonneg m) as Hd. pose proof (pow2_pos n Hn) as Hp.
  destruct (Z_le_gt_dec n (Zdigits2 m)) as [Hle|Hgt].
  - rewrite Z.max_r by lia. apply Zdigits2_le_of_lt; [|lia]. split.
    + apply Z.div_pos; lia.
    + apply Z.div_lt_upper_bound; [lia|].
      rewrite <- Z.pow_add_r by lia. replace (n + (Zdigits2 m - n)) with (Zdigits2 m) by lia.
      exact Hu.
  - assert (2 ^ Zdigits2 m <= 2 ^ n) by (apply Z.pow_le_mono_r; lia).
    rewrite Z.div_small by lia. cbn. lia.
Qed.

Lemma Zdigits2_succ (m : Z) : 0 <= m -> Zdigits2 (m + 1) <= Zdigits2 m + 1.
Proof.
  intros Hm. pose proof (Zdigits2_upper m Hm). pose proof (Zdigits2_nonneg m).
  apply Zdigits2_le_of_lt; [|lia].
  rewrite Z.pow_add_r by lia. change (2 ^ 1) with 2. lia.
Qed.

Lemma Zdigits2_mono (a b : Z) : 0 <= a <= b -> Zdigits2 a <= Zdigits2 b.
Proof.
  intros H. apply Zdigits2_le_of_lt; [|apply Zdigits2_nonneg].
  pose proof (Zdigits2_upper b). lia.
Qed.

(** *** Shifting right *)

Lemma iter_pos_nat {A : Type} (f : A -> A) (p : positive) :
  forall x, iter_pos f p x = Nat.iter (Pos.to_nat p) f x.
Proof.
  induction p as [p IH | p IH |]; intros x; cbn [iter_pos].
  - rewrite !IH, Pos2Nat.inj_xI, Nat.iter_succ_r.
    replace (2 * Pos.to_nat p)%nat with (Pos.to_nat p + Pos.to_nat p)%nat by lia.
    rewrite Nat.iter_add. reflexivity.
  - rewrite !IH, Pos2Nat.inj_xO.
    replace (2 * Pos.to_nat p)%nat with (Pos.to_nat p + Pos.to_nat p)%nat by lia.
    rewrite Nat.iter_add. reflexivity.
  - reflexivity.
Qed.

Lemma shr_1_m (r : shr_record) : 0 <= shr_m r -> shr_m (shr_1 r) = shr_m r / 2.
Proof.
  destruct r as [m rb sb]. cbn [shr_m]. intros Hm.
  destruct m as [|p|p]; [reflexivity| |lia].
  destruct p as [p|p|]; cbn [shr_1 shr_m].
  - rewrite (Pos2Z.inj_xI p). apply Z.div_unique with (r := 1); lia.
  - rewrite (Pos2Z.inj_xO p). apply Z.div_unique with (r := 0); lia.
  - reflexivity.
Qed.

Lemma shr_iter_m (n : nat) (r : shr_record) :
  0 <= shr_m r -> shr_m (Nat.iter n shr_1 r) = shr_m r / 2 ^ Z.of_nat n.
Proof.
  intros Hm. induction n as [|n IH].
  - cbn. rewrite Z.div_1_r. reflexivity.
  - rewrite Nat.iter_succ, shr_1_m.
    + rewrite IH, pow2_succ_nat, Z.div_div by (pose proof (pow2_nat_pos n); lia).
      f_equal. ring.
    + rewrite IH. apply Z.div_pos; [lia | apply pow2_nat_pos].
Qed.

Lemma shr_record_of_loc_m (m : Z) (l : location) : shr_m (shr_record_of_loc m l) = m.
Proof. destruct l as [|[]]; reflexivity. Qed.

(** *** Rounding *)

Lemma fexp64 (e : Z) : fexp F64.prec F64.emax e = Z.max (e - 53) (-1074).
Proof. reflexivity. Qed.

Lemma shr_fexp_bound (m e : Z) (l : location) :
  0 <= m ->
  let r := fst (shr_fexp F64.prec F64.emax m e l) in
  let e' := snd (shr_fexp F64.prec F64.emax m e l) in
  0 <= shr_m r /\
  Zdigits2 (shr_m r) + e' <= Z.max (Zdigits2 m + e) (Z.max (Zdigits2 m + e - 53) (-1074)) /\
  e' <= Z.max e (Z.max (Zdigits2 m + e - 53) (-1074)).
Proof.
  intros Hm. unfold shr_fexp, shr. rewrite fexp64.
  pose proof (Zdigits2_nonneg m) as Hd.
  destruct (Z.max (Zdigits2 m + e - 53) (-1074) - e) as [|p|p] eqn:En;
    cbn [fst snd]; rewrite ?shr_record_of_loc_m; try lia.
  rewrite iter_pos_nat, shr_iter_m, positive_nat_Z
    by (rewrite shr_record_of_loc_m; exact Hm).
  rewrite shr_record_of_loc_m.
  pose proof (Zdigits2_div_pow2 m (Z.pos p) Hm ltac:(lia)) as Hdiv.
  split; [apply Z.div_pos; [lia | apply pow2_pos; lia] | lia].
Qed.

Lemma round_nearest_even_bound (m : Z) (l : location) :
  m <= round_nearest_even m l <= m + 1.
Proof.
  destruct l as [|[]]; cbn [round_nearest_even]; try lia.
  destruct (Z.even m); lia.
Qed.

(** Rounding a number below [2 ^ K] does not overflow (for [K <= 1023]),
    and gives a number below [2 ^ (K + 1)]. *)
Lemma binary_round_aux_below (sx : bool) (mx ex : Z) (lx : location) (K : Z) :
  0 <= mx -> ex <= 971 -> Zdigits2 mx + ex <= K -> K <= 1023 ->
  F64.below_pow2 (Z.max K (-1074) + 1) (binary_round_aux F64.prec F64.emax sx mx ex lx).
Proof.
  intros Hm Hex HK HK'. unfold binary_round_aux.
  pose proof (shr_fexp_bound mx ex lx Hm) as H1. cbv zeta in H1.
  destruct (shr_fexp F64.prec F64.emax mx ex lx) as [mrs' e']. cbn [fst snd] in H1.
  destruct H1 as (H1a & H1b & H1c).
  pose proof (round_nearest_even_bound (shr_m mrs') (loc_of_shr_record mrs')) as Hr.
  set (m1 := round_nearest_even (shr_m mrs') (loc_of_shr_record mrs')) in *.
  assert (Hm1 : 0 <= m1) by lia.
  assert (Hd1 : Zdigits2 m1 <= Zdigits2 (shr_m mrs') + 1).
  { etransitivity; [apply (Zdigits2_mono m1 (shr_m mrs' + 1)); lia|].
    apply Zdigits2_succ; assumption. }
  pose proof (shr_fexp_bound m1 e' loc_Exact Hm1) as H2. cbv zeta in H2.
  destruct (shr_fexp F64.prec F64.emax m1 e' loc_Exact) as [mrs'' e''].
  cbn [fst snd] in H2. destruct H2 as (H2a & H2b & H2c).
  destruct (shr_m mrs'') as [|m|m] eqn:Em; cbn [F64.below_pow2 Zdigits2] in *.
  - exact I.
  - replace (e'' <=? F64.emax - F64.prec) with true
      by (symmetry; apply Z.leb_le; unfold F64.emax, F64.prec; lia).
    cbn [F64.below_pow2]. lia.
  - lia.
Qed.

Lemma below_pow2_mono (K K' : Z) (f : float) :
  K <= K' -> F64.below_pow2 K f -> F64.below_pow2 K' f.
Proof. destruct f; cbn [F64.below_pow2]; intros; try assumption; lia. Qed.

(** *** Division *)

Lemma div_core_bound (mx my : positive) (ex ey : Z) :
  let x := Z.pos (digits2_pos mx) + ex - (Z.pos (digits2_pos my) + ey) in
  let '(q, e', _) := SFdiv_core_binary F64.prec F64.emax (Z.pos mx) ex (Z.pos my) ey in
  0 <= q /\ e' <= Z.max (x - 53) (-1074) /\ Zdigits2 q + e' <= Z.max (x + 1) e'.
Proof.
  cbv zeta. unfold SFdiv_core_binary. cbn [Zdigits2]. rewrite fexp64.
  set (d1 := Z.pos (digits2_pos mx)). set (d2 := Z.pos (digits2_pos my)).
  set (x := d1 + ex - (d2 + ey)).
  set (e' := Z.min (Z.max (x - 53) (-1074)) (ex - ey)).
  set (s := ex - ey - e').
  assert (Hs : 0 <= s) by (subst s e'; lia).
  set (m' := match s with Z.pos _ => Z.shiftl (Z.pos mx) s | 0 => Z.pos mx | Z.neg _ => 0 end).
  assert (Hm' : m' = Z.pos mx * 2 ^ s).
  { subst m'. destruct s as [|p|p] eqn:Es.
    - cbn. lia.
    - rewrite Z.shiftl_mul_pow2 by lia. reflexivity.
    - lia. }
  clearbody m'.
  destruct (Z.div_eucl m' (Z.pos my)) as [q r] eqn:Ediv.
  assert (Hq : q = m' / Z.pos my) by (unfold Z.div; rewrite Ediv; reflexivity).
  pose proof (digits2_pos_spec mx) as [_ Hmx]. pose proof (digits2_pos_spec my) as [Hmy _].
  fold d1 in Hmx. fold d2 in Hmy.
  pose proof (pow2_pos s Hs) as Hps.
  assert (Hq0 : 0 <= q) by (subst q; apply Z.div_pos; nia).
  split; [exact Hq0|]. split; [subst e'; lia|].
  assert (Hlt : m' < 2 ^ (d1 + s)).
  { rewrite Hm', Z.pow_add_r by (subst d1; lia). nia. }
  destruct (Z_le_gt_dec 0 (d1 + s - d2 + 1)) as [Ht|Ht].
  - assert (Zdigits2 q <= d1 + s - d2 + 1).
    { apply Zdigits2_le_of_lt; [|exact Ht]. split; [exact Hq0|].
      subst q. apply Z.div_lt_upper_bound; [lia|].
      assert (2 ^ (d1 + s) = 2 ^ (d2 - 1) * 2 ^ (d1 + s - d2 + 1)).
      { rewrite <- Z.pow_add_r by (subst d2; lia). f_equal. lia. }
      assert (0 < 2 ^ (d1 + s - d2 + 1)) by (apply pow2_pos; lia).
      nia. }
    subst s x. lia.
  - assert (Hz : m' / Z.pos my = 0).
    { apply Z.div_small. split; [nia|].
      assert (2 ^ (d1 + s) <= 2 ^ (d2 - 1)) by (apply Z.pow_le_mono_r; lia).
      lia. }
    rewrite Hq, Hz. cbn [Zdigits2]. lia.
Qed.

Lemma div_below (sx sy : bool) (mx my : positive) (ex ey X : Z) :
  Z.pos (digits2_pos mx) + ex - (Z.pos (digits2_pos my) + ey) <= X ->
  X <= 1022 ->
  F64.below_pow2 (Z.max (X + 1) (-1074) + 1)
    (F64.div (S754_finite sx mx ex) (S754_finite sy my ey)).
Proof.
  intros HX HX'. unfold F64.div, SFdiv.
  pose proof (div_core_bound mx my ex ey) as H. cbv zeta in H.
  destruct (SFdiv_core_binary F64.prec F64.emax (Z.pos mx) ex (Z.pos my) ey)
    as [[q e'] l].
  destruct H as (Hq & He & Hd).
  eapply below_pow2_mono;
    [| apply (binary_round_aux_below (xorb sx sy) q e' l
                (Z.max (X + 1) (-1074))); try lia].
  lia.
Qed.

(** *** Multiplication *)


(** *** Addition *)

Lemma pos_iter_xO (m d : positive) : Z.pos (Pos.iter xO m d) = Z.pos m * 2 ^ Z.pos d.
Proof.
  induction d as [|d IH] using Pos.peano_ind.
  - cbn. lia.
  - rewrite Pos.iter_succ, (Pos2Z.inj_xO (Pos.iter xO m d)), IH, Pos2Z.inj_succ,
      Z.pow_succ_r by lia.
    ring.
Qed.

Lemma shl_align_spec (m : positive) (e e' : Z) :
  let r := shl_align m e e' in
  snd r = Z.min e e' /\ Z.pos (fst r) = Z.pos m * 2 ^ (e - snd r).
Proof.
  cbv zeta. unfold shl_align.
  destruct (e' - e) as [|d|d] eqn:Ed; cbn [fst snd].
  - split; [lia|]. rewrite Z.sub_diag. cbn. lia.
  - split; [lia|]. rewrite Z.sub_diag. cbn. lia.
  - split; [lia|]. rewrite pos_iter_xO. f_equal. f_equal. lia.
Qed.

Lemma binary_round_below (s : bool) (m : positive) (e K : Z) :
  Z.pos (digits2_pos m) + e <= K -> K <= 972 ->
  F64.below_pow2 (Z.max K (-1074) + 1) (binary_round F64.prec F64.emax s m e).
Proof.
  intros HK HK'. unfold binary_round.
  pose proof (shl_align_spec m e (fexp F64.prec F64.emax (Z.pos (digits2_pos m) + e))) as H.
  cbv zeta in H.
  destruct (shl_align m e _) as [mz ez]. cbn [fst snd] in H. destruct H as [He Hm].
  pose proof (digits2_pos_spec m) as [_ Hu].
  assert (Hez : ez <= e) by lia.
  apply binary_round_aux_below; try lia.
  assert (Zdigits2 (Z.pos mz) <= Z.pos (digits2_pos m) + (e - ez)).
  { apply Zdigits2_le_of_lt; [|lia]. rewrite Hm, Z.pow_add_r by lia.
    assert (0 < 2 ^ (e - ez)) by (apply pow2_pos; lia). split; [lia|nia]. }
  lia.
Qed.

Lemma binary_normalize_below (m e K : Z) (sz : bool) :
  Zdigits2 m + e <= K -> K <= 972 ->
  F64.below_pow2 (Z.max K (-1074) + 1) (binary_normalize F64.prec F64.emax m e sz).
Proof.
  intros HK HK'. destruct m as [|p|p]; cbn [binary_normalize Zdigits2] in *.
  - exact I.
  - apply binary_round_below; assumption.
  - apply binary_round_below; assumption.
Qed.

Lemma Zdigits2_abs (m : Z) : Zdigits2 m = Zdigits2 (Z.abs m).
Proof. destruct m; reflexivity. Qed.

Lemma aligned_sum_digits (sx sy : bool) (mx my : positive) (ex ey K : Z) (sub : bool) :
  Z.pos (digits2_pos mx) + ex <= K -> Z.pos (digits2_pos my) + ey <= K ->
  let ez := Z.min ex ey in
  let a := cond_Zopp sx (Z.pos (fst (shl_align mx ex ez))) in
  let b := cond_Zopp sy (Z.pos (fst (shl_align my ey ez))) in
  Zdigits2 (if sub then a - b else a + b) + ez <= K + 1.
Proof.
  intros Hx Hy ez a b.
  pose proof (shl_align_spec mx ex ez) as [Hxs Hxm].
  pose proof (shl_align_spec my ey ez) as [Hys Hym].
  replace (snd (shl_align mx ex ez)) with ez in Hxm by (subst ez; lia).
  replace (snd (shl_align my ey ez)) with ez in Hym by (subst ez; lia).
  pose proof (digits2_pos_spec mx) as [_ Hmx].
  pose proof (digits2_pos_spec my) as [_ Hmy].
  assert (Hex : 0 <= ex - ez) by (subst ez; lia).
  assert (Hey : 0 <= ey - ez) by (subst ez; lia).
  assert (Ha : Z.abs a < 2 ^ (K - ez)).
  { replace (Z.abs a) with (Z.pos mx * 2 ^ (ex - ez))
      by (subst a; rewrite <- Hxm; destruct sx; reflexivity).
    apply Z.lt_le_trans with (2 ^ (Z.pos (digits2_pos mx) + (ex - ez))).
    - rewrite Z.pow_add_r by lia.
      assert (0 < 2 ^ (ex - ez)) by (apply pow2_pos; lia). nia.
    - apply Z.pow_le_mono_r; lia. }
  assert (Hb : Z.abs b < 2 ^ (K - ez)).
  { replace (Z.abs b) with (Z.pos my * 2 ^ (ey - ez))
      by (subst b; rewrite <- Hym; destruct sy; reflexivity).
    apply Z.lt_le_trans with (2 ^ (Z.pos (digits2_pos my) + (ey - ez))).
    - rewrite Z.pow_add_r by lia.
      assert (0 < 2 ^ (ey - ez)) by (apply pow2_pos; lia). nia.
    - apply Z.pow_le_mono_r; lia. }
  assert (HKz : 0 <= K - ez) by lia.
  rewrite Zdigits2_abs.
  assert (Zdigits2 (Z.abs (if sub then a - b else a + b)) <= K - ez + 1).
  { apply Zdigits2_le_of_lt; [|lia]. rewrite Z.pow_add_r by lia.
    change (2 ^ 1) with 2. destruct sub; lia. }
  lia.
Qed.


Lemma sub_below (K : Z) (x y : float) :
  F64.below_pow2 K x -> F64.below_pow2 K y -> K <= 971 ->
  F64.below_pow2 (Z.max (K + 1) (-1074) + 1) (F64.sub x y).
Proof.
  intros Hx Hy HK. unfold F64.sub.
  destruct x as [sx|sx| |sx mx ex], y as [sy|sy| |sy my ey];
    cbn [F64.below_pow2] in *; try contradiction.
  - destruct sx, sy; exact I.
  - cbn [SFsub F64.below_pow2]. lia.
  - cbn [SFsub F64.below_pow2]. lia.
  - cbn [SFsub]. apply binary_normalize_below; [|lia].
    apply (aligned_sum_digits sx sy mx my ex ey K true); assumption.
Qed.

(** *** Floats in an interval, integer quotients, floor *)

Lemma valid_digits (s : bool) (m : positive) (e : Z) :
  F64.valid (S754_finite s m e) = true -> Z.pos (digits2_pos m) <= 53.
Proof.
  unfold F64.valid, valid_binary, bounded, canonical_mantissa.
  intros H. apply andb_prop in H as [H _]. apply Z.eqb_eq in H.
  rewrite fexp64 in H. lia.
Qed.






(** [a / b] for two ints with [0 <= a <= b] and [0 < b] raises nothing. *)
Lemma int_truediv_le (a b : Z) :
  0 <= a <= b -> 0 < b ->
  exists f, int_truediv a b = Ok f /\ F64.below_pow2 2 f.
Proof.
  intros Ha Hb. destruct b as [|pb|pb]; try lia. destruct a as [|pa|pa]; try lia.
  - exists (S754_zero false). split; [reflexivity | exact I].
  - unfold int_truediv. cbn [Z.abs Z.to_pos Z.ltb Z.compare].
    assert (Hd : Z.pos (digits2_pos pa) <= Z.pos (digits2_pos pb))
      by (apply (Zdigits2_mono (Z.pos pa) (Z.pos pb)); lia).
    pose proof (div_below false false pa pb 0 0 0 ltac:(lia) ltac:(lia)) as H.
    cbn [Z.max Z.add Z.compare] in H.
    destruct (F64.div (S754_finite false pa 0) (S754_finite false pb 0)) as [s|s| |s m e];
      cbn [F64.below_pow2] in H; try contradiction.
    + eexists. split; [reflexivity | exact I].
    + eexists. split; [reflexivity | exact H].
Qed.


Lemma bits_per_char_cases (bits_per_char : Z) :
  bits_per_char_ok bits_per_char = true ->
  bits_per_char = 2 \/ bits_per_char = 4 \/ bits_per_char = 6.
Proof. unfold bits_per_char_ok. lia. Qed.

(** ** Quantizing on the grid of one cell *)



(** ** Precision 0 *)



(** ** The codec model meets its contract *)

Lemma encode_digits_decode (bits_per_char : Z) (fuel : nat) :
  0 < bits_per_char ->
  forall value acc,
    0 <= value < 2 ^ Z.of_nat fuel ->
    fold_left (fun a ch => Z.shiftl a bits_per_char + ch)
      (encode_digits fuel bits_per_char value acc) 0
    = fold_left (fun a ch => Z.shiftl a bits_per_char + ch) acc value.
Proof.
  intros Hb. induction fuel as [|fuel IH]; intros value acc Hv.
  - change (2 ^ Z.of_nat 0) with 1 in Hv. assert (value = 0) by lia. subst. reflexivity.
  - cbn [encode_digits]. destruct (Z.leb_spec value 0) as [Hle|Hgt].
    + assert (value = 0) by lia. subst. reflexivity.
    + rewrite IH.
      * cbn [fold_left]. f_equal.
        rewrite Z.shiftl_mul_pow2, Z.shiftr_div_pow2, Z.land_ones by lia.
        pose proof (Z.div_mod value (2 ^ bits_per_char)).
        pose proof (pow2_pos bits_per_char ltac:(lia)). lia.
      * rewrite Z.shiftr_div_pow2 by lia. rewrite pow2_succ_nat in Hv.
        pose proof (pow2_ge_2 bits_per_char Hb).
        split; [apply Z.div_pos; lia|].
        apply Z.div_lt_upper_bound; [lia|]. pose proof (pow2_nat_pos fuel). nia.
Qed.

Lemma fold_zeros (bits_per_char : Z) (n : nat) :
  fold_left (fun a ch => Z.shiftl a bits_per_char + ch) (repeat 0 n) 0 = 0.
Proof.
  induction n as [|n IH]; [reflexivity|].
  cbn [repeat fold_left]. rewrite Z.shiftl_0_l. exact IH.
Qed.

Lemma fold_zero_characters (bits_per_char : Z) (c : code) :
  Forall (fun ch => ch = 0) c ->
  fold_left (fun a ch => Z.shiftl a bits_per_char + ch) c 0 = 0.
Proof.
  intros Hc. induction Hc as [|ch c -> _ IH]; [reflexivity|].
  cbn [fold_left]. rewrite Z.shiftl_0_l. exact IH.
Qed.

(** The property required of the codec:
    [decode_int(encode_int(v, b).rjust(p, '0'), b) == v].  It holds when 0
    is written with zero characters only. *)
Lemma decode_int_encode_int (zero : Z -> code) (value bits_per_char precision : Z) :
  0 <= value -> 0 < bits_per_char ->
  Forall (fun ch => ch = 0) (zero bits_per_char) ->
  decode_int (rjust precision 0 (encode_int zero value bits_per_char)) bits_per_char = value.
Proof.
  intros Hv Hb Hz. unfold decode_int, rjust, encode_int.
  rewrite fold_left_app, fold_zeros.
  destruct (Z.eqb_spec value 0) as [->|Hne]; [apply fold_zero_characters; exact Hz|].
  apply encode_digits_decode; [assumption|].
  split; [assumption|].
  rewrite Nat2Z.inj_succ, Z2Nat.id by apply Z.log2_nonneg.
  apply Z.log2_spec. lia.
Qed.

(** ** Decoding *)



Lemma float_of_int_consts :
  float_of_int 360 = Ok F64.f360 /\ float_of_int 180 = Ok F64.f180 /\
  float_of_int 90 = Ok F64.f90.
Proof. repeat split; vm_compute; reflexivity. Qed.

Lemma int2coord_ok (x y dim : Z) :
  0 <= x < dim -> 0 <= y < dim ->
  exists qx qy,
    int_truediv x dim = Ok qx /\ int_truediv y dim = Ok qy /\
    _int2coord x y dim =
    Ok (F64.sub (F64.mul qx F64.f360) F64.f180, F64.sub (F64.mul qy F64.f180) F64.f90).
Proof.
  intros Hx Hy.
  destruct (int_truediv_le x dim ltac:(lia) ltac:(lia)) as (qx & Ex & _).
  destruct (int_truediv_le y dim ltac:(lia) ltac:(lia)) as (qy & Ey & _).
  exists qx, qy. repeat split; try assumption.
  destruct float_of_int_consts as (E360 & E180 & E90).
  unfold _int2coord, float_mul_int, float_sub_int, assert.
  replace (dim >=? 1) with true by (symmetry; rewrite Z.geb_leb; apply Z.leb_le; lia).
  replace (x <? dim) with true by (symmetry; apply Z.ltb_lt; lia).
  replace (y <? dim) with true by (symmetry; apply Z.ltb_lt; lia).
  cbn [bind]. rewrite Ex, Ey, E360, E180, E90. reflexivity.
Qed.

Lemma dim_error_ok (level : Z) :
  0 <= level ->
  exists unit,
    int_truediv 1 (2 ^ level) = Ok unit /\
    _dim_error level = Ok (F64.mul F64.f180 unit, F64.mul F64.f90 unit).
Proof.
  intros Hl. pose proof (pow2_pos level Hl) as Hp.
  destruct (int_truediv_le 1 (2 ^ level) ltac:(lia) ltac:(lia)) as (u & Eu & _).
  exists u. split; [assumption|].
  destruct float_of_int_consts as (E360 & E180 & E90).
  unfold _dim_error, int_shiftl, int_mul_float.
  replace (level <? 0) with false by (symmetry; apply Z.ltb_ge; lia).
  cbn [bind]. rewrite Z.shiftl_1_l, Eu. cbn [bind]. rewrite E180, E90. reflexivity.
Qed.


(** ** The error margins *)

Lemma new_location_exact (nb : Z) : new_location nb 0 = loc_Exact.
Proof. unfold new_location. destruct (Z.even nb); reflexivity. Qed.

Lemma round_half_or_less (l : location) :
  l = loc_Inexact Lt \/ l = loc_Inexact Eq ->
  binary_round_aux F64.prec F64.emax false 0 (-1074) l = S754_zero false.
Proof. intros [-> | ->]; vm_compute; reflexivity. Qed.

(** [1 / b] underflows to [0.0] from [b = 2 ^ 1075] on. *)
Lemma int_truediv_underflow (b : Z) :
  2 ^ 1075 <= b -> int_truediv 1 b = Ok (S754_zero false).
Proof.
  intros Hb. assert (H1074 : 2 * 2 ^ 1074 = 2 ^ 1075) by reflexivity.
  assert (Hp : 0 < 2 ^ 1074) by reflexivity.
  destruct b as [|pb|pb]; try lia.
  unfold int_truediv. cbn [Z.abs Z.to_pos Z.ltb Z.compare].
  enough (E : F64.div (S754_finite false 1 0) (S754_finite false pb 0) = S754_zero false)
    by (rewrite E; reflexivity).
  unfold F64.div, SFdiv, SFdiv_core_binary. cbn [Zdigits2 digits2_pos xorb].
  pose proof (digits2_pos_spec pb) as [_ Hd].
  assert (Hd' : 1075 < Z.pos (digits2_pos pb)).
  { destruct (Z_lt_le_dec 1075 (Z.pos (digits2_pos pb))) as [|Hle]; [assumption|].
    assert (2 ^ Z.pos (digits2_pos pb) <= 2 ^ 1075) by (apply Z.pow_le_mono_r; lia).
    lia. }
  replace (fexp F64.prec F64.emax (1 + 0 - (Z.pos (digits2_pos pb) + 0))) with (-1074)
    by (rewrite fexp64; lia).
  change (Z.min (-1074) (0 - 0)) with (-1074).
  change (0 - 0 - -1074) with 1074.
  change (Z.shiftl 1 1074) with (2 ^ 1074).
  destruct (Z.div_eucl (2 ^ 1074) (Z.pos pb)) as [q r] eqn:Ediv.
  assert (Hq : q = 2 ^ 1074 / Z.pos pb) by (unfold Z.div; rewrite Ediv; reflexivity).
  assert (Hr : r = 2 ^ 1074 mod Z.pos pb) by (unfold Z.modulo; rewrite Ediv; reflexivity).
  rewrite Z.div_small in Hq by lia. rewrite Z.mod_small in Hr by lia. subst q r.
  apply round_half_or_less.
  unfold new_location, new_location_even, new_location_odd.
  change (2 ^ 1074 =? 0) with false. cbv iota.
  destruct (Z.even (Z.pos pb)) eqn:Ev.
  - destruct (Z.compare_spec (2 * 2 ^ 1074) (Z.pos pb)) as [He|Hlt|Hgt]; auto.
    exfalso. clear - Hb H1074 Hgt. pow_lia.
  - destruct (Z.compare_spec (2 * 2 ^ 1074 + 1) (Z.pos pb)) as [He|Hlt|Hgt]; auto.
    exfalso. assert (E : Z.pos pb = 2 ^ 1075) by (clear - Hb H1074 Hgt; pow_lia).
    rewrite E in Ev. vm_compute in Ev. discriminate.
Qed.

Lemma dim_error_underflow (level : Z) :
  1075 <= level -> _dim_error level = Ok (S754_zero false, S754_zero false).
Proof.
  intros Hl. unfold _dim_error, int_shiftl.
  replace (level <? 0) with false by (symmetry; apply Z.ltb_ge; lia).
  cbn [bind]. rewrite Z.shiftl_1_l, int_truediv_underflow
    by (apply Z.pow_le_mono_r; lia).
  reflexivity.
Qed.

(** The rational value of a float, from an equation on integers. *)
Lemma two_pow_Q (n : Z) : 0 <= n -> (inject_Z (2 ^ n) == Qpower 2 n)%Q.
Proof. intros Hn. rewrite Zpower_Qpower by assumption. reflexivity. Qed.

Lemma Qpow2_nonzero (n : Z) : ~ (Qpower 2 n == 0)%Q.
Proof. apply Qpower_not_0. discriminate. Qed.

Lemma scaled_exact (M e num level K : Z) :
  0 <= level -> 0 <= K -> 0 <= e + level + K ->
  M * 2 ^ (e + level + K) = num * 2 ^ K ->
  (inject_Z M * Qpower 2 e == inject_Z num * (1 / inject_Z (2 ^ level)))%Q.
Proof.
  intros Hl HK HeK H.
  assert (HQ : (inject_Z M * Qpower 2 (e + level + K) == inject_Z num * Qpower 2 K)%Q).
  { rewrite <- !two_pow_Q by lia. rewrite <- !inject_Z_mult, H. reflexivity. }
  rewrite !Qpower_plus in HQ by discriminate.
  rewrite two_pow_Q by lia.
  pose proof (Qpow2_nonzero level) as N1. pose proof (Qpow2_nonzero K) as N2.
  set (a := Qpower 2 e) in *. set (b := Qpower 2 level) in *. set (c := Qpower 2 K) in *.
  assert (E : (inject_Z M * a * b == inject_Z num)%Q).
  { apply (Qmult_inj_r _ _ c N2). rewrite <- HQ. ring. }
  rewrite <- E. field. exact N1.
Qed.

Lemma exactly_scaled (m : positive) (e num level : Z) :
  0 <= level ->
  (0 <=? e + level + 64) && (Z.shiftl (Z.pos m) (e + level + 64) =? Z.shiftl num 64) = true ->
  F64.exactlyb (S754_finite false m e) (inject_Z num * (1 / inject_Z (2 ^ level)))%Q = true.
Proof.
  intros Hl H. apply andb_prop in H as [H0 H1].
  apply Z.leb_le in H0. apply Z.eqb_eq in H1.
  rewrite !Z.shiftl_mul_pow2 in H1 by lia.
  unfold F64.exactlyb, F64.to_Q. cbn [cond_Zopp]. apply Qeq_bool_iff.
  apply (scaled_exact (Z.pos m) e num level 64); lia.
Qed.

Lemma half_of_exact (f f' : float) (num level : Z) :
  0 <= level ->
  F64.exactlyb f (inject_Z num * (1 / inject_Z (2 ^ level)))%Q = true ->
  F64.exactlyb f' (inject_Z num * (1 / inject_Z (2 ^ (level + 1))))%Q = true ->
  F64.half_ofb f' f = true.
Proof.
  intros Hl Hf Hf'. unfold F64.half_ofb, F64.exactlyb in *.
  destruct (F64.to_Q f) as [v|]; [|discriminate].
  destruct (F64.to_Q f') as [v'|]; [|discriminate].
  apply Qeq_bool_iff in Hf, Hf'. apply Qeq_bool_iff.
  rewrite Hf, Hf'. rewrite Z.pow_add_r by lia. change (2 ^ 1) with 2.
  rewrite inject_Z_mult. rewrite two_pow_Q by assumption.
  pose proof (Qpow2_nonzero level) as N.
  field. exact N.
Qed.

Lemma Zdigits2_pow2 (n : Z) : 0 <= n -> Zdigits2 (2 ^ n) = n + 1.
Proof.
  intros Hn. pose proof (pow2_pos n Hn) as Hp.
  apply Z.le_antisymm.
  - apply Zdigits2_le_of_lt; [|lia]. rewrite Z.pow_add_r by lia. change (2 ^ 1) with 2. lia.
  - pose proof (Zdigits2_upper (2 ^ n) ltac:(lia)) as Hu.
    pose proof (Zdigits2_nonneg (2 ^ n)) as H0.
    destruct (Z_le_gt_dec (n + 1) (Zdigits2 (2 ^ n))) as [|Hgt]; [assumption|].
    assert (2 ^ Zdigits2 (2 ^ n) <= 2 ^ n) by (apply Z.pow_le_mono_r; lia).
    lia.
Qed.

(** [1 / 2 ^ n] without the long division: the quotient of [2 ^ s] by
    [2 ^ n] is [2 ^ (s - n)], exactly, and is then rounded. *)
Lemma int_truediv_pow2 (n : Z) :
  0 <= n <= 1074 ->
  int_truediv 1 (2 ^ n) =
  let e' := Z.min (Z.max (- n - 53) (-1074)) 0 in
  match binary_round_aux F64.prec F64.emax false (2 ^ (- e' - n)) e' loc_Exact with
  | S754_infinity _ => Raise OverflowError
  | f => Ok f
  end.
Proof.
  intros Hn. cbv zeta. pose proof (pow2_pos n ltac:(lia)) as Hp.
  pose proof (Zdigits2_pow2 n ltac:(lia)) as Hd.
  destruct (2 ^ n) as [|p|p] eqn:Ep; try lia.
  unfold int_truediv. cbn [Z.abs Z.to_pos Z.ltb Z.compare].
  unfold F64.div, SFdiv, SFdiv_core_binary. cbn [xorb].
  rewrite Hd. change (Zdigits2 1) with 1. rewrite fexp64.
  replace (1 + 0 - (n + 1 + 0) - 53) with (- n - 53) by lia.
  change (0 - 0) with 0.
  set (e' := Z.min (Z.max (- n - 53) (-1074)) 0).
  assert (He' : e' <= -53 /\ n <= - e') by (subst e'; lia).
  replace (0 - e') with (- e') by lia.
  assert (Em : match - e' with
               | 0 => 1
               | Z.pos _ => Z.shiftl 1 (- e')
               | Z.neg _ => 0
               end = 2 ^ (- e')).
  { destruct (- e') as [|q|q] eqn:Eq; try lia. rewrite Z.shiftl_1_l. reflexivity. }
  rewrite Em.
  assert (Es : 2 ^ (- e') = Z.pos p * 2 ^ (- e' - n)).
  { rewrite <- Ep, <- Z.pow_add_r by lia. f_equal. lia. }
  destruct (Z.div_eucl (2 ^ (- e')) (Z.pos p)) as [q r] eqn:Ediv.
  assert (Hq : q = 2 ^ (- e') / Z.pos p) by (unfold Z.div; rewrite Ediv; reflexivity).
  assert (Hr : r = 2 ^ (- e') mod Z.pos p) by (unfold Z.modulo; rewrite Ediv; reflexivity).
  rewrite Es, Z.mul_comm, Z.div_mul in Hq by lia.
  rewrite Es, Z.mul_comm, Z.mod_mul in Hr by lia.
  subst q r. rewrite new_location_exact. reflexivity.
Qed.

(** The results of [_dim_error] for the levels 0 to 1074, by evaluation:
    [lng_err * 2 ^ level = 180] and [lat_err * 2 ^ level = 90], as equations
    on integers. *)
Lemma dim_error_upto_1074 :
  forallb (fun n =>
             let e' := Z.min (Z.max (- Z.of_nat n - 53) (-1074)) 0 in
             match binary_round_aux F64.prec F64.emax false
                     (2 ^ (- e' - Z.of_nat n)) e' loc_Exact with
             | S754_finite false mu eu =>
                 match F64.mul F64.f180 (S754_finite false mu eu),
                       F64.mul F64.f90 (S754_finite false mu eu) with
                 | S754_finite false ma ea, S754_finite false mb eb =>
                     ((0 <=? ea + Z.of_nat n + 64) &&
                      (Z.shiftl (Z.pos ma) (ea + Z.of_nat n + 64) =? Z.shiftl 180 64)) &&
                     ((0 <=? eb + Z.of_nat n + 64) &&
                      (Z.shiftl (Z.pos mb) (eb + Z.of_nat n + 64) =? Z.shiftl 90 64))
                 | _, _ => false
                 end
             | _ => false
             end) (seq 0 1075) = true.
Proof. vm_compute. reflexivity. Qed.

Lemma dim_error_exact_upto_1074 (level : Z) :
  0 <= level <= 1074 -> dim_error_exact level.
Proof.
  intros Hl.
  pose proof (proj1 (forallb_forall _ _) dim_error_upto_1074 (Z.to_nat level)) as H.
  cbv beta zeta in H. rewrite Z2Nat.id in H by lia.
  specialize (H ltac:(apply in_seq; lia)).
  destruct float_of_int_consts as (_ & E180 & E90).
  unfold dim_error_exact, dim_error_exactb, _dim_error, int_shiftl, int_mul_float.
  replace (level <? 0) with false by (symmetry; apply Z.ltb_ge; lia).
  cbn [bind]. rewrite Z.shiftl_1_l, int_truediv_pow2 by assumption. cbv zeta.
  destruct (binary_round_aux F64.prec F64.emax false _ _ loc_Exact)
    as [s|s| |[] mu eu]; try discriminate.
  cbn [bind]. rewrite E180, E90. cbn [bind].
  destruct (F64.mul F64.f180 (S754_finite false mu eu)) as [s|s| |[] ma ea];
    try discriminate.
  destruct (F64.mul F64.f90 (S754_finite false mu eu)) as [s|s| |[] mb eb];
    try discriminate.
  apply andb_prop in H as [Ha Hb].
  apply andb_true_intro. split.
  - apply (exactly_scaled ma ea 180 level); [lia | exact Ha].
  - apply (exactly_scaled mb eb 90 level); [lia | exact Hb].
Qed.

Lemma dim_error_halves_upto_1073 (level : Z) :
  0 <= level < 1074 -> dim_error_halves level.
Proof.
  intros Hl.
  pose proof (dim_error_exact_upto_1074 level ltac:(lia)) as H0.
  pose proof (dim_error_exact_upto_1074 (level + 1) ltac:(lia)) as H1.
  unfold dim_error_halves, dim_error_halvesb, dim_error_exact, dim_error_exactb in *.
  destruct (_dim_error level) as [[a b]|e|]; try discriminate.
  destruct (_dim_error (level + 1)) as [[a' b']|e|]; try discriminate.
  apply andb_prop in H0 as [Ha Hb]. apply andb_prop in H1 as [Ha' Hb'].
  apply andb_true_intro. split.
  - apply (half_of_exact a a' 180 level); [lia | exact Ha | exact Ha'].
  - apply (half_of_exact b b' 90 level); [lia | exact Hb | exact Hb'].
Qed.

(** C8, as the code has it: for [0 <= level <= 1074], [_dim_error(level)]
    is exactly [(180 * (1 / 2 ^ level), 90 * (1 / 2 ^ level))], so
    [(180.0, 90.0)] at level 0, and for [0 <= level < 1074] each component
    at [level + 1] is exactly half that at [level]; from level 1075 on,
    [1 / 2 ^ level] underflows and the result is [(0.0, 0.0)]. *)
Theorem dim_error_spec (level : Z) :
  0 <= level ->
  (level <= 1074 -> dim_error_exact level) /\
  (level < 1074 -> dim_error_halves level) /\
  (1075 <= level -> _dim_error level = Ok (F64.f0, F64.f0)) /\
  _dim_error 0 = Ok (F64.f180, F64.f90).
Proof.
  intros Hl. repeat split.
  - intros H. apply dim_error_exact_upto_1074. lia.
  - intros H. apply dim_error_halves_upto_1073. lia.
  - apply dim_error_underflow.
Qed.

Lemma dim_error_spec_witness :
  (30 <= 1074 -> dim_error_exact 30) /\
  (30 < 1074 -> dim_error_halves 30) /\
  (1075 <= 30 -> _dim_error 30 = Ok (F64.f0, F64.f0)) /\
  _dim_error 0 = Ok (F64.f180, F64.f90).
Proof. apply (dim_error_spec 30). lia. Defined.

(** C8, as the specification has it, fails at level 1074: the result at
    level 1075 is [(0.0, 0.0)], which is neither
    [(180 / 2 ^ 1075, 90 / 2 ^ 1075)] nor half of the result at level 1074,
    [(180 / 2 ^ 1074, 90 / 2 ^ 1074)]. *)
Lemma dim_error_underflow_1075 :
  _dim_error 1074 = Ok (S754_finite false 180 (-1074), S754_finite false 90 (-1074)) /\
  _dim_error 1075 = Ok (F64.f0, F64.f0) /\
  ~ dim_error_halves 1074 /\ ~ dim_error_exact 1075.
Proof.
  repeat split; try (vm_compute; reflexivity);
    intros H; vm_compute in H; discriminate.
Qed.

(** ** Binary64 arithmetic: rounding stays below a float *)

Lemma loc_of_shr_record_of_loc (m : Z) (l : location) :
  loc_of_shr_record (shr_record_of_loc m l) = l.
Proof. destruct l as [|[]]; reflexivity. Qed.

Lemma round_nearest_even_le (m : Z) (l : location) :
  round_nearest_even m l <= m + F64.inexact l.
Proof.
  destruct l as [|[]]; cbn [round_nearest_even F64.inexact]; try lia.
  destruct (Z.even m); lia.
Qed.

(** One shift to the right halves a bound that the inexact mantissa meets. *)
Lemma shr_1_le (r : shr_record) (C : Z) :
  0 <= shr_m r ->
  shr_m r + F64.inexact (loc_of_shr_record r) <= 2 * C ->
  shr_m (shr_1 r) + F64.inexact (loc_of_shr_record (shr_1 r)) <= C.
Proof.
  destruct r as [m rb sb]. cbn [shr_m]. intros Hm H.
  destruct m as [|p|p]; [| |lia].
  - destruct rb, sb;
      cbn [shr_1 shr_m loc_of_shr_record F64.inexact orb] in *; lia.
  - destruct p as [p|p|]; destruct rb, sb;
      cbn [shr_1 shr_m loc_of_shr_record F64.inexact orb] in *; lia.
Qed.

Lemma shr_1_nonneg (r : shr_record) : 0 <= shr_m r -> 0 <= shr_m (shr_1 r).
Proof.
  intros H. rewrite shr_1_m by assumption. apply Z.div_pos; lia.
Qed.

Lemma shr_iter_round_le (n : nat) :
  forall (r : shr_record) (C : Z),
    0 <= shr_m r ->
    shr_m r + F64.inexact (loc_of_shr_record r) <= C * 2 ^ Z.of_nat n ->
    let r' := Nat.iter n shr_1 r in
    round_nearest_even (shr_m r') (loc_of_shr_record r') <= C.
Proof.
  induction n as [|n IH]; intros r C Hm H; cbv zeta.
  - cbn [Nat.iter nat_rect]. change (2 ^ Z.of_nat 0) with 1 in H.
    pose proof (round_nearest_even_le (shr_m r) (loc_of_shr_record r)). lia.
  - rewrite Nat.iter_succ_r. apply IH.
    + apply shr_1_nonneg; assumption.
    + apply shr_1_le; [assumption|]. rewrite pow2_succ_nat in H. lia.
Qed.

Lemma shr_fexp_round_le (m e : Z) (l : location) (C : Z) :
  0 <= m ->
  let e' := snd (shr_fexp F64.prec F64.emax m e l) in
  let r' := fst (shr_fexp F64.prec F64.emax m e l) in
  m + F64.inexact l <= C * 2 ^ (e' - e) ->
  round_nearest_even (shr_m r') (loc_of_shr_record r') <= C.
Proof.
  intros Hm. unfold shr_fexp, shr.
  destruct (fexp F64.prec F64.emax (Zdigits2 m + e) - e) as [|p|p]; cbn [fst snd];
    intros H.
  - rewrite Z.sub_diag in H. change (2 ^ 0) with 1 in H.
    rewrite shr_record_of_loc_m, loc_of_shr_record_of_loc.
    pose proof (round_nearest_even_le m l). lia.
  - rewrite iter_pos_nat. apply shr_iter_round_le.
    + rewrite shr_record_of_loc_m. assumption.
    + rewrite shr_record_of_loc_m, loc_of_shr_record_of_loc, positive_nat_Z.
      replace (e + Z.pos p - e) with (Z.pos p) in H by lia. exact H.
  - rewrite Z.sub_diag in H. change (2 ^ 0) with 1 in H.
    rewrite shr_record_of_loc_m, loc_of_shr_record_of_loc.
    pose proof (round_nearest_even_le m l). lia.
Qed.

Lemma shr_fexp_m (m e : Z) (l : location) :
  0 <= m ->
  let e' := snd (shr_fexp F64.prec F64.emax m e l) in
  e <= e' /\ shr_m (fst (shr_fexp F64.prec F64.emax m e l)) = m / 2 ^ (e' - e).
Proof.
  intros Hm. unfold shr_fexp, shr.
  destruct (fexp F64.prec F64.emax (Zdigits2 m + e) - e) as [|p|p]; cbn [fst snd].
  - rewrite Z.sub_diag, shr_record_of_loc_m. change (2 ^ 0) with 1.
    rewrite Z.div_1_r. lia.
  - rewrite iter_pos_nat, shr_iter_m, positive_nat_Z, shr_record_of_loc_m
      by (rewrite shr_record_of_loc_m; exact Hm).
    replace (e + Z.pos p - e) with (Z.pos p) by lia. lia.
  - rewrite Z.sub_diag, shr_record_of_loc_m. change (2 ^ 0) with 1.
    rewrite Z.div_1_r. lia.
Qed.

Lemma digits_below_bound (m mb k : Z) :
  0 <= m -> 0 <= k -> 0 < mb < 2 ^ 53 -> m <= mb * 2 ^ k -> Zdigits2 m <= 53 + k.
Proof.
  intros Hm Hk Hmb H. apply Zdigits2_le_of_lt; [|lia].
  rewrite Z.pow_add_r by lia. pose proof (pow2_pos k Hk). nia.
Qed.

(** Rounding a number that is at most the float [mb * 2 ^ eb] gives a
    float that is at most [mb * 2 ^ eb]. *)
Lemma binary_round_aux_at_most (mx ex : Z) (lx : location) (mb eb : Z) :
  0 <= mx -> ex <= eb -> -1074 <= eb <= 971 -> 0 < mb < 2 ^ 53 ->
  mx + F64.inexact lx <= mb * 2 ^ (eb - ex) ->
  F64.at_most mb eb (binary_round_aux F64.prec F64.emax false mx ex lx).
Proof.
  intros Hm Hex Heb Hmb Hle. unfold binary_round_aux.
  assert (Hl0 : 0 <= F64.inexact lx) by (destruct lx; cbn; lia).
  pose proof (digits_below_bound mx mb (eb - ex) Hm ltac:(lia) Hmb ltac:(lia)) as Hd.
  pose proof (shr_fexp_bound mx ex lx Hm) as H1. cbv zeta in H1.
  pose proof (shr_fexp_m mx ex lx Hm) as H1m. cbv zeta in H1m.
  pose proof (shr_fexp_round_le mx ex lx) as H1r. cbv zeta in H1r.
  destruct (shr_fexp F64.prec F64.emax mx ex lx) as [mrs' e']. cbn [fst snd] in *.
  destruct H1 as (H1a & _ & H1c). destruct H1m as [H1e _].
  assert (He' : e' <= eb) by lia.
  specialize (H1r (mb * 2 ^ (eb - e')) Hm).
  assert (Hsplit : mb * 2 ^ (eb - e') * 2 ^ (e' - ex) = mb * 2 ^ (eb - ex)).
  { rewrite <- Z.mul_assoc, <- Z.pow_add_r by lia. do 2 f_equal. lia. }
  rewrite Hsplit in H1r. specialize (H1r Hle).
  pose proof (round_nearest_even_bound (shr_m mrs') (loc_of_shr_record mrs')) as Hr.
  set (m1 := round_nearest_even (shr_m mrs') (loc_of_shr_record mrs')) in *.
  assert (Hm1 : 0 <= m1) by lia.
  pose proof (digits_below_bound m1 mb (eb - e') Hm1 ltac:(lia) Hmb H1r) as Hd1.
  pose proof (shr_fexp_bound m1 e' loc_Exact Hm1) as H2. cbv zeta in H2.
  pose proof (shr_fexp_m m1 e' loc_Exact Hm1) as H2m. cbv zeta in H2m.
  destruct (shr_fexp F64.prec F64.emax m1 e' loc_Exact) as [mrs'' e''].
  cbn [fst snd] in *.
  destruct H2 as (H2a & _ & H2c). destruct H2m as [H2e H2m].
  assert (He'' : e'' <= eb) by lia.
  assert (Hm'' : shr_m mrs'' <= mb * 2 ^ (eb - e'')).
  { rewrite H2m.
    replace (mb * 2 ^ (eb - e'')) with ((mb * 2 ^ (eb - e')) / 2 ^ (e'' - e')).
    - apply Z.div_le_mono; [apply pow2_pos; lia | exact H1r].
    - replace (eb - e') with ((eb - e'') + (e'' - e')) by lia.
      rewrite Z.pow_add_r, Z.mul_assoc by lia.
      apply Z.div_mul. pose proof (pow2_pos (e'' - e')). lia. }
  destruct (shr_m mrs'') as [|m|m] eqn:Em.
  - exact I.
  - replace (e'' <=? F64.emax - F64.prec) with true
      by (symmetry; apply Z.leb_le; unfold F64.emax, F64.prec; lia).
    cbn [F64.at_most]. auto.
  - lia.
Qed.

(** *** The quantizer, step by step *)

Lemma leb_pos_cases (m mh : positive) (e eh : Z) :
  F64.leb (S754_finite false m e) (S754_finite false mh eh) = true ->
  e < eh \/ (e = eh /\ Z.pos m <= Z.pos mh).
Proof.
  unfold F64.leb, SFleb, SFcompare.
  destruct (Z.compare_spec e eh) as [Heq|Hlt|Hgt]; intros H.
  - right. split; [assumption|].
    change (Pos.compare_cont Eq m mh) with (Pos.compare m mh) in H.
    destruct (Pos.compare_spec m mh); try discriminate; lia.
  - left. assumption.
  - discriminate.
Qed.

Lemma leb_neg_cases (m ml : positive) (e el : Z) :
  F64.leb (S754_finite true ml el) (S754_finite true m e) = true ->
  e < el \/ (e = el /\ Z.pos m <= Z.pos ml).
Proof.
  unfold F64.leb, SFleb, SFcompare.
  destruct (Z.compare_spec el e) as [Heq|Hlt|Hgt]; intros H.
  - right. split; [lia|].
    change (Pos.compare_cont Eq ml m) with (Pos.compare ml m) in H.
    destruct (Pos.compare_spec ml m); try discriminate; lia.
  - discriminate.
  - left. lia.
Qed.

Lemma pow2_53 : 2 ^ 53 = 9007199254740992.
Proof. reflexivity. Qed.

(** One axis of the quantizer: [v] is the coordinate,
    [c = 6333186975989760 * 2 ^ k] is [180.0] (for [k = -45]) or [90.0]
    (for [k = -46]), and [dim = 2 ^ level]. *)
Section Axis.

Variables k level : Z.
Hypothesis Hk : -1000 <= k <= 900.
Hypothesis Hlevel : 0 <= level <= 1023.

(** [v + c] for [-c <= v <= c - 2 ulp]: at most [2 c - 1 ulp]. *)
Lemma add_const_at_most (v : float) :
  F64.valid v = true ->
  F64.leb (S754_finite true 6333186975989760 k) v = true ->
  F64.leb v (S754_finite false 6333186975989758 k) = true ->
  F64.at_most 6333186975989759 (k + 1)
    (F64.add v (S754_finite false 6333186975989760 k)).
Proof.
  intros Hv Hlo Hhi.
  destruct v as [s|s| |s m e].
  - cbn [F64.add SFadd F64.at_most]. unfold F64.add. cbn [SFadd F64.at_most].
    replace (k + 1 - k) with 1 by lia. change (2 ^ 1) with 2. lia.
  - destruct s; discriminate.
  - discriminate.
  - pose proof (valid_digits s m e Hv) as Hdig.
    pose proof (digits2_pos_spec m) as [_ Hm53].
    assert (Hm : Z.pos m < 2 ^ 53)
      by (eapply Z.lt_le_trans; [exact Hm53 | apply Z.pow_le_mono_r; lia]).
    rewrite pow2_53 in Hm.
    assert (He : e <= k /\
                 0 <= cond_Zopp s (Z.pos m) + 6333186975989760 * 2 ^ (k - e)
                   <= 6333186975989759 * 2 ^ (k + 1 - e)).
    { replace (k + 1 - e) with (1 + (k - e)).
      2:{ lia. }
      destruct s.
      - apply leb_neg_cases in Hlo. cbn [cond_Zopp].
        destruct Hlo as [Hlt | [-> Hle]].
        + pose proof (pow2_ge_2 (k - e) ltac:(lia)). rewrite Z.pow_add_r by lia.
          change (2 ^ 1) with 2. split; [lia|nia].
        + rewrite !Z.sub_diag. change (2 ^ (1 + 0)) with 2. change (2 ^ 0) with 1.
          lia.
      - apply leb_pos_cases in Hhi. cbn [cond_Zopp].
        destruct Hhi as [Hlt | [-> Hle]].
        + pose proof (pow2_ge_2 (k - e) ltac:(lia)). rewrite Z.pow_add_r by lia.
          change (2 ^ 1) with 2. split; [lia|nia].
        + rewrite !Z.sub_diag. change (2 ^ (1 + 0)) with 2. change (2 ^ 0) with 1.
          lia. }
    destruct He as [He Hsum].
    unfold F64.add. cbn [SFadd]. rewrite Z.min_l by assumption.
    pose proof (shl_align_spec m e e) as [_ Ea].
    pose proof (shl_align_spec 6333186975989760 k e) as [Eb1 Eb].
    rewrite Z.min_r in Eb1 by assumption. rewrite Eb1 in Eb.
    replace (snd (shl_align m e e)) with e in Ea
      by (pose proof (shl_align_spec m e e) as [E _]; lia).
    rewrite Z.sub_diag, Z.mul_1_r in Ea. rewrite Ea, Eb. cbn [cond_Zopp].
    destruct (cond_Zopp s (Z.pos m) + 6333186975989760 * 2 ^ (k - e)) as [|p|p] eqn:Ep;
      cbn [binary_normalize]; [exact I | | lia].
    unfold binary_round.
    pose proof (shl_align_spec p e (fexp F64.prec F64.emax (Z.pos (digits2_pos p) + e)))
      as [Ez Emz].
    destruct (shl_align p e _) as [mz ez']. cbn [fst snd] in Ez, Emz.
    assert (Hez : ez' <= e) by lia.
    apply binary_round_aux_at_most; try lia.
    cbn [F64.inexact]. rewrite Z.add_0_r, Emz.
    replace (k + 1 - ez') with ((k + 1 - e) + (e - ez')) by lia.
    rewrite Z.pow_add_r, Z.mul_assoc by lia.
    apply Z.mul_le_mono_nonneg_r; [|lia].
    pose proof (pow2_pos (e - ez')). lia.
Qed.

Lemma inexact_01 (l : location) : 0 <= F64.inexact l <= 1.
Proof. destruct l; cbn; lia. Qed.

(** [a / (2 c)] for [0 <= a <= 2 c - 1 ulp]: at most [1 - 2 ^ -53], the
    float just below [1.0]. *)
Lemma div_const_at_most (a : float) :
  F64.at_most 6333186975989759 (k + 1) a ->
  F64.at_most 9007199254740991 (-53)
    (F64.div a (S754_finite false 6333186975989760 (k + 1))).
Proof.
  intros Ha. destruct a as [s|s| |s ma ea]; cbn [F64.at_most] in Ha;
    try contradiction.
  - exact I.
  - destruct Ha as (-> & Hea & Hma).
    unfold F64.div, SFdiv, SFdiv_core_binary. cbn [xorb Zdigits2].
    change (Z.pos (digits2_pos 6333186975989760)) with 53.
    pose proof (digits_below_bound (Z.pos ma) 6333186975989759 (k + 1 - ea)
                  ltac:(lia) ltac:(lia) ltac:(rewrite pow2_53; lia) Hma) as Hd.
    cbn [Zdigits2] in Hd. rewrite fexp64.
    set (x := Z.pos (digits2_pos ma) + ea - (53 + (k + 1))) in *.
    set (e' := Z.min (Z.max (x - 53) (-1074)) (ea - (k + 1))).
    assert (He' : e' <= -53 /\ e' <= ea - (k + 1)) by (subst e' x; lia).
    set (s := ea - (k + 1) - e').
    assert (Hs : 0 <= s) by (subst s; lia).
    set (m' := match s with
               | 0 => Z.pos ma
               | Z.pos _ => Z.shiftl (Z.pos ma) s
               | Z.neg _ => 0
               end).
    assert (Hm' : m' = Z.pos ma * 2 ^ s).
    { subst m'. destruct s as [|p|p] eqn:Es.
      - change (2 ^ 0) with 1. lia.
      - rewrite Z.shiftl_mul_pow2 by lia. reflexivity.
      - lia. }
    clearbody m'.
    destruct (Z.div_eucl m' 6333186975989760) as [q r] eqn:Ediv.
    pose proof (Z.div_eucl_eq m' 6333186975989760 ltac:(lia)) as Heq.
    pose proof (Z.mod_pos_bound m' 6333186975989760 ltac:(lia)) as Hr.
    unfold Z.modulo in Hr. rewrite Ediv in Heq, Hr.
    set (N := 2 ^ (-53 - e')).
    assert (HN : 0 < N) by (apply pow2_pos; lia).
    assert (Hbound : m' <= 6333186975989759 * (9007199254740992 * N)).
    { rewrite Hm'. subst N. rewrite <- pow2_53, <- Z.pow_add_r by lia.
      replace (53 + (-53 - e')) with ((k + 1 - ea) + s) by (subst s; lia).
      rewrite Z.pow_add_r, Z.mul_assoc by lia.
      apply Z.mul_le_mono_nonneg_r; [|exact Hma].
      pose proof (pow2_pos s Hs). lia. }
    assert (Hq : 0 <= q) by lia.
    apply binary_round_aux_at_most; try lia. fold N.
    pose proof (inexact_01 (new_location 6333186975989760 r)) as Hi.
    destruct (Z.eq_dec r 0) as [-> | Hr0].
    + rewrite new_location_exact. cbn [F64.inexact]. lia.
    + lia.
Qed.

(** [b * dim] for [0 <= b < 1]: at most the float just below [dim]. *)
Lemma mul_pow2_at_most (b : float) :
  F64.at_most 9007199254740991 (-53) b ->
  F64.at_most 9007199254740991 (level - 53)
    (F64.mul b (S754_finite false 4503599627370496 (level - 52))).
Proof.
  intros Hb. destruct b as [s|s| |s mb eb]; cbn [F64.at_most] in Hb;
    try contradiction.
  - exact I.
  - destruct Hb as (-> & Heb & Hmb).
    unfold F64.mul. cbn [SFmul xorb].
    apply binary_round_aux_at_most; try lia.
    cbn [F64.inexact]. rewrite Z.add_0_r, Pos2Z.inj_mul.
    replace (level - 53 - (eb + (level - 52))) with ((-53 - eb) + 52) by lia.
    rewrite Z.pow_add_r, Z.mul_assoc by lia.
    change (2 ^ 52) with 4503599627370496.
    apply Z.mul_le_mono_nonneg_r; [lia | exact Hmb].
Qed.

(** The floor of a float below [2 ^ level] is an integer of
    [[0, 2 ^ level)]. *)
Lemma floor_at_most (c : float) :
  F64.at_most 9007199254740991 (level - 53) c ->
  exists x, floor c = Ok x /\ 0 <= x < 2 ^ level.
Proof.
  intros Hc. assert (Hl : 0 <= level) by lia. pose proof (pow2_pos level Hl) as Hp.
  destruct c as [s|s| |s mc ec]; cbn [F64.at_most] in Hc; try contradiction.
  - exists 0. split; [reflexivity | lia].
  - destruct Hc as (-> & Hec & Hmc). eexists. split; [reflexivity|].
    cbn [cond_Zopp]. unfold F64.floor_scaled.
    assert (Hlt : Z.pos mc < 2 ^ (level - ec)).
    { replace (level - ec) with (53 + (level - 53 - ec)) by lia.
      rewrite Z.pow_add_r, pow2_53 by lia.
      pose proof (pow2_pos (level - 53 - ec)). lia. }
    destruct (Z_le_gt_dec 0 ec) as [Hpos|Hneg].
    + rewrite Z.shiftl_mul_pow2 by assumption.
      pose proof (pow2_pos ec Hpos).
      replace (level - ec) with (level - ec) in Hlt by lia.
      assert (2 ^ level = 2 ^ (level - ec) * 2 ^ ec)
        by (rewrite <- Z.pow_add_r by lia; f_equal; lia).
      nia.
    + rewrite Z.shiftl_div_pow2 by lia.
      pose proof (pow2_pos (- ec)).
      split; [apply Z.div_pos; lia|].
      apply Z.div_lt_upper_bound; [lia|].
      rewrite <- Z.pow_add_r by lia.
      replace (- ec + level) with (level - ec) by lia. exact Hlt.
Qed.

(** The quantizer on one axis: [floor((v + c) / (2 c) * dim)] for
    [- c <= v <= c - 2 ulp] lies in [[0, dim)]. *)
Lemma quantize_axis_range (v : float) :
  F64.valid v = true ->
  F64.leb (S754_finite true 6333186975989760 k) v = true ->
  F64.leb v (S754_finite false 6333186975989758 k) = true ->
  exists x,
    floor (F64.mul
             (F64.div (F64.add v (S754_finite false 6333186975989760 k))
                      (S754_finite false 6333186975989760 (k + 1)))
             (S754_finite false 4503599627370496 (level - 52))) = Ok x /\
    0 <= x < 2 ^ level.
Proof.
  intros Hv Hlo Hhi.
  apply floor_at_most, mul_pow2_at_most, div_const_at_most, add_const_at_most;
    assumption.
Qed.

End Axis.

(** ** The quantizer *)

Lemma float_of_int_pow2_upto_1023 :
  forallb (fun n =>
             match float_of_int (2 ^ Z.of_nat n) with
             | Ok (S754_finite false m e) =>
                 (Z.pos m =? 4503599627370496) && (e =? Z.of_nat n - 52)
             | _ => false
             end) (seq 0 1024) = true.
Proof. vm_compute. reflexivity. Qed.

Lemma float_of_int_pow2 (level : Z) :
  0 <= level <= 1023 ->
  float_of_int (2 ^ level) = Ok (S754_finite false 4503599627370496 (level - 52)).
Proof.
  intros Hl.
  pose proof (proj1 (forallb_forall _ _) float_of_int_pow2_upto_1023 (Z.to_nat level)) as H.
  cbv beta in H. rewrite Z2Nat.id in H by lia.
  specialize (H ltac:(apply in_seq; lia)).
  destruct (float_of_int (2 ^ level)) as [[s|s| |[] m e]|e|]; try discriminate.
  apply andb_prop in H as [Hm He].
  apply Z.eqb_eq in Hm, He. injection Hm as ->. subst e. reflexivity.
Qed.

Lemma coord2int_max_upto_1023 :
  forallb (fun n =>
             match _coord2int F64.f180 F64.f90 (2 ^ Z.of_nat n) with
             | Ok (x, y) => (x =? 2 ^ Z.of_nat n) && (y =? 2 ^ Z.of_nat n)
             | _ => false
             end) (seq 0 1024) = true.
Proof. vm_compute. reflexivity. Qed.

Lemma coord2int_max (level : Z) :
  0 <= level <= 1023 ->
  _coord2int F64.f180 F64.f90 (2 ^ level) = Ok (2 ^ level, 2 ^ level).
Proof.
  intros Hl.
  pose proof (proj1 (forallb_forall _ _) coord2int_max_upto_1023 (Z.to_nat level)) as H.
  cbv beta in H. rewrite Z2Nat.id in H by lia.
  specialize (H ltac:(apply in_seq; lia)).
  destruct (_coord2int F64.f180 F64.f90 (2 ^ level)) as [[x y]|e|]; try discriminate.
  apply andb_prop in H as [Hx Hy].
  apply Z.eqb_eq in Hx, Hy. subst x y. reflexivity.
Qed.

(** Inside the interval the quantizer stays on the grid. *)
Lemma coord2int_in_grid (lng lat : float) (level : Z) :
  0 <= level <= 1023 ->
  F64.valid lng = true -> F64.valid lat = true ->
  F64.leb (fst _LNG_INTERVAL) lng && F64.leb lng F64.f180_pred2 = true ->
  F64.leb (fst _LAT_INTERVAL) lat && F64.leb lat F64.f90_pred2 = true ->
  let dim := 2 ^ level in
  exists dimf x y,
    float_of_int dim = Ok dimf /\
    floor (F64.mul (F64.div (F64.add lng F64.f180) F64.f360) dimf) = Ok x /\
    floor (F64.mul (F64.div (F64.add lat F64.f90) F64.f180) dimf) = Ok y /\
    _coord2int lng lat dim = Ok (x, y) /\
    0 <= x < dim /\ 0 <= y < dim.
Proof.
  intros Hl Vlng Vlat Rlng Rlat dim.
  apply andb_prop in Rlng as [Lng_lo Lng_hi]. apply andb_prop in Rlat as [Lat_lo Lat_hi].
  pose proof (float_of_int_pow2 level Hl) as Edim. fold dim in Edim.
  destruct (quantize_axis_range (-45) level ltac:(lia) Hl lng Vlng Lng_lo Lng_hi)
    as (x & Ex & Hx).
  destruct (quantize_axis_range (-46) level ltac:(lia) Hl lat Vlat Lat_lo Lat_hi)
    as (y & Ey & Hy).
  exists (S754_finite false 4503599627370496 (level - 52)), x, y.
  repeat split; try assumption; try lia.
  unfold _coord2int, float_mul_int, assert.
  pose proof (pow2_pos level ltac:(lia)) as Hp. fold dim in Hp.
  replace (dim >=? 1) with true by (symmetry; rewrite Z.geb_leb; apply Z.leb_le; lia).
  cbn [bind]. rewrite Edim. cbn [bind snd _LAT_INTERVAL _LNG_INTERVAL].
  change (F64.add lng F64.f180)
    with (F64.add lng (S754_finite false 6333186975989760 (-45))).
  change F64.f360 with (S754_finite false 6333186975989760 (-45 + 1)).
  rewrite Ex. cbn [bind].
  change (F64.add lat F64.f90)
    with (F64.add lat (S754_finite false 6333186975989760 (-46))).
  change F64.f180 with (S754_finite false 6333186975989760 (-46 + 1)).
  rewrite Ey. reflexivity.
Qed.

(** X16: up to two floats below the maximum the quantizer keeps to the
    grid.  For [dim = 2 ^ level] with [0 <= level <= 1023] (so that [dim]
    converts to a float), the quantizer computes, in binary64 arithmetic,
    [x = floor((lng + 180.0) / 360.0 * dim)] and
    [y = floor((lat + 90.0) / 180.0 * dim)]; for every float [lng] of
    [[-180.0, 179.99999999999994]] and [lat] of
    [[-90.0, 89.99999999999997]] the result satisfies [0 <= x < dim] and
    [0 <= y < dim]; the maximum inputs [lng = 180.0] and [lat = 90.0] map to
    [x = dim] and [y = dim]. *)
Theorem coord2int_range (lng lat : float) (level : Z) :
  0 <= level <= 1023 ->
  F64.valid lng = true -> F64.valid lat = true ->
  F64.leb (fst _LNG_INTERVAL) lng && F64.leb lng F64.f180_pred2 = true ->
  F64.leb (fst _LAT_INTERVAL) lat && F64.leb lat F64.f90_pred2 = true ->
  let dim := 2 ^ level in
  exists dimf x y,
    float_of_int dim = Ok dimf /\
    floor (F64.mul (F64.div (F64.add lng F64.f180) F64.f360) dimf) = Ok x /\
    floor (F64.mul (F64.div (F64.add lat F64.f90) F64.f180) dimf) = Ok y /\
    _coord2int lng lat dim = Ok (x, y) /\
    0 <= x < dim /\ 0 <= y < dim /\
    _coord2int F64.f180 F64.f90 dim = Ok (dim, dim).
Proof.
  intros Hl Vlng Vlat Rlng Rlat dim.
  destruct (coord2int_in_grid lng lat level Hl Vlng Vlat Rlng Rlat)
    as (dimf & x & y & H1 & H2 & H3 & H4 & H5 & H6).
  exists dimf, x, y. repeat split; try assumption; try lia.
  apply coord2int_max. exact Hl.
Qed.

Lemma coord2int_range_witness :
  exists dimf x y,
    float_of_int (2 ^ 30) = Ok dimf /\
    floor (F64.mul (F64.div (F64.add F64.fm180 F64.f180) F64.f360) dimf) = Ok x /\
    floor (F64.mul (F64.div (F64.add F64.f90_pred2 F64.f90) F64.f180) dimf) = Ok y /\
    _coord2int F64.fm180 F64.f90_pred2 (2 ^ 30) = Ok (x, y) /\
    0 <= x < 2 ^ 30 /\ 0 <= y < 2 ^ 30 /\
    _coord2int F64.f180 F64.f90 (2 ^ 30) = Ok (2 ^ 30, 2 ^ 30).
Proof.
  apply (coord2int_range F64.fm180 F64.f90_pred2 30); [lia | reflexivity ..].
Defined.

(** C5: the quantizer computes, in binary64 arithmetic,
    [x = floor((lng + 180.0) / 360.0 * dim)] and
    [y = floor((lat + 90.0) / 180.0 * dim)], and the maximum inputs
    [lng = 180.0] and [lat = 90.0] map to [x = dim] and [y = dim].  But it
    leaves the grid inside the intervals too: [179.99999999999997] is a
    float strictly inside (-180, 180), [179.99999999999997 + 180.0] rounds
    to [360.0] and the quantizer returns [x = dim]; likewise
    [89.99999999999999] gives [y = dim].  [encode] then returns the code of
    another cell: the code of [encode(179.99999999999997, 0.0, 1, 2)]
    decodes to [(-90.0, 45.0)]. *)
Theorem coord2int_below_boundary :
  _coord2int F64.f180 F64.f90 1 = Ok (1, 1) /\
  _coord2int F64.f180 F64.f90 (2 ^ 30) = Ok (2 ^ 30, 2 ^ 30) /\
  F64.valid F64.f180_pred = true /\
  F64.ltb F64.fm180 F64.f180_pred = true /\ F64.ltb F64.f180_pred F64.f180 = true /\
  F64.add F64.f180_pred F64.f180 = F64.f360 /\
  _coord2int F64.f180_pred F64.f0 1 = Ok (1, 0) /\
  _coord2int F64.f180_pred F64.f0 (2 ^ 30) = Ok (2 ^ 30, 2 ^ 29) /\
  F64.valid F64.f90_pred = true /\
  F64.ltb F64.fm90 F64.f90_pred = true /\ F64.ltb F64.f90_pred F64.f90 = true /\
  F64.add F64.f90_pred F64.f90 = F64.f180 /\
  _coord2int F64.f0 F64.f90_pred 4 = Ok (2, 4) /\
  _coord2int F64.f180_pred F64.f0 2 = Ok (2, 1) /\
  (forall zero, encode zero F64.f180_pred F64.f0 1 2 = Ok [1]) /\
  decode [1] 2 = Ok (F64.of_Z (-90), F64.of_Z 45) /\
  ~ (forall lng lat level,
        0 <= level ->
        F64.valid lng = true -> F64.valid lat = true ->
        F64.ltb F64.fm180 lng = true -> F64.ltb lng F64.f180 = true ->
        F64.ltb F64.fm90 lat = true -> F64.ltb lat F64.f90 = true ->
        exists x y, _coord2int lng lat (2 ^ level) = Ok (x, y) /\
                    0 <= x < 2 ^ level /\ 0 <= y < 2 ^ level).
Proof.
  do 16 (split; [vm_compute; reflexivity|]).
  intros H.
  destruct (H F64.f180_pred F64.f0 0) as (x & y & E & Hx & _);
    try reflexivity; try lia.
  change (2 ^ 0) with 1 in *.
  replace (_coord2int F64.f180_pred F64.f0 1) with (@Ok (Z * Z) (1, 0)) in E
    by (vm_compute; reflexivity).
  injection E as <- <-. lia.
Qed.

(** ** Validation in [encode] *)

(** C7, as the code has it: every check of [encode] is an [assert]; when
    [lng] is not in [-180, 180], or [lat] is not in [-90, 90], or
    [precision < 0], or [bits_per_char] is not in (2, 4, 6), [encode] raises
    AssertionError, the same error in all four cases, before anything is
    computed and without a result. *)
Theorem encode_rejects (zero : Z -> code) (lng lat : float) (precision bits_per_char : Z) :
  F64.leb (fst _LNG_INTERVAL) lng && F64.leb lng (snd _LNG_INTERVAL) = false \/
  F64.leb (fst _LAT_INTERVAL) lat && F64.leb lat (snd _LAT_INTERVAL) = false \/
  precision < 0 \/
  bits_per_char_ok bits_per_char = false ->
  encode zero lng lat precision bits_per_char = Raise AssertionError.
Proof.
  intros H. unfold encode, assert.
  destruct (F64.leb (fst _LNG_INTERVAL) lng && F64.leb lng (snd _LNG_INTERVAL));
    [|reflexivity].
  destruct (F64.leb (fst _LAT_INTERVAL) lat && F64.leb lat (snd _LAT_INTERVAL));
    [|reflexivity].
  destruct (Z.geb_spec precision 0) as [Hp|Hp]; [|reflexivity].
  destruct (bits_per_char_ok bits_per_char); [|reflexivity].
  exfalso. destruct H as [H | [H | [H | H]]]; try discriminate. lia.
Qed.

Lemma encode_rejects_witness :
  encode zero_empty F64.fm180_1 F64.f0 5 6 = Raise AssertionError.
Proof. apply (encode_rejects zero_empty F64.fm180_1 F64.f0 5 6). left. reflexivity. Defined.

(** C7, as the specification has it, fails: [encode(-180.1, 0.0, 5, 6)],
    [encode(0.0, 90.1, 5, 6)] and [encode(0.0, 0.0, 5, 5)] raise the same
    error, so no two distinct error kinds tell a coordinate out of range
    from a wrong [bits_per_char]. *)
Lemma encode_errors_not_distinct :
  ~ (exists (zero : Z -> code) (range_error invalid_argument : exn),
        range_error <> invalid_argument /\
        encode zero F64.fm180_1 F64.f0 5 6 = Raise range_error /\
        encode zero F64.f0 F64.f90_1 5 6 = Raise range_error /\
        encode zero F64.f0 F64.f0 5 5 = Raise invalid_argument).
Proof.
  intros (zero & r & i & Hne & H1 & _ & H2).
  vm_compute in H1. vm_compute in H2. congruence.
Qed.

(** ** Encoding, then decoding *)

Lemma encode_digits_length (bits_per_char : Z) (fuel : nat) :
  0 < bits_per_char ->
  forall value acc n,
    0 <= n -> 0 <= value < 2 ^ (n * bits_per_char) ->
    (length (encode_digits fuel bits_per_char value acc) <= length acc + Z.to_nat n)%nat.
Proof.
  intros Hb. induction fuel as [|fuel IH]; intros value acc n Hn Hv;
    cbn [encode_digits]; [lia|].
  destruct (Z.leb_spec value 0) as [Hle|Hgt]; [lia|].
  assert (Hn1 : 1 <= n).
  { destruct (Z_le_gt_dec 1 n) as [|Hlt]; [assumption|].
    assert (n = 0) by lia. subst n. change (2 ^ (0 * bits_per_char)) with 1 in Hv. lia. }
  specialize (IH (Z.shiftr value bits_per_char)
                (Z.land value (Z.ones bits_per_char) :: acc) (n - 1) ltac:(lia)).
  cbn [length] in IH.
  assert (Hs : 0 <= Z.shiftr value bits_per_char < 2 ^ ((n - 1) * bits_per_char)).
  { rewrite Z.shiftr_div_pow2 by lia.
    pose proof (pow2_pos bits_per_char ltac:(lia)).
    split; [apply Z.div_pos; lia|].
    apply Z.div_lt_upper_bound; [lia|].
    rewrite <- Z.pow_add_r by nia.
    replace (bits_per_char + (n - 1) * bits_per_char) with (n * bits_per_char) by ring.
    lia. }
  specialize (IH Hs). lia.
Qed.

Lemma rjust_length (width : Z) (c : code) :
  Z.of_nat (length c) <= width -> Z.of_nat (length (rjust width 0 c)) = width.
Proof.
  intros H. unfold rjust. rewrite length_app, repeat_length. lia.
Qed.

Lemma leb_weaken (v : float) (m : positive) (e : Z) :
  F64.leb v (S754_finite false (m - 2) e) = true -> (2 < m)%positive ->
  F64.leb v (S754_finite false m e) = true.
Proof.
  intros H Hm. destruct v as [s|s| |[] mv ev]; try exact H.
  apply leb_pos_cases in H. unfold F64.leb, SFleb, SFcompare.
  destruct H as [H | [-> H]].
  - replace (ev ?= e) with Lt by (symmetry; apply Z.compare_lt_iff; lia). reflexivity.
  - rewrite Z.compare_refl.
    change (Pos.compare_cont Eq mv m) with (Pos.compare mv m).
    destruct (Pos.compare_spec mv m); try reflexivity. lia.
Qed.

(** Inside the interval, [decode_exactly] of the code [encode] returns is
    the lower-left corner of the cell the quantizer chose, plus the error
    margins of the level, with those margins: the round trip goes through
    one and the same cell.  The codec is to write 0 with zero characters
    only, and with no more of them than [precision]. *)
Theorem encode_decode_cell (zero : Z -> code) (lng lat : float)
    (precision bits_per_char : Z) :
  0 <= precision -> bits_per_char_ok bits_per_char = true ->
  Forall (fun ch => ch = 0) (zero bits_per_char) ->
  Z.of_nat (length (zero bits_per_char)) <= precision ->
  (precision * bits_per_char) / 2 <= 1023 ->
  F64.valid lng = true -> F64.valid lat = true ->
  F64.leb (fst _LNG_INTERVAL) lng && F64.leb lng F64.f180_pred2 = true ->
  F64.leb (fst _LAT_INTERVAL) lat && F64.leb lat F64.f90_pred2 = true ->
  let level := (precision * bits_per_char) / 2 in
  let dim := 2 ^ level in
  exists x y c corner_lng corner_lat lng_err lat_err,
    _coord2int lng lat dim = Ok (x, y) /\
    0 <= x < dim /\ 0 <= y < dim /\
    encode zero lng lat precision bits_per_char = Ok c /\
    Z.of_nat (length c) = precision /\
    _hash2xy (decode_int c bits_per_char) dim = Ok (x, y) /\
    _int2coord x y dim = Ok (corner_lng, corner_lat) /\
    _dim_error level = Ok (lng_err, lat_err) /\
    decode_exactly c bits_per_char =
      Ok (F64.add corner_lng lng_err, F64.add corner_lat lat_err, lng_err, lat_err).
Proof.
  intros Hp Hb Hz Hzlen Hmax Vlng Vlat Rlng Rlat level dim.
  assert (Hbits : 0 < bits_per_char /\ precision * bits_per_char = 2 * level).
  { subst level. destruct (bits_per_char_cases _ Hb) as [-> | [-> | ->]];
      split; try lia; Z.to_euclidean_division_equations; lia. }
  destruct Hbits as [Hb0 Hbits].
  assert (Hlevel : 0 <= level <= 1023) by lia.
  assert (Rlng' : F64.leb (fst _LNG_INTERVAL) lng && F64.leb lng (snd _LNG_INTERVAL) = true).
  { apply andb_prop in Rlng as [H1 H2]. rewrite H1. cbn [andb].
    apply (leb_weaken lng 6333186975989760 (-45)); [exact H2 | reflexivity]. }
  assert (Rlat' : F64.leb (fst _LAT_INTERVAL) lat && F64.leb lat (snd _LAT_INTERVAL) = true).
  { apply andb_prop in Rlat as [H1 H2]. rewrite H1. cbn [andb].
    apply (leb_weaken lat 6333186975989760 (-46)); [exact H2 | reflexivity]. }
  destruct (coord2int_in_grid lng lat level Hlevel Vlng Vlat Rlng Rlat)
    as (dimf & x & y & _ & _ & _ & Ecoord & Hx & Hy).
  fold dim in Ecoord, Hx, Hy.
  assert (Ek : dim = 2 ^ Z.of_nat (Z.to_nat level))
    by (subst dim; rewrite Z2Nat.id by lia; reflexivity).
  set (idx := _xy2hash x y dim).
  assert (Hidx : 0 <= idx < dim * dim).
  { subst idx. rewrite Ek, xy2hash_pow2. apply cell_to_index_range. }
  assert (Hdd : dim * dim = 2 ^ (precision * bits_per_char)).
  { rewrite Hbits. replace (2 * level) with (level + level) by lia.
    subst dim. rewrite Z.pow_add_r by lia. reflexivity. }
  set (c := rjust precision 0 (encode_int zero idx bits_per_char)).
  assert (Eenc : encode zero lng lat precision bits_per_char = Ok c).
  { unfold encode, assert. rewrite Rlng', Rlat', Hb.
    replace (precision >=? 0) with true by (symmetry; rewrite Z.geb_leb; apply Z.leb_le; lia).
    cbn [bind]. rewrite Z.shiftr_div_pow2 by lia. change (2 ^ 1) with 2. fold level.
    rewrite Z.shiftl_1_l. fold dim. rewrite Ecoord. reflexivity. }
  assert (Hlen : Z.of_nat (length c) = precision).
  { subst c. apply rjust_length.
    pose proof (encode_digits_length bits_per_char
                  (S (Z.to_nat (Z.log2 idx))) Hb0 idx [] precision Hp
                  ltac:(rewrite <- Hdd; exact Hidx)) as H.
    unfold encode_int. cbn [length] in H.
    destruct (idx =? 0); [exact Hzlen | lia]. }
  assert (Edec : decode_int c bits_per_char = idx)
    by (subst c; apply decode_int_encode_int; [lia | lia | exact Hz]).
  assert (Ehash : _hash2xy idx dim = Ok (x, y)).
  { subst idx. rewrite Ek in *. rewrite xy2hash_pow2.
    pose proof (cell_to_index_range (Z.to_nat level) x y) as Hr.
    rewrite hash2xy_pow2 by lia.
    pose proof (index_to_cell_cell_to_index (Z.to_nat level) x y 0 Hx Hy) as E.
    rewrite Z.mul_0_r, Z.add_0_l in E. rewrite E. reflexivity. }
  destruct (int2coord_ok x y dim Hx Hy) as (qx & qy & _ & _ & Ecorner).
  destruct (dim_error_ok level ltac:(lia)) as (u & _ & Eerr).
  exists x, y, c, (F64.sub (F64.mul qx F64.f360) F64.f180),
    (F64.sub (F64.mul qy F64.f180) F64.f90), (F64.mul F64.f180 u), (F64.mul F64.f90 u).
  repeat split; try assumption; try lia.
  - rewrite Edec. exact Ehash.
  - unfold decode_exactly. rewrite Hb. cbn [assert bind]. rewrite Hlen.
    rewrite Z.shiftr_div_pow2 by lia. change (2 ^ 1) with 2. fold level.
    rewrite Z.shiftl_1_l. fold dim. rewrite Edec, Ehash. cbn [bind].
    rewrite Ecorner. cbn [bind]. rewrite Eerr. reflexivity.
Qed.

(** ** The open upper boundary *)

(** On a grid of [2 ^ level] cells a side, the forward transform reads
    [x] and [y] modulo [dim]: a coordinate one past the grid is taken for
    the coordinate 0. *)
Lemma xy2hash_wraps (level x y : Z) :
  0 <= level ->
  _xy2hash x y (2 ^ level) = _xy2hash (x mod 2 ^ level) (y mod 2 ^ level) (2 ^ level).
Proof.
  intros Hl. rewrite <- (Z2Nat.id level Hl).
  rewrite !xy2hash_pow2. apply cell_to_index_mod.
Qed.

(** C6: the forward transform checks nothing.  [_xy2hash(2, 1, 2)], with
    [x = dim], returns 1, the index of the cell [(0, 1)], where [_hash2xy]
    asserts its own precondition and raises on the index [dim * dim]. *)
Theorem xy2hash_unchecked :
  _xy2hash 2 1 2 = 1 /\ _xy2hash 0 1 2 = 1 /\
  _hash2xy 1 2 = Ok (0, 1) /\ _hash2xy 4 2 = Raise AssertionError.
Proof. repeat split; vm_compute; reflexivity. Qed.

(** C3: [encode(180.0, 0.0, 1, 2)] quantizes to [x = 2 = dim], encodes the
    cell [(0, 1)] instead, and [decode] returns [(-90.0, 45.0)]: 270 degrees
    away from the longitude encoded, with an error margin of 90. *)
Theorem encode_decode_at_180 :
  _coord2int F64.f180 F64.f0 2 = Ok (2, 1) /\
  (forall zero, encode zero F64.f180 F64.f0 1 2 = Ok [1]) /\
  decode [1] 2 = Ok (F64.of_Z (-90), F64.of_Z 45) /\
  _dim_error 1 = Ok (F64.of_Z 90, F64.of_Z 45) /\
  F64.sub F64.f180 (F64.of_Z (-90)) = F64.of_Z 270 /\
  F64.leb (F64.of_Z 270) (F64.of_Z 90) = false.
Proof. repeat split; vm_compute; reflexivity. Qed.

(** ** The curve: where it starts and ends, and how it moves *)

Lemma index_to_cell_step (k : nat) (h : Z) :
  let l := 2 ^ Z.of_nat k in
  let q := Z.shiftr h (2 * Z.of_nat k) in
  let rx := Z.land 1 (Z.shiftr q 1) in
  let ry := Z.land 1 (Z.lxor q rx) in
  let c := index_to_cell k h in
  index_to_cell (S k) h =
  (fst (_rotate l (fst c) (snd c) rx ry) + l * rx,
   snd (_rotate l (fst c) (snd c) rx ry) + l * ry).
Proof.
  cbv zeta. rewrite index_to_cell_unfold_S.
  destruct (index_to_cell k h) as [x y]. rewrite hash2xy_body_eq. reflexivity.
Qed.

(** Only the low [2 k] bits of the index are read. *)
Lemma index_to_cell_mod (k : nat) (h : Z) :
  index_to_cell k (h mod (2 ^ Z.of_nat k * 2 ^ Z.of_nat k)) = index_to_cell k h.
Proof.
  pose proof (index_to_cell_range k h) as [Hx Hy].
  pose proof (cell_to_index_index_to_cell k h) as E.
  pose proof (index_to_cell_cell_to_index k _ _ 0 Hx Hy) as E'.
  rewrite E, Z.mul_0_r, Z.add_0_l in E'. rewrite E'.
  symmetry. apply surjective_pairing.
Qed.

Lemma index_to_cell_first (k : nat) : index_to_cell k 0 = (0, 0).
Proof.
  induction k as [|k IH]; [reflexivity|].
  rewrite index_to_cell_step. cbv zeta. rewrite IH, Z.shiftr_0_l.
  cbn. f_equal; lia.
Qed.

Lemma top_digit_last (k : nat) :
  Z.shiftr (2 ^ Z.of_nat (S k) * 2 ^ Z.of_nat (S k) - 1) (2 * Z.of_nat k) = 3.
Proof.
  rewrite shiftr_even_pow2, pow2_succ_nat.
  pose proof (pow2_nat_pos k) as Hl. set (l := 2 ^ Z.of_nat k) in *.
  symmetry. apply Z.div_unique with (r := l * l - 1); [left; nia | ring].
Qed.

Lemma index_to_cell_last (k : nat) :
  index_to_cell k (2 ^ Z.of_nat k * 2 ^ Z.of_nat k - 1) = (2 ^ Z.of_nat k - 1, 0).
Proof.
  induction k as [|k IH]; [reflexivity|].
  rewrite index_to_cell_step. cbv zeta. rewrite top_digit_last.
  rewrite <- (index_to_cell_mod k), pow2_succ_nat.
  pose proof (pow2_nat_pos k) as Hl. set (l := 2 ^ Z.of_nat k) in *.
  replace ((2 * l * (2 * l) - 1) mod (l * l)) with (l * l - 1)
    by (apply Z.mod_unique with (q := 3); [left; nia | ring]).
  rewrite IH.
  change (Z.land 1 (Z.shiftr 3 1)) with 1. change (Z.land 1 (Z.lxor 3 1)) with 0.
  unfold _rotate. cbn [Z.eqb Pos.eqb fst snd]. f_equal; lia.
Qed.

(** The rotation keeps the distance between two cells. *)
Lemma rotate_distance (n x y x' y' rx ry : Z) :
  Z.abs (fst (_rotate n x' y' rx ry) - fst (_rotate n x y rx ry)) +
  Z.abs (snd (_rotate n x' y' rx ry) - snd (_rotate n x y rx ry))
  = Z.abs (x' - x) + Z.abs (y' - y).
Proof.
  unfold _rotate. destruct (ry =? 0); [destruct (rx =? 1)|]; cbn [fst snd]; lia.
Qed.

Lemma index_to_cell_adjacent (k : nat) :
  forall h,
    0 <= h -> h + 1 < 2 ^ Z.of_nat k * 2 ^ Z.of_nat k ->
    Z.abs (fst (index_to_cell k (h + 1)) - fst (index_to_cell k h)) +
    Z.abs (snd (index_to_cell k (h + 1)) - snd (index_to_cell k h)) = 1.
Proof.
  induction k as [|k IH]; intros h H0 H1.
  - cbn in H1. lia.
  - rewrite pow2_succ_nat in H1.
    rewrite !index_to_cell_step. cbv zeta. rewrite !shiftr_even_pow2.
    rewrite <- (index_to_cell_mod k h), <- (index_to_cell_mod k (h + 1)).
    pose proof (pow2_nat_pos k) as Hl. set (l := 2 ^ Z.of_nat k) in *.
    assert (Hll : 0 < l * l) by nia.
    pose proof (Z.div_mod h (l * l) ltac:(lia)) as Eh.
    pose proof (Z.mod_pos_bound h (l * l) Hll) as Hr.
    set (q := h / (l * l)) in *. set (r := h mod (l * l)) in *.
    assert (Hq : 0 <= q <= 3) by nia.
    destruct (Z_lt_le_dec (r + 1) (l * l)) as [Hin|Hout].
    + (* the same quadrant *)
      replace ((h + 1) / (l * l)) with q
        by (apply Z.div_unique with (r := r + 1); [left; lia | lia]).
      replace ((h + 1) mod (l * l)) with (r + 1)
        by (apply Z.mod_unique with (q := q); [left; lia | lia]).
      specialize (IH r ltac:(lia) Hin).
      rewrite <- (index_to_cell_mod k r), <- (index_to_cell_mod k (r + 1)) in IH.
      fold l in IH.
      rewrite (Z.mod_small r), (Z.mod_small (r + 1)) in IH by lia.
      set (rx := Z.land 1 (Z.shiftr q 1)). set (ry := Z.land 1 (Z.lxor q rx)).
      pose proof (rotate_distance l (fst (index_to_cell k r)) (snd (index_to_cell k r))
                    (fst (index_to_cell k (r + 1))) (snd (index_to_cell k (r + 1)))
                    rx ry) as D.
      cbn [fst snd]. lia.
    + (* from the last cell of a quadrant to the first cell of the next *)
      assert (Er : r = l * l - 1) by lia.
      replace ((h + 1) / (l * l)) with (q + 1)
        by (apply Z.div_unique with (r := 0); [left; lia | lia]).
      replace ((h + 1) mod (l * l)) with 0
        by (apply Z.mod_unique with (q := q + 1); [left; lia | lia]).
      rewrite Er. unfold l at 1 2 3 4. rewrite index_to_cell_last, index_to_cell_first.
      fold l. cbn [fst snd].
      assert (Hq' : q = 0 \/ q = 1 \/ q = 2) by nia.
      destruct Hq' as [-> | [-> | ->]]; cbn; lia.
Qed.

(** X1: the curve moves one cell at a time.  On a grid of [dim = 2 ^ level]
    cells a side, two consecutive indexes [h] and [h + 1] of
    [[0, dim * dim)] decode (without error) to two cells that share a side:
    they differ by 1 in one coordinate and agree in the other. *)
Theorem hash2xy_adjacent (level dim h : Z) :
  0 <= level -> dim = 2 ^ level ->
  0 <= h -> h + 1 < dim * dim ->
  exists x y x' y',
    _hash2xy h dim = Ok (x, y) /\ _hash2xy (h + 1) dim = Ok (x', y') /\
    Z.abs (x' - x) + Z.abs (y' - y) = 1.
Proof.
  intros Hl -> H0 H1.
  rewrite <- (Z2Nat.id level Hl) in *. set (k := Z.to_nat level) in *.
  exists (fst (index_to_cell k h)), (snd (index_to_cell k h)),
    (fst (index_to_cell k (h + 1))), (snd (index_to_cell k (h + 1))).
  rewrite !hash2xy_pow2 by lia. rewrite <- !surjective_pairing.
  repeat split. apply index_to_cell_adjacent; assumption.
Qed.

Lemma hash2xy_adjacent_witness :
  exists x y x' y',
    _hash2xy 7 4 = Ok (x, y) /\ _hash2xy (7 + 1) 4 = Ok (x', y') /\
    Z.abs (x' - x) + Z.abs (y' - y) = 1.
Proof. apply (hash2xy_adjacent 2 4 7); [lia | reflexivity | lia | lia]. Defined.

(** X2: on a grid of [dim = 2 ^ level] cells a side the curve starts in the
    cell [(0, 0)], which has the index 0, and ends in the cell
    [(dim - 1, 0)], which has the last index [dim * dim - 1]. *)
Theorem curve_endpoints (level dim : Z) :
  0 <= level -> dim = 2 ^ level ->
  _hash2xy 0 dim = Ok (0, 0) /\ _hash2xy (dim * dim - 1) dim = Ok (dim - 1, 0) /\
  _xy2hash 0 0 dim = 0 /\ _xy2hash (dim - 1) 0 dim = dim * dim - 1.
Proof.
  intros Hl ->.
  rewrite <- (Z2Nat.id level Hl) in *. set (k := Z.to_nat level) in *.
  pose proof (pow2_nat_pos k) as Hp.
  rewrite !hash2xy_pow2, !xy2hash_pow2 by nia.
  rewrite index_to_cell_first, index_to_cell_last.
  repeat split.
  - pose proof (cell_to_index_index_to_cell k 0) as E.
    rewrite index_to_cell_first in E. cbn [fst snd] in E. rewrite E.
    apply Z.mod_0_l. nia.
  - pose proof (cell_to_index_index_to_cell k (2 ^ Z.of_nat k * 2 ^ Z.of_nat k - 1)) as E.
    rewrite index_to_cell_last in E. cbn [fst snd] in E. rewrite E.
    apply Z.mod_small. nia.
Qed.

Lemma curve_endpoints_witness :
  _hash2xy 0 8 = Ok (0, 0) /\ _hash2xy (8 * 8 - 1) 8 = Ok (8 - 1, 0) /\
  _xy2hash 0 0 8 = 0 /\ _xy2hash (8 - 1) 0 8 = 8 * 8 - 1.
Proof. apply (curve_endpoints 3 8); [lia | reflexivity]. Defined.

(** ** A cell and the cell that contains it one level up *)

Lemma half_compl (l x : Z) : (2 * l - 1 - x) / 2 = l - 1 - x / 2.
Proof. Z.to_euclidean_division_equations; lia. Qed.

Lemma rotate_half (l x y rx ry : Z) :
  _rotate l (x / 2) (y / 2) rx ry =
  (fst (_rotate (2 * l) x y rx ry) / 2, snd (_rotate (2 * l) x y rx ry) / 2).
Proof.
  unfold _rotate. destruct (ry =? 0); [destruct (rx =? 1)|]; cbn [fst snd];
    rewrite ?half_compl; reflexivity.
Qed.

Lemma cell_to_index_parent (k : nat) :
  forall x y, cell_to_index (S k) x y / 4 = cell_to_index k (x / 2) (y / 2).
Proof.
  induction k as [|k IH]; intros x y.
  - rewrite cell_to_index_unfold_S, xy2hash_body_eq. cbv zeta.
    cbn [cell_to_index Z.of_nat]. change (2 ^ 0) with 1.
    pose proof (quadrant_digit_range _ _ (int_of_bool_01 (Z.land x 1 >? 0))
                  (int_of_bool_01 (Z.land y 1 >? 0))) as Hq.
    apply Z.div_small. lia.
  - rewrite (cell_to_index_unfold_S (S k)), (cell_to_index_unfold_S k).
    rewrite !xy2hash_body_eq. cbv zeta.
    rewrite !bit_at_level by lia. rewrite pow2_succ_nat.
    pose proof (pow2_nat_pos k) as Hl. set (l := 2 ^ Z.of_nat k) in *.
    rewrite <- !(Z.div_div _ 2 l) by lia.
    set (rx := (x / 2 / l) mod 2). set (ry := (y / 2 / l) mod 2).
    rewrite rotate_half. cbn [fst snd]. rewrite <- IH.
    set (c := cell_to_index (S k) _ _).
    replace (0 + 2 * l * (2 * l) * Z.lxor (3 * rx) ry + c)
      with (l * l * Z.lxor (3 * rx) ry * 4 + c) by ring.
    rewrite Z.div_add_l by lia. lia.
Qed.

Lemma cell_to_index_ancestor (j k : nat) :
  forall x y,
    cell_to_index (j + k) x y / (2 ^ Z.of_nat j * 2 ^ Z.of_nat j)
    = cell_to_index k (x / 2 ^ Z.of_nat j) (y / 2 ^ Z.of_nat j).
Proof.
  induction j as [|j IH]; intros x y.
  - cbn [Nat.add Z.of_nat]. change (2 ^ 0) with 1. rewrite !Z.div_1_r. reflexivity.
  - cbn [Nat.add]. rewrite pow2_succ_nat.
    pose proof (pow2_nat_pos j) as Hl. set (l := 2 ^ Z.of_nat j) in *.
    replace (2 * l * (2 * l)) with (4 * (l * l)) by ring.
    rewrite <- Z.div_div by nia. rewrite cell_to_index_parent, IH. fold l.
    rewrite !Z.div_div by lia. reflexivity.
Qed.

(** X3: the index of a cell starts with the index of the cell that contains
    it on a coarser grid.  For all integers [x] and [y],
    [_xy2hash(x, y, 2 ^ (level + j)) >> (2 * j)] is
    [_xy2hash(x >> j, y >> j, 2 ^ level)]: dropping the last [2 * j] bits of
    an index goes [j] levels up. *)
Theorem xy2hash_prefix (level j x y : Z) :
  0 <= level -> 0 <= j ->
  Z.shiftr (_xy2hash x y (2 ^ (level + j))) (2 * j)
  = _xy2hash (Z.shiftr x j) (Z.shiftr y j) (2 ^ level).
Proof.
  intros Hl Hj.
  rewrite <- (Z2Nat.id level Hl), <- (Z2Nat.id j Hj).
  set (k := Z.to_nat level). set (n := Z.to_nat j).
  rewrite <- Nat2Z.inj_add, !xy2hash_pow2, shiftr_even_pow2.
  rewrite !Z.shiftr_div_pow2 by lia.
  rewrite (Nat.add_comm k n). apply cell_to_index_ancestor.
Qed.

Lemma xy2hash_prefix_witness :
  Z.shiftr (_xy2hash 5 6 (2 ^ (1 + 2))) (2 * 2)
  = _xy2hash (Z.shiftr 5 2) (Z.shiftr 6 2) (2 ^ 1).
Proof. apply (xy2hash_prefix 1 2 5 6); lia. Defined.

(** X4: decoding an index without its last [2 * j] bits, on the grid that is
    [j] levels coarser, gives the cell that contains the cell of the index:
    if [_hash2xy(h, 2 ^ (level + j))] is [(x, y)], then
    [_hash2xy(h >> (2 * j), 2 ^ level)] is [(x >> j, y >> j)]. *)
Theorem hash2xy_prefix (level j h : Z) :
  0 <= level -> 0 <= j ->
  0 <= h < 2 ^ (level + j) * 2 ^ (level + j) ->
  exists x y,
    _hash2xy h (2 ^ (level + j)) = Ok (x, y) /\
    _hash2xy (Z.shiftr h (2 * j)) (2 ^ level) = Ok (Z.shiftr x j, Z.shiftr y j).
Proof.
  intros Hl Hj Hh.
  rewrite <- (Z2Nat.id level Hl), <- (Z2Nat.id j Hj) in *.
  set (k := Z.to_nat level) in *. set (n := Z.to_nat j) in *.
  rewrite <- Nat2Z.inj_add in *.
  pose proof (index_to_cell_range (k + n) h) as [Hx Hy].
  pose proof (cell_to_index_index_to_cell (k + n) h) as E.
  rewrite Z.mod_small in E by exact Hh.
  set (x := fst (index_to_cell (k + n) h)) in *.
  set (y := snd (index_to_cell (k + n) h)) in *.
  exists x, y. split.
  - rewrite hash2xy_pow2 by lia. subst x y. rewrite <- surjective_pairing. reflexivity.
  - pose proof (cell_to_index_ancestor n k x y) as A.
    rewrite (Nat.add_comm n k), E in A.
    rewrite shiftr_even_pow2, A, !Z.shiftr_div_pow2 by lia.
    pose proof (pow2_nat_pos n) as Hn. pose proof (pow2_nat_pos k) as Hk.
    assert (Hx' : 0 <= x / 2 ^ Z.of_nat n < 2 ^ Z.of_nat k).
    { rewrite Nat2Z.inj_add, Z.pow_add_r in Hx by lia.
      split; [apply Z.div_pos; lia | apply Z.div_lt_upper_bound; lia]. }
    assert (Hy' : 0 <= y / 2 ^ Z.of_nat n < 2 ^ Z.of_nat k).
    { rewrite Nat2Z.inj_add, Z.pow_add_r in Hy by lia.
      split; [apply Z.div_pos; lia | apply Z.div_lt_upper_bound; lia]. }
    pose proof (cell_to_index_range k (x / 2 ^ Z.of_nat n) (y / 2 ^ Z.of_nat n)) as Hr.
    rewrite hash2xy_pow2 by lia.
    pose proof (index_to_cell_cell_to_index k _ _ 0 Hx' Hy') as E'.
    rewrite Z.mul_0_r, Z.add_0_l in E'. rewrite E'. reflexivity.
Qed.

Lemma hash2xy_prefix_witness :
  exists x y,
    _hash2xy 57 (2 ^ (1 + 2)) = Ok (x, y) /\
    _hash2xy (Z.shiftr 57 (2 * 2)) (2 ^ 1) = Ok (Z.shiftr x 2, Z.shiftr y 2).
Proof. apply (hash2xy_prefix 1 2 57); [lia | lia | split; [lia | reflexivity]]. Defined.

(** ** The inverse transform on any [dim] *)

(** The test [lvl < dim] of the loop, for [lvl = 2 ^ i]: as on the grid whose
    side is [dim] rounded up to a power of two. *)
Lemma loop_test_log2_up (dim : Z) (i : nat) :
  (i <= Z.to_nat (Z.log2_up dim))%nat ->
  (2 ^ Z.of_nat i <? dim) = (2 ^ Z.of_nat i <? 2 ^ Z.log2_up dim).
Proof.
  intros Hi. pose proof (Z.log2_up_nonneg dim) as Hn.
  destruct (Z_le_gt_dec dim 1) as [Hle|Hgt].
  - rewrite Z.log2_up_eqn0 in * by assumption.
    assert (i = 0%nat) by lia. subst i. change (2 ^ Z.of_nat 0) with 1.
    change (2 ^ 0) with 1. rewrite Z.ltb_irrefl. apply Z.ltb_ge. lia.
  - pose proof (Z.log2_up_spec dim ltac:(lia)) as [Hlo Hhi].
    destruct (Nat.eq_dec i (Z.to_nat (Z.log2_up dim))) as [->|Hne].
    + rewrite Z2Nat.id by assumption. rewrite Z.ltb_irrefl. apply Z.ltb_ge. lia.
    + assert (Hlt : Z.of_nat i <= Z.pred (Z.log2_up dim)) by lia.
      pose proof (Z.pow_le_mono_r 2 _ _ ltac:(lia) Hlt).
      pose proof (Z.pow_lt_mono_r 2 (Z.of_nat i) (Z.log2_up dim) ltac:(lia) ltac:(lia)
                    ltac:(lia)).
      transitivity true; [apply Z.ltb_lt; lia | symmetry; apply Z.ltb_lt; lia].
Qed.

Lemma hash2xy_loop_any_dim (dim : Z) (n : nat) :
  forall (i : nat) (x y h : Z),
    (i + n)%nat = Z.to_nat (Z.log2_up dim) ->
    hash2xy_loop n dim (2 ^ Z.of_nat i) x y h
    = hash2xy_loop n (2 ^ Z.log2_up dim) (2 ^ Z.of_nat i) x y h.
Proof.
  induction n as [|n IH]; intros i x y h Hi; cbn [hash2xy_loop];
    rewrite (loop_test_log2_up dim i) by lia; [reflexivity|].
  destruct (2 ^ Z.of_nat i <? 2 ^ Z.log2_up dim); [|reflexivity].
  rewrite hash2xy_body_eq. cbv zeta.
  replace (Z.shiftl (2 ^ Z.of_nat i) 1) with (2 ^ Z.of_nat (S i))
    by (rewrite Z.shiftl_mul_pow2, pow2_succ_nat by lia; change (2 ^ 1) with 2; ring).
  apply IH. lia.
Qed.

Lemma hash2xy_any_dim_eq (h dim : Z) :
  h <= dim * dim - 1 ->
  _hash2xy h dim = Ok (index_to_cell (Z.to_nat (Z.log2_up dim)) h).
Proof.
  intros Hh. unfold _hash2xy, assert.
  replace (h <=? _) with true by (symmetry; apply Z.leb_le; exact Hh).
  cbn [bind].
  rewrite (hash2xy_loop_any_dim dim _ 0%nat) by reflexivity.
  pose proof (hash2xy_loop_pow2 h (Z.to_nat (Z.log2_up dim)) 0%nat) as E.
  cbn [Nat.add index_to_cell fst snd Z.of_nat] in E.
  rewrite Z2Nat.id in E by apply Z.log2_up_nonneg.
  rewrite Z.mul_0_r, Z.shiftr_0_r in E. exact E.
Qed.

(** X5: [_hash2xy] on any [dim], a power of two or not, positive or not.
    It raises AssertionError when [hashcode >= dim * dim]; otherwise its loop
    ends and it returns a cell of the grid whose side is [dim] rounded up to a
    power of two, [2 ^ log2_up dim].  For a [dim] that is no power of two the
    cell can lie outside [[0, dim)]: [_hash2xy(20, 6)] is [(0, 6)]. *)
Theorem hash2xy_any_dim (hashcode dim : Z) :
  (dim * dim <= hashcode -> _hash2xy hashcode dim = Raise AssertionError) /\
  (hashcode <= dim * dim - 1 ->
   exists x y, _hash2xy hashcode dim = Ok (x, y) /\
               0 <= x < 2 ^ Z.log2_up dim /\ 0 <= y < 2 ^ Z.log2_up dim) /\
  _hash2xy 20 6 = Ok (0, 6).
Proof.
  split; [apply hash2xy_asserts|]. split; [|reflexivity].
  intros Hh. rewrite hash2xy_any_dim_eq by assumption.
  pose proof (index_to_cell_range (Z.to_nat (Z.log2_up dim)) hashcode) as Hr.
  rewrite Z2Nat.id in Hr by apply Z.log2_up_nonneg.
  eexists _, _. split; [apply f_equal, surjective_pairing|]. exact Hr.
Qed.

(** X6: [_hash2xy] checks its index from above only.  On a grid of
    [dim = 2 ^ level] cells a side, every [h <= dim * dim - 1], negative ones
    included, decodes to a cell of the grid: the cell of [h mod (dim * dim)],
    whose index is [h mod (dim * dim)]. *)
Theorem hash2xy_wraps (level dim h : Z) :
  0 <= level -> dim = 2 ^ level -> h <= dim * dim - 1 ->
  exists x y,
    _hash2xy h dim = Ok (x, y) /\ 0 <= x < dim /\ 0 <= y < dim /\
    _xy2hash x y dim = h mod (dim * dim) /\
    _hash2xy (h mod (dim * dim)) dim = Ok (x, y).
Proof.
  intros Hl -> Hh.
  rewrite <- (Z2Nat.id level Hl) in *. set (k := Z.to_nat level) in *.
  pose proof (pow2_nat_pos k) as Hp.
  pose proof (Z.mod_pos_bound h (2 ^ Z.of_nat k * 2 ^ Z.of_nat k) ltac:(nia)) as Hm.
  exists (fst (index_to_cell k h)), (snd (index_to_cell k h)).
  pose proof (index_to_cell_range k h) as [Hx Hy].
  rewrite !hash2xy_pow2 by lia. rewrite index_to_cell_mod, <- surjective_pairing.
  repeat split; try lia.
  rewrite xy2hash_pow2. apply cell_to_index_index_to_cell.
Qed.

Lemma hash2xy_wraps_witness :
  exists x y,
    _hash2xy (-1) 8 = Ok (x, y) /\ 0 <= x < 8 /\ 0 <= y < 8 /\
    _xy2hash x y 8 = (-1) mod (8 * 8) /\
    _hash2xy ((-1) mod (8 * 8)) 8 = Ok (x, y).
Proof. apply (hash2xy_wraps 3 8 (-1)); [lia | reflexivity | lia]. Defined.

(** ** The rotation, twice *)

(** X7: [_rotate] undoes itself: applied to its own result with the same
    [n], [rx] and [ry] it gives [(x, y)] back; and [(x, y)] is a cell of the
    square of side [n] exactly when its image is. *)
Theorem rotate_twice (n x y rx ry : Z) :
  let '(x', y') := _rotate n x y rx ry in
  _rotate n x' y' rx ry = (x, y) /\
  (0 <= x < n /\ 0 <= y < n <-> 0 <= x' < n /\ 0 <= y' < n).
Proof.
  pose proof (rotate_involutive n x y rx ry) as E.
  destruct (_rotate n x y rx ry) as [x' y'] eqn:R. cbn [fst snd] in E.
  split; [exact E|].
  split; intros [H1 H2].
  - pose proof (rotate_range n x y rx ry H1 H2) as Hr. rewrite R in Hr. exact Hr.
  - pose proof (rotate_range n x' y' rx ry H1 H2) as Hr. rewrite E in Hr. exact Hr.
Qed.

(** ** Integers too large for a float *)

Lemma Zdigits2_lower (m : Z) : 0 < m -> 2 ^ (Zdigits2 m - 1) <= m.
Proof.
  destruct m as [|p|p]; intros H; try lia. cbn [Zdigits2]. apply digits2_pos_spec.
Qed.

(** Shifting a number of the normal range leaves a positive mantissa. *)
Lemma shr_fexp_normal (m e : Z) (l : location) :
  0 < m -> 972 <= Zdigits2 m + e - 53 ->
  let r := shr_fexp F64.prec F64.emax m e l in
  0 < shr_m (fst r) /\ 972 <= snd r.
Proof.
  intros Hm Hd. cbv zeta.
  pose proof (shr_fexp_m m e l ltac:(lia)) as [He Hq].
  pose proof (Zdigits2_lower m Hm) as Hlo.
  unfold shr_fexp, shr in *. rewrite fexp64 in *.
  rewrite Z.max_l in * by lia.
  destruct (Zdigits2 m + e - 53 - e) as [|p|p] eqn:En; cbn [fst snd] in *.
  - rewrite shr_record_of_loc_m. lia.
  - split; [|lia]. rewrite Hq.
    replace (e + Z.pos p - e) with (Z.pos p) by lia.
    apply Z.div_str_pos. split; [apply pow2_pos; lia|].
    etransitivity; [|exact Hlo]. apply Z.pow_le_mono_r; lia.
  - rewrite shr_record_of_loc_m. lia.
Qed.

Lemma binary_round_aux_overflow (s : bool) (m e : Z) (l : location) :
  0 < m -> 1025 <= Zdigits2 m + e ->
  binary_round_aux F64.prec F64.emax s m e l = S754_infinity s.
Proof.
  intros Hm Hd. unfold binary_round_aux.
  pose proof (shr_fexp_normal m e l Hm ltac:(lia)) as H1. cbv zeta in H1.
  destruct (shr_fexp F64.prec F64.emax m e l) as [mrs' e']. cbn [fst snd] in H1.
  destruct H1 as [H1a H1b].
  pose proof (round_nearest_even_bound (shr_m mrs') (loc_of_shr_record mrs')) as Hr.
  set (m1 := round_nearest_even (shr_m mrs') (loc_of_shr_record mrs')) in *.
  assert (Hm1 : 0 < m1) by lia.
  pose proof (shr_fexp_m m1 e' loc_Exact ltac:(lia)) as [H2a H2b].
  pose proof (Zdigits2_lower m1 Hm1) as Hlo.
  assert (H2 : 0 < shr_m (fst (shr_fexp F64.prec F64.emax m1 e' loc_Exact))).
  { revert H2a H2b. unfold shr_fexp, shr. rewrite fexp64.
    destruct (Z.max (Zdigits2 m1 + e' - 53) (-1074) - e') as [|p|p] eqn:En;
      cbn [fst snd]; intros H2a H2b; rewrite ?shr_record_of_loc_m; try lia.
    rewrite H2b. replace (e' + Z.pos p - e') with (Z.pos p) by lia.
    apply Z.div_str_pos. split; [apply pow2_pos; lia|].
    etransitivity; [|exact Hlo]. apply Z.pow_le_mono_r; lia. }
  destruct (shr_fexp F64.prec F64.emax m1 e' loc_Exact) as [mrs'' e''].
  cbn [fst snd] in *.
  destruct (shr_m mrs'') as [|p|p]; try lia.
  replace (e'' <=? F64.emax - F64.prec) with false
    by (symmetry; apply Z.leb_gt; unfold F64.emax, F64.prec; lia).
  reflexivity.
Qed.

(** [float(n)] raises OverflowError from [n = 2 ^ 1024] on. *)
Lemma float_of_int_overflow (n : Z) :
  2 ^ 1024 <= n -> float_of_int n = Raise OverflowError.
Proof.
  intros Hn. pose proof (pow2_pos 1024 ltac:(lia)) as Hp.
  destruct n as [|p|p]; try lia.
  unfold float_of_int, F64.of_Z. cbn [binary_normalize]. unfold binary_round.
  pose proof (Zdigits2_mono (2 ^ 1024) (Z.pos p) ltac:(lia)) as Hd.
  rewrite Zdigits2_pow2 in Hd by lia. cbn [Zdigits2] in Hd.
  pose proof (shl_align_spec p 0 (fexp F64.prec F64.emax (Z.pos (digits2_pos p) + 0))) as H.
  cbv zeta in H. rewrite fexp64 in *.
  destruct (shl_align p 0 _) as [mz ez]. cbn [fst snd] in H. destruct H as [Hez Hmz].
  rewrite Z.min_l in Hez by lia. subst ez.
  change (2 ^ (0 - 0)) with 1 in Hmz. rewrite Z.mul_1_r in Hmz.
  rewrite Hmz, binary_round_aux_overflow; [reflexivity | lia |].
  cbn [Zdigits2]. lia.
Qed.

(** X9: [encode] has a largest precision.  With valid coordinates and
    [bits_per_char], and [precision * bits_per_char >= 2048], the level is
    at least 1024, [dim = 1 << level] is too large for a float, and the
    product [... * dim] of [_coord2int] raises OverflowError. *)
Theorem encode_overflow (zero : Z -> code) (lng lat : float) (precision bits_per_char : Z) :
  F64.leb (fst _LNG_INTERVAL) lng && F64.leb lng (snd _LNG_INTERVAL) = true ->
  F64.leb (fst _LAT_INTERVAL) lat && F64.leb lat (snd _LAT_INTERVAL) = true ->
  bits_per_char_ok bits_per_char = true ->
  2048 <= precision * bits_per_char ->
  encode zero lng lat precision bits_per_char = Raise OverflowError.
Proof.
  intros Rlng Rlat Hb Hbits.
  assert (Hp : 0 <= precision).
  { destruct (bits_per_char_cases _ Hb) as [-> | [-> | ->]]; lia. }
  unfold encode, assert. rewrite Rlng, Rlat, Hb.
  replace (precision >=? 0) with true by (symmetry; rewrite Z.geb_leb; apply Z.leb_le; lia).
  cbn [bind]. rewrite Z.shiftr_div_pow2, Z.shiftl_1_l by lia. change (2 ^ 1) with 2.
  set (level := precision * bits_per_char / 2).
  assert (Hl : 1024 <= level) by (subst level; Z.to_euclidean_division_equations; lia).
  pose proof (Z.pow_le_mono_r 2 1024 level ltac:(lia) Hl) as Hdim.
  pose proof (pow2_pos 1024 ltac:(lia)) as H0.
  unfold _coord2int, float_mul_int, assert.
  replace (2 ^ level >=? 1) with true by (symmetry; rewrite Z.geb_leb; apply Z.leb_le; lia).
  cbn [bind]. rewrite float_of_int_overflow by exact Hdim. reflexivity.
Qed.

Lemma encode_overflow_witness :
  encode zero_empty F64.f0 F64.f0 342 6 = Raise OverflowError.
Proof. apply (encode_overflow zero_empty F64.f0 F64.f0 342 6); [reflexivity .. | lia]. Defined.

(** ** The forward transform off the grid *)

(** X8: on a grid of [dim = 2 ^ level] cells a side, [_xy2hash] reads its
    coordinates modulo [dim].  For all integers [x] and [y], negative or
    beyond the grid, the index is that of the cell
    [(x mod dim, y mod dim)], lies in [[0, dim * dim)], and decodes to that
    cell. *)
Theorem xy2hash_modulo (level dim x y : Z) :
  0 <= level -> dim = 2 ^ level ->
  0 <= _xy2hash x y dim < dim * dim /\
  _xy2hash x y dim = _xy2hash (x mod dim) (y mod dim) dim /\
  _hash2xy (_xy2hash x y dim) dim = Ok (x mod dim, y mod dim).
Proof.
  intros Hl ->.
  rewrite <- (Z2Nat.id level Hl) in *. set (k := Z.to_nat level) in *.
  rewrite !xy2hash_pow2. pose proof (cell_to_index_range k x y) as Hr.
  pose proof (pow2_nat_pos k) as Hp.
  split; [exact Hr|]. split; [apply cell_to_index_mod|].
  rewrite hash2xy_pow2 by lia. rewrite (cell_to_index_mod k x y).
  pose proof (index_to_cell_cell_to_index k (x mod 2 ^ Z.of_nat k) (y mod 2 ^ Z.of_nat k) 0
                ltac:(apply Z.mod_pos_bound; lia) ltac:(apply Z.mod_pos_bound; lia)) as E.
  rewrite Z.mul_0_r, Z.add_0_l in E. rewrite E. reflexivity.
Qed.

Lemma xy2hash_modulo_witness :
  0 <= _xy2hash (-3) 9 8 < 8 * 8 /\
  _xy2hash (-3) 9 8 = _xy2hash ((-3) mod 8) (9 mod 8) 8 /\
  _hash2xy (_xy2hash (-3) 9 8) 8 = Ok ((-3) mod 8, 9 mod 8).
Proof. apply (xy2hash_modulo 3 8 (-3) 9); [lia | reflexivity]. Defined.

(** ** Binary64 arithmetic: results that need no rounding *)

Lemma shr_iter_exact (n : nat) :
  forall r : shr_record,
    0 <= shr_m r -> loc_of_shr_record r = loc_Exact ->
    shr_m r mod 2 ^ Z.of_nat n = 0 ->
    loc_of_shr_record (Nat.iter n shr_1 r) = loc_Exact.
Proof.
  induction n as [|n IH]; intros r Hm Hl Hd; [exact Hl|].
  rewrite Nat.iter_succ_r. rewrite pow2_succ_nat in Hd.
  pose proof (pow2_nat_pos n) as Hp.
  assert (Hm2 : shr_m r mod 2 = 0).
  { apply Z.mod_divide in Hd; [|lia]. apply Z.mod_divide; [lia|].
    destruct Hd as [c Hc]. exists (c * 2 ^ Z.of_nat n). lia. }
  apply IH.
  - rewrite shr_1_m by assumption. apply Z.div_pos; lia.
  - destruct r as [m [] []]; try discriminate Hl. cbn [shr_m] in *.
    destruct m as [|[p|p|]|p]; try reflexivity; try lia.
    + rewrite (Pos2Z.inj_xI p) in Hm2. Z.to_euclidean_division_equations; lia.
    + cbn in Hm2. discriminate.
  - rewrite shr_1_m by assumption.
    apply Z.mod_divide in Hd; [|lia]. apply Z.mod_divide; [lia|].
    destruct Hd as [c Hc]. exists c. rewrite Hc.
    replace (c * (2 * 2 ^ Z.of_nat n)) with (c * 2 ^ Z.of_nat n * 2) by ring.
    apply Z.div_mul. lia.
Qed.

Lemma shr_fexp_exact (m e : Z) :
  0 <= m ->
  let e' := snd (shr_fexp F64.prec F64.emax m e loc_Exact) in
  m mod 2 ^ (e' - e) = 0 ->
  loc_of_shr_record (fst (shr_fexp F64.prec F64.emax m e loc_Exact)) = loc_Exact.
Proof.
  intros Hm. unfold shr_fexp, shr.
  destruct (fexp F64.prec F64.emax (Zdigits2 m + e) - e) as [|p|p]; cbn [fst snd];
    try reflexivity.
  replace (e + Z.pos p - e) with (Z.pos p) by lia. intros Hd.
  rewrite iter_pos_nat. apply shr_iter_exact; cbn [shr_record_of_loc shr_m];
    [assumption | reflexivity |].
  rewrite positive_nat_Z. exact Hd.
Qed.

(** A multiple of a power of two, divided by a smaller power of two. *)
Lemma scaled_div (V a b : Z) :
  0 <= b <= a -> (V * 2 ^ a) / 2 ^ b = V * 2 ^ (a - b) /\ (V * 2 ^ a) mod 2 ^ b = 0.
Proof.
  intros H. pose proof (pow2_pos b ltac:(lia)) as Hp.
  replace (V * 2 ^ a) with (V * 2 ^ (a - b) * 2 ^ b)
    by (rewrite <- Z.mul_assoc, <- Z.pow_add_r by lia; do 2 f_equal; lia).
  split; [apply Z.div_mul; lia | apply Z.mod_mul; lia].
Qed.

Lemma scaled_digits (V k : Z) :
  0 <= V < 2 ^ 53 -> 0 <= k -> Zdigits2 (V * 2 ^ k) <= 53 + k.
Proof.
  intros HV Hk. pose proof (pow2_pos k Hk) as Hp.
  apply Zdigits2_le_of_lt; [|lia]. rewrite Z.pow_add_r by lia. split; nia.
Qed.

(** Rounding [m * 2 ^ e = V * 2 ^ E] with [V < 2 ^ 53] changes nothing. *)
Lemma binary_round_aux_scaled (s : bool) (m e V E : Z) :
  0 < V < 2 ^ 53 -> -1074 <= E <= 971 -> e <= E -> m = V * 2 ^ (E - e) ->
  F64.scaled (cond_Zopp s V) E (binary_round_aux F64.prec F64.emax s m e loc_Exact).
Proof.
  intros HV HE He ->. unfold binary_round_aux.
  pose proof (pow2_pos (E - e) ltac:(lia)) as Hp.
  assert (Hm : 0 <= V * 2 ^ (E - e)) by nia.
  pose proof (scaled_digits V (E - e) ltac:(lia) ltac:(lia)) as Hd.
  pose proof (shr_fexp_bound _ e loc_Exact Hm) as H1. cbv zeta in H1.
  pose proof (shr_fexp_m _ e loc_Exact Hm) as H1'. cbv zeta in H1'.
  pose proof (shr_fexp_exact _ e Hm) as H1''. cbv zeta in H1''.
  destruct (shr_fexp F64.prec F64.emax (V * 2 ^ (E - e)) e loc_Exact) as [mrs' e'].
  cbn [fst snd] in *. destruct H1 as (_ & _ & H1c). destruct H1' as [H1a H1b].
  assert (He' : e' <= E) by lia.
  destruct (scaled_div V (E - e) (e' - e) ltac:(lia)) as [Dq Dr].
  replace (E - e - (e' - e)) with (E - e') in Dq by lia.
  rewrite (H1'' Dr), H1b, Dq. cbn [round_nearest_even].
  pose proof (pow2_pos (E - e') ltac:(lia)) as Hp'.
  assert (Hm' : 0 <= V * 2 ^ (E - e')) by nia.
  pose proof (scaled_digits V (E - e') ltac:(lia) ltac:(lia)) as Hd'.
  pose proof (shr_fexp_bound _ e' loc_Exact Hm') as H2. cbv zeta in H2.
  pose proof (shr_fexp_m _ e' loc_Exact Hm') as H2'. cbv zeta in H2'.
  destruct (shr_fexp F64.prec F64.emax (V * 2 ^ (E - e')) e' loc_Exact) as [mrs'' e''].
  cbn [fst snd] in *. destruct H2 as (_ & _ & H2c). destruct H2' as [H2a H2b].
  assert (He'' : e'' <= E) by lia.
  destruct (scaled_div V (E - e') (e'' - e') ltac:(lia)) as [Dq' _].
  replace (E - e' - (e'' - e')) with (E - e'') in Dq' by lia.
  rewrite H2b, Dq'.
  pose proof (pow2_pos (E - e'') ltac:(lia)) as Hp''.
  assert (Hpos : 0 < V * 2 ^ (E - e'')) by (apply Z.mul_pos_pos; lia).
  destruct (V * 2 ^ (E - e'')) as [|p|p] eqn:Ep; try lia.
  replace (e'' <=? F64.emax - F64.prec) with true
    by (symmetry; apply Z.leb_le; unfold F64.emax, F64.prec; lia).
  cbn [F64.scaled]. split; [exact He''|].
  destruct s; cbn [cond_Zopp]; lia.
Qed.

Lemma binary_round_scaled (s : bool) (p : positive) (e V E : Z) :
  0 < V < 2 ^ 53 -> -1074 <= E <= 971 -> e <= E -> Z.pos p = V * 2 ^ (E - e) ->
  F64.scaled (cond_Zopp s V) E (binary_round F64.prec F64.emax s p e).
Proof.
  intros HV HE He Hp. unfold binary_round.
  pose proof (shl_align_spec p e (fexp F64.prec F64.emax (Z.pos (digits2_pos p) + e))) as H.
  cbv zeta in H.
  destruct (shl_align p e _) as [mz ez]. cbn [fst snd] in H. destruct H as [Hez Hmz].
  apply binary_round_aux_scaled; try assumption; try lia.
  rewrite Hmz, Hp, <- Z.mul_assoc, <- Z.pow_add_r by lia. do 2 f_equal. lia.
Qed.

Lemma binary_normalize_scaled (z e V E : Z) :
  Z.abs V < 2 ^ 53 -> -1074 <= E <= 971 -> e <= E -> z = V * 2 ^ (E - e) ->
  F64.scaled V E (binary_normalize F64.prec F64.emax z e false).
Proof.
  intros HV HE He Hz. pose proof (pow2_pos (E - e) ltac:(lia)) as Hp.
  destruct z as [|p|p]; cbn [binary_normalize].
  - cbn [F64.scaled]. nia.
  - replace V with (cond_Zopp false V) by reflexivity.
    apply binary_round_scaled; try assumption; try lia; nia.
  - replace V with (cond_Zopp true (- V)) by (cbn; lia).
    apply binary_round_scaled; try assumption; try lia; nia.
Qed.

Lemma scaled_finite (v E : Z) (s : bool) (m : positive) (e : Z) :
  F64.scaled v E (S754_finite s m e) ->
  e <= E /\ Z.pos m = Z.abs v * 2 ^ (E - e) /\ v <> 0 /\ cond_Zopp s (Z.abs v) = v.
Proof.
  intros [He Hm]. pose proof (pow2_pos (E - e) ltac:(lia)) as Hp.
  destruct s; cbn [cond_Zopp] in *; repeat split; try nia.
Qed.

Lemma mul_scaled (v1 E1 v2 E2 : Z) (x y : float) :
  F64.scaled v1 E1 x -> F64.scaled v2 E2 y ->
  Z.abs (v1 * v2) < 2 ^ 53 -> -1074 <= E1 + E2 <= 971 ->
  F64.scaled (v1 * v2) (E1 + E2) (F64.mul x y).
Proof.
  intros Hx Hy Hv HE.
  destruct x as [sx|sx| |sx mx ex]; try contradiction;
    destruct y as [sy|sy| |sy my ey]; try contradiction;
    cbn [F64.mul SFmul F64.scaled] in *; try (subst; lia).
  apply scaled_finite in Hx as (Hex & Hmx & Hx0 & Hsx).
  apply scaled_finite in Hy as (Hey & Hmy & Hy0 & Hsy).
  replace (v1 * v2) with (cond_Zopp (xorb sx sy) (Z.abs (v1 * v2)))
    by (rewrite Z.abs_mul; destruct sx, sy; cbn [cond_Zopp xorb] in *; nia).
  apply binary_round_aux_scaled; try lia.
  rewrite Pos2Z.inj_mul, Hmx, Hmy, Z.abs_mul.
  replace (E1 + E2 - (ex + ey)) with ((E1 - ex) + (E2 - ey)) by lia.
  rewrite Z.pow_add_r by lia. ring.
Qed.

Lemma aligned_scaled (v E : Z) (s : bool) (m : positive) (e ez : Z) :
  e <= E -> cond_Zopp s (Z.pos m) = v * 2 ^ (E - e) -> ez <= e ->
  cond_Zopp s (Z.pos (fst (shl_align m e ez))) = v * 2 ^ (E - ez).
Proof.
  intros He Hm Hez.
  pose proof (shl_align_spec m e ez) as [Hs Hf]. rewrite Hs in Hf.
  rewrite Z.min_r in Hf by lia.
  replace (E - ez) with ((E - e) + (e - ez)) by lia.
  rewrite Z.pow_add_r, Z.mul_assoc, <- Hm, Hf by lia.
  destruct s; cbn [cond_Zopp]; lia.
Qed.

Lemma add_scaled (v1 v2 E : Z) (x y : float) :
  F64.scaled v1 E x -> F64.scaled v2 E y ->
  Z.abs (v1 + v2) < 2 ^ 53 -> -1074 <= E <= 971 ->
  F64.scaled (v1 + v2) E (F64.add x y).
Proof.
  intros Hx Hy Hv HE.
  destruct x as [sx|sx| |sx mx ex]; try contradiction;
    destruct y as [sy|sy| |sy my ey]; try contradiction;
    cbn [F64.add SFadd F64.scaled] in *.
  - destruct sx, sy; cbn [F64.scaled]; lia.
  - subst v1. exact Hy.
  - subst v2. rewrite Z.add_0_r. exact Hx.
  - destruct Hx as [Hex Hmx], Hy as [Hey Hmy].
    apply binary_normalize_scaled; try lia.
    rewrite (aligned_scaled v1 E sx mx ex) by lia.
    rewrite (aligned_scaled v2 E sy my ey) by lia. ring.
Qed.

Lemma sub_scaled (v1 v2 E : Z) (x y : float) :
  F64.scaled v1 E x -> F64.scaled v2 E y ->
  Z.abs (v1 - v2) < 2 ^ 53 -> -1074 <= E <= 971 ->
  F64.scaled (v1 - v2) E (F64.sub x y).
Proof.
  intros Hx Hy Hv HE.
  destruct x as [sx|sx| |sx mx ex]; try contradiction;
    destruct y as [sy|sy| |sy my ey]; try contradiction;
    cbn [F64.sub SFsub F64.scaled] in *.
  - destruct sx, sy; cbn [F64.scaled]; lia.
  - subst v1. destruct Hy as [Hey Hmy]. split; [exact Hey|].
    destruct sy; cbn [cond_Zopp negb] in *; lia.
  - subst v2. rewrite Z.sub_0_r. exact Hx.
  - destruct Hx as [Hex Hmx], Hy as [Hey Hmy].
    apply binary_normalize_scaled; try lia.
    rewrite (aligned_scaled v1 E sx mx ex) by lia.
    rewrite (aligned_scaled v2 E sy my ey) by lia. ring.
Qed.

Lemma scaled_shift (v k E : Z) (f : float) :
  0 <= k -> F64.scaled (v * 2 ^ k) E f -> F64.scaled v (E + k) f.
Proof.
  intros Hk. pose proof (pow2_pos k Hk) as Hp.
  destruct f as [s|s| |s m e]; cbn [F64.scaled]; try tauto; [nia|].
  intros [He Hm]. split; [lia|].
  rewrite Hm, <- Z.mul_assoc, <- Z.pow_add_r by lia. do 2 f_equal. lia.
Qed.

Lemma shifted_mantissa (m s : Z) :
  0 <= s ->
  match s with
  | 0 => m
  | Z.pos _ => Z.shiftl m s
  | Z.neg _ => 0
  end = m * 2 ^ s.
Proof.
  intros Hs. destruct s as [|p|p].
  - rewrite Z.pow_0_r. lia.
  - apply Z.shiftl_mul_pow2. lia.
  - lia.
Qed.

(** A quotient that is a float: [w * d * 2 ^ E1 / (d * 2 ^ Ed)] *)
Lemma div_scaled (v1 E1 d Ed w : Z) (x y : float) :
  F64.scaled v1 E1 x -> F64.scaled d Ed y -> 0 < d -> v1 = w * d ->
  Z.abs w < 2 ^ 53 -> -1074 <= E1 - Ed <= 971 ->
  F64.scaled w (E1 - Ed) (F64.div x y).
Proof.
  intros Hx Hy Hd Hv Hw HE.
  destruct y as [sy|sy| |sy my ey]; try contradiction; [cbn [F64.scaled] in Hy; lia|].
  destruct x as [sx|sx| |sx mx ex]; try contradiction;
    cbn [F64.div SFdiv].
  { cbn [F64.scaled] in *. nia. }
  apply scaled_finite in Hx as (Hex & Hmx & Hx0 & Hsx).
  apply scaled_finite in Hy as (Hey & Hmy & Hy0 & Hsy).
  rewrite (Z.abs_eq d) in * by lia.
  assert (sy = false) by (destruct sy; cbn [cond_Zopp] in Hsy; [lia | reflexivity]).
  subst sy. rewrite xorb_false_r.
  assert (Hw0 : w <> 0) by nia.
  assert (Hav : Z.abs v1 = Z.abs w * d) by (subst v1; rewrite Z.abs_mul; lia).
  assert (Hsw : cond_Zopp sx (Z.abs w) = w).
  { destruct sx; cbn [cond_Zopp] in *; nia. }
  set (F := E1 - Ed) in *.
  unfold SFdiv_core_binary. cbn [Zdigits2]. rewrite fexp64.
  set (d1 := Z.pos (digits2_pos mx)). set (d2 := Z.pos (digits2_pos my)).
  set (e' := Z.min (Z.max (d1 + ex - (d2 + ey) - 53) (-1074)) (ex - ey)).
  pose proof (pow2_pos (E1 - ex) ltac:(lia)) as P1.
  pose proof (pow2_pos (Ed - ey) ltac:(lia)) as P2.
  assert (He' : e' <= F).
  { assert (d1 + ex - (d2 + ey) - 53 <= F); [|subst e'; lia].
    pose proof (digits2_pos_spec mx) as [L1 _]. pose proof (digits2_pos_spec my) as [_ U2].
    fold d1 in L1. fold d2 in U2.
    assert (Hlt : 2 ^ (d1 - 1 + (Ed - ey)) < 2 ^ (53 + d2 + (E1 - ex))).
    { rewrite !Z.pow_add_r by (subst d1 d2; lia).
      pose proof (pow2_pos d2 ltac:(subst d2; lia)).
      assert (Z.pos mx * 2 ^ (Ed - ey) = Z.abs w * Z.pos my * 2 ^ (E1 - ex))
        by (rewrite Hmx, Hmy, Hav; ring).
      assert (Z.abs w * Z.pos my * 2 ^ (E1 - ex) < 2 ^ 53 * 2 ^ d2 * 2 ^ (E1 - ex)).
      { apply Z.mul_lt_mono_pos_r; [lia|]. apply Z.mul_lt_mono_nonneg; lia. }
      assert (2 ^ (d1 - 1) * 2 ^ (Ed - ey) <= Z.pos mx * 2 ^ (Ed - ey))
        by (apply Z.mul_le_mono_nonneg_r; lia).
      lia. }
    apply Z.pow_lt_mono_r_iff in Hlt; subst d1 d2; lia. }
  assert (Hs : 0 <= ex - ey - e') by (subst e'; lia).
  rewrite (shifted_mantissa (Z.pos mx) (ex - ey - e') Hs).
  pose proof (pow2_pos (F - e') ltac:(lia)) as P3.
  assert (Em : Z.pos mx * 2 ^ (ex - ey - e') = Z.abs w * 2 ^ (F - e') * Z.pos my).
  { rewrite Hmx, Hmy, Hav.
    transitivity (Z.abs w * d * (2 ^ (E1 - ex) * 2 ^ (ex - ey - e'))); [ring|].
    transitivity (Z.abs w * d * (2 ^ (F - e') * 2 ^ (Ed - ey))); [|ring].
    rewrite <- !Z.pow_add_r by lia. do 2 f_equal. subst F. lia. }
  destruct (Z.div_eucl (Z.pos mx * 2 ^ (ex - ey - e')) (Z.pos my)) as [q r] eqn:Ediv.
  assert (Hq : q = Z.pos mx * 2 ^ (ex - ey - e') / Z.pos my)
    by (unfold Z.div; rewrite Ediv; reflexivity).
  assert (Hr : r = (Z.pos mx * 2 ^ (ex - ey - e')) mod Z.pos my)
    by (unfold Z.modulo; rewrite Ediv; reflexivity).
  rewrite Em, Z.div_mul in Hq by lia. rewrite Em, Z.mod_mul in Hr by lia.
  subst q r. rewrite new_location_exact.
  rewrite <- Hsw. apply binary_round_aux_scaled; try lia.
Qed.

Lemma floor_scaled_ok (v E : Z) (f : float) :
  F64.scaled v E f -> E <= 0 -> floor f = Ok (v / 2 ^ (- E)).
Proof.
  intros Hf HE. destruct f as [s|s| |s m e]; try contradiction; cbn [floor F64.scaled] in *.
  - subst v. rewrite Z.div_0_l; [reflexivity|]. pose proof (pow2_pos (- E)); lia.
  - destruct Hf as [He Hm]. unfold F64.floor_scaled.
    rewrite Hm, Z.shiftl_div_pow2 by lia.
    replace (- e) with ((- E) + (E - e)) by lia.
    rewrite Z.pow_add_r by lia. rewrite Z.div_mul_cancel_r; [reflexivity| |];
      apply Z.neq_sym, Z.lt_neq, pow2_pos; lia.
Qed.

Lemma float_of_int_scaled (n : Z) :
  Z.abs n < 2 ^ 53 -> exists f, float_of_int n = Ok f /\ F64.scaled n 0 f.
Proof.
  intros Hn. unfold float_of_int, F64.of_Z.
  pose proof (binary_normalize_scaled n 0 n 0 Hn ltac:(lia) ltac:(lia)
                ltac:(change (2 ^ (0 - 0)) with 1; lia)) as H.
  destruct (binary_normalize F64.prec F64.emax n 0 false) as [s|s| |s m e];
    try contradiction; eexists; split; try reflexivity; exact H.
Qed.

Lemma int_truediv_scaled (a level : Z) :
  Z.abs a < 2 ^ 53 -> 0 <= level <= 1074 ->
  exists f, int_truediv a (2 ^ level) = Ok f /\ F64.scaled a (- level) f.
Proof.
  intros Ha Hl. pose proof (pow2_pos level ltac:(lia)) as Hp.
  unfold int_truediv. destruct (2 ^ level) as [|p|p] eqn:Ep; try lia.
  destruct (Z.eq_dec a 0) as [->|Ha0].
  { eexists; split; [reflexivity|]. reflexivity. }
  assert (Hdiv : F64.scaled a (0 - level)
                   (F64.div (S754_finite (a <? 0) (Z.to_pos (Z.abs a)) 0)
                            (S754_finite false p 0))).
  { apply (div_scaled a 0 1 level a); try lia.
    - cbn [F64.scaled]. split; [lia|]. change (2 ^ (0 - 0)) with 1.
      rewrite Z2Pos.id by lia. destruct (Z.ltb_spec a 0); cbn [cond_Zopp]; lia.
    - cbn [F64.scaled cond_Zopp]. split; [lia|]. rewrite Z.sub_0_r. lia. }
  change (Z.to_pos (Z.abs (Z.pos p))) with p. change (Z.pos p <? 0) with false.
  destruct a as [|a|a]; try lia;
    destruct (F64.div _ _) as [s|s| |s m e]; try contradiction;
    eexists; (split; [reflexivity|]); exact Hdiv.
Qed.

(** ** Cells and coordinates up to level 43 *)

Lemma pow2_le_43 (level : Z) : 0 <= level <= 43 -> 1 <= 2 ^ level <= 8796093022208.
Proof.
  intros H. pose proof (pow2_pos level ltac:(lia)).
  pose proof (Z.pow_le_mono_r 2 level 43 ltac:(lia) ltac:(lia)) as Hle.
  change (2 ^ 43) with 8796093022208 in Hle. lia.
Qed.

(** The literals, counted in units of [2 ^ (- level)]. *)
Lemma const_scaled (c level : Z) (k : Z) :
  0 <= level <= 43 -> -46 <= k <= -44 ->
  c * 2 ^ (- k) = 6333186975989760 ->
  F64.scaled (c * 2 ^ level) (- level) (S754_finite false 6333186975989760 k).
Proof.
  intros Hl Hk Hc. cbn [F64.scaled cond_Zopp]. split; [lia|].
  rewrite <- Z.mul_assoc, <- Z.pow_add_r by lia.
  replace (level + (- level - k)) with (- k) by lia. symmetry. exact Hc.
Qed.

Lemma f360_scaled : F64.scaled 360 0 F64.f360 /\ F64.scaled 180 1 F64.f360.
Proof. split; (split; [lia | reflexivity]). Qed.

Lemma f180_scaled : F64.scaled 180 0 F64.f180 /\ F64.scaled 90 1 F64.f180.
Proof. split; (split; [lia | reflexivity]). Qed.

Lemma f90_scaled : F64.scaled 90 0 F64.f90.
Proof. split; [lia | reflexivity]. Qed.

Lemma int2coord_scaled (level x y : Z) :
  0 <= level <= 43 ->
  - 2 ^ level <= x < 2 ^ level -> - 2 ^ level <= y < 2 ^ level ->
  exists lng lat,
    _int2coord x y (2 ^ level) = Ok (lng, lat) /\
    F64.scaled (360 * x - 180 * 2 ^ level) (- level) lng /\
    F64.scaled (180 * y - 90 * 2 ^ level) (- level) lat.
Proof.
  intros Hl Hx Hy. pose proof (pow2_le_43 level Hl) as Hd. pose proof pow2_53 as H53.
  destruct (int_truediv_scaled x level ltac:(lia) ltac:(lia)) as (qx & Ex & Sx).
  destruct (int_truediv_scaled y level ltac:(lia) ltac:(lia)) as (qy & Ey & Sy).
  destruct float_of_int_consts as (E360 & E180 & E90).
  exists (F64.sub (F64.mul qx F64.f360) F64.f180), (F64.sub (F64.mul qy F64.f180) F64.f90).
  split; [|split].
  - unfold _int2coord, float_mul_int, float_sub_int, assert.
    replace (2 ^ level >=? 1) with true by (symmetry; rewrite Z.geb_leb; apply Z.leb_le; lia).
    replace (x <? 2 ^ level) with true by (symmetry; apply Z.ltb_lt; lia).
    replace (y <? 2 ^ level) with true by (symmetry; apply Z.ltb_lt; lia).
    cbn [bind]. rewrite Ex, Ey, E360, E180, E90. reflexivity.
  - replace (360 * x - 180 * 2 ^ level) with (x * 360 - 180 * 2 ^ level) by ring.
    apply sub_scaled; try lia.
    + replace (- level) with (- level + 0) by lia.
      apply mul_scaled; [exact Sx | apply f360_scaled | lia | lia].
    + apply (const_scaled 180 level (-45)); [lia | lia | reflexivity].
  - replace (180 * y - 90 * 2 ^ level) with (y * 180 - 90 * 2 ^ level) by ring.
    apply sub_scaled; try lia.
    + replace (- level) with (- level + 0) by lia.
      apply mul_scaled; [exact Sy | apply f180_scaled | lia | lia].
    + apply (const_scaled 90 level (-46)); [lia | lia | reflexivity].
Qed.

Lemma dim_error_scaled (level : Z) :
  0 <= level <= 43 ->
  exists lng_err lat_err,
    _dim_error level = Ok (lng_err, lat_err) /\
    F64.scaled 180 (- level) lng_err /\ F64.scaled 90 (- level) lat_err.
Proof.
  intros Hl. pose proof pow2_53 as H53.
  destruct (dim_error_ok level ltac:(lia)) as (u & Eu & Eerr).
  destruct (int_truediv_scaled 1 level ltac:(lia) ltac:(lia)) as (u' & Eu' & Su).
  rewrite Eu in Eu'. injection Eu' as <-.
  exists (F64.mul F64.f180 u), (F64.mul F64.f90 u). split; [exact Eerr|].
  split.
  - replace 180 with (180 * 1) by lia. replace (- level) with (0 + - level) by lia.
    apply mul_scaled; [apply f180_scaled | exact Su | lia | lia].
  - replace 90 with (90 * 1) by lia. replace (- level) with (0 + - level) by lia.
    apply mul_scaled; [apply f90_scaled | exact Su | lia | lia].
Qed.

(** One axis of the quantizer on a coordinate that is [w * c / 2 ^ (level + j)]
    above the lower bound [- c] of its interval, the interval being [2 c]
    wide, for [j = 0] or [j = 1]: the result is [floor (w / 2 ^ j)]. *)
Lemma quantize_axis_scaled (level c w j : Z) (v cf c2f dimf : float) :
  0 <= level <= 43 -> 0 <= j <= 1 -> 0 < c <= 180 ->
  0 <= w <= 2 * 2 ^ level ->
  F64.scaled (w * c * 2 ^ (1 - j) - c * 2 ^ level) (- level) v ->
  F64.scaled (c * 2 ^ level) (- level) cf ->
  F64.scaled (c * 2 ^ (1 - j)) j c2f ->
  F64.scaled (2 ^ level) 0 dimf ->
  floor (F64.mul (F64.div (F64.add v cf) c2f) dimf) = Ok (w / 2 ^ j).
Proof.
  intros Hl Hj Hc Hw Sv Sc Sc2 Sd.
  pose proof (pow2_le_43 level Hl) as Hd. pose proof pow2_53 as H53.
  assert (Hp : 1 <= 2 ^ (1 - j) <= 2).
  { assert (j = 0 \/ j = 1) as [-> | ->] by lia; cbn; lia. }
  assert (Sa : F64.scaled (w * (c * 2 ^ (1 - j))) (- level) (F64.add v cf)).
  { replace (w * (c * 2 ^ (1 - j)))
      with ((w * c * 2 ^ (1 - j) - c * 2 ^ level) + c * 2 ^ level) by ring.
    apply add_scaled; try assumption; try lia.
    replace (w * c * 2 ^ (1 - j) - c * 2 ^ level + c * 2 ^ level)
      with (w * (c * 2 ^ (1 - j))) by ring.
    assert (Hcp : 0 <= c * 2 ^ (1 - j) <= 360) by nia.
    assert (0 <= w * (c * 2 ^ (1 - j)) <= 17592186044416 * 360)
      by (split; [nia | apply Z.mul_le_mono_nonneg; lia]).
    lia. }
  assert (Sq : F64.scaled w (- level - j) (F64.div (F64.add v cf) c2f)).
  { apply (div_scaled _ _ (c * 2 ^ (1 - j)) j w _ _ Sa Sc2); lia. }
  assert (Sm : F64.scaled w (- j) (F64.mul (F64.div (F64.add v cf) c2f) dimf)).
  { replace w with (w * 1) by lia. replace (- j) with ((- level - j) + level) by lia.
    apply mul_scaled; try lia.
    - replace (w * 1) with w by lia. exact Sq.
    - apply (scaled_shift 1 level 0); [lia|]. rewrite Z.mul_1_l. exact Sd. }
  rewrite (floor_scaled_ok w (- j) _ Sm) by lia.
  rewrite Z.opp_involutive. reflexivity.
Qed.

Lemma coord2int_eq (lng lat dimf : float) (dim : Z) :
  1 <= dim -> float_of_int dim = Ok dimf ->
  _coord2int lng lat dim =
  (x <- floor (F64.mul (F64.div (F64.add lng F64.f180) F64.f360) dimf) ;;
   y <- floor (F64.mul (F64.div (F64.add lat F64.f90) F64.f180) dimf) ;;
   Ok (x, y)).
Proof.
  intros Hd E. unfold _coord2int, float_mul_int, assert.
  replace (dim >=? 1) with true by (symmetry; rewrite Z.geb_leb; apply Z.leb_le; lia).
  cbn [bind]. rewrite E. reflexivity.
Qed.

(** X11: up to level 43, [_coord2int] inverts [_int2coord]: the lower-left
    corner that [_int2coord] returns for a cell [(x, y)] of the grid of
    [dim = 2 ^ level] cells a side is quantized back to [(x, y)]. *)
Theorem coord2int_int2coord (level x y : Z) :
  0 <= level <= 43 -> 0 <= x < 2 ^ level -> 0 <= y < 2 ^ level ->
  exists lng lat,
    _int2coord x y (2 ^ level) = Ok (lng, lat) /\
    _coord2int lng lat (2 ^ level) = Ok (x, y).
Proof.
  intros Hl Hx Hy. pose proof (pow2_le_43 level Hl) as Hd. pose proof pow2_53 as H53.
  destruct (int2coord_scaled level x y Hl ltac:(lia) ltac:(lia)) as (lng & lat & E & Sx & Sy).
  destruct (float_of_int_scaled (2 ^ level) ltac:(lia)) as (dimf & Ed & Sd).
  exists lng, lat. split; [exact E|].
  rewrite (coord2int_eq lng lat dimf) by (assumption || lia).
  rewrite (quantize_axis_scaled level 180 x 0 lng F64.f180 F64.f360 dimf); try lia.
  - rewrite (quantize_axis_scaled level 90 y 0 lat F64.f90 F64.f180 dimf); try lia.
    + cbn [bind]. rewrite !Z.div_1_r. reflexivity.
    + change (2 ^ (1 - 0)) with 2.
      replace (y * 90 * 2 - 90 * 2 ^ level) with (180 * y - 90 * 2 ^ level) by ring.
      exact Sy.
    + apply (const_scaled 90 level (-46)); [lia | lia | reflexivity].
    + apply f180_scaled.
    + exact Sd.
  - change (2 ^ (1 - 0)) with 2.
    replace (x * 180 * 2 - 180 * 2 ^ level) with (360 * x - 180 * 2 ^ level) by ring.
    exact Sx.
  - apply (const_scaled 180 level (-45)); [lia | lia | reflexivity].
  - apply f360_scaled.
  - exact Sd.
Qed.

Lemma coord2int_int2coord_witness :
  exists lng lat,
    _int2coord 5 1000 (2 ^ 30) = Ok (lng, lat) /\
    _coord2int lng lat (2 ^ 30) = Ok (5, 1000).
Proof. apply (coord2int_int2coord 30 5 1000); lia. Defined.

(** X12: up to level 43, the position that [decode_exactly] reports for a
    cell, the corner of [_int2coord] plus the error margins of [_dim_error],
    is quantized by [_coord2int] to the same cell. *)
Theorem cell_centre_quantizes (level x y : Z) :
  0 <= level <= 43 -> 0 <= x < 2 ^ level -> 0 <= y < 2 ^ level ->
  exists lng lat lng_err lat_err,
    _int2coord x y (2 ^ level) = Ok (lng, lat) /\
    _dim_error level = Ok (lng_err, lat_err) /\
    _coord2int (F64.add lng lng_err) (F64.add lat lat_err) (2 ^ level) = Ok (x, y).
Proof.
  intros Hl Hx Hy. pose proof (pow2_le_43 level Hl) as Hd. pose proof pow2_53 as H53.
  destruct (int2coord_scaled level x y Hl ltac:(lia) ltac:(lia)) as (lng & lat & E & Sx & Sy).
  destruct (dim_error_scaled level Hl) as (lng_err & lat_err & Ee & Sex & Sey).
  destruct (float_of_int_scaled (2 ^ level) ltac:(lia)) as (dimf & Ed & Sd).
  exists lng, lat, lng_err, lat_err. split; [exact E|]. split; [exact Ee|].
  pose proof (add_scaled _ _ _ _ _ Sx Sex ltac:(lia) ltac:(lia)) as Cx.
  pose proof (add_scaled _ _ _ _ _ Sy Sey ltac:(lia) ltac:(lia)) as Cy.
  rewrite (coord2int_eq _ _ dimf) by (assumption || lia).
  rewrite (quantize_axis_scaled level 180 (2 * x + 1) 1 _ F64.f180 F64.f360 dimf); try lia.
  - rewrite (quantize_axis_scaled level 90 (2 * y + 1) 1 _ F64.f90 F64.f180 dimf); try lia.
    + cbn [bind]. change (2 ^ 1) with 2.
      replace ((2 * x + 1) / 2) with x by (Z.to_euclidean_division_equations; lia).
      replace ((2 * y + 1) / 2) with y by (Z.to_euclidean_division_equations; lia).
      reflexivity.
    + change (2 ^ (1 - 1)) with 1.
      replace ((2 * y + 1) * 90 * 1 - 90 * 2 ^ level)
        with (180 * y - 90 * 2 ^ level + 90) by ring.
      exact Cy.
    + apply (const_scaled 90 level (-46)); [lia | lia | reflexivity].
    + apply f180_scaled.
    + exact Sd.
  - change (2 ^ (1 - 1)) with 1.
    replace ((2 * x + 1) * 180 * 1 - 180 * 2 ^ level)
      with (360 * x - 180 * 2 ^ level + 180) by ring.
    exact Cx.
  - apply (const_scaled 180 level (-45)); [lia | lia | reflexivity].
  - apply f360_scaled.
  - exact Sd.
Qed.

Lemma cell_centre_quantizes_witness :
  exists lng lat lng_err lat_err,
    _int2coord 5 1000 (2 ^ 30) = Ok (lng, lat) /\
    _dim_error 30 = Ok (lng_err, lat_err) /\
    _coord2int (F64.add lng lng_err) (F64.add lat lat_err) (2 ^ 30) = Ok (5, 1000).
Proof. apply (cell_centre_quantizes 30 5 1000); lia. Defined.

Lemma scaled_exactlyb (v level : Z) (f : float) :
  0 <= level -> F64.scaled v (- level) f ->
  F64.exactlyb f (inject_Z v * (1 / inject_Z (2 ^ level)))%Q = true.
Proof.
  intros Hl Hf. unfold F64.exactlyb.
  destruct f as [s|s| |s m e]; try contradiction; cbn [F64.to_Q F64.scaled] in *;
    apply Qeq_bool_iff.
  - subst v. ring.
  - destruct Hf as [He Hm].
    apply (scaled_exact _ e v level (- level - e)); try lia.
    replace (e + level + (- level - e)) with 0 by lia.
    rewrite Hm. change (2 ^ 0) with 1. ring.
Qed.

Lemma exactlyb_eq (f : float) (q q' : Q) :
  (q == q')%Q -> F64.exactlyb f q = true -> F64.exactlyb f q' = true.
Proof.
  intros Hq. unfold F64.exactlyb. destruct (F64.to_Q f) as [v|]; [|discriminate].
  intros H. apply Qeq_bool_iff in H. apply Qeq_bool_iff. rewrite H. exact Hq.
Qed.

Lemma inject_pow2_nonzero (level : Z) : 0 <= level -> ~ (inject_Z (2 ^ level) == 0)%Q.
Proof. intros Hl. rewrite two_pow_Q by assumption. apply Qpow2_nonzero. Qed.

(** X10: up to level 43, [_int2coord] rounds nothing.  For
    [dim = 2 ^ level] and [x], [y] in [[- dim, dim)], it returns exactly the
    rational numbers [x / dim * 360 - 180] and [y / dim * 180 - 90].  Its
    assertions bound [x] and [y] from above only: a negative [x] is accepted
    and gives a longitude below -180. *)
Theorem int2coord_exact (level x y : Z) :
  0 <= level <= 43 ->
  - 2 ^ level <= x < 2 ^ level -> - 2 ^ level <= y < 2 ^ level ->
  exists lng lat,
    _int2coord x y (2 ^ level) = Ok (lng, lat) /\
    F64.exactlyb lng (inject_Z x / inject_Z (2 ^ level) * 360 - 180)%Q = true /\
    F64.exactlyb lat (inject_Z y / inject_Z (2 ^ level) * 180 - 90)%Q = true.
Proof.
  intros Hl Hx Hy.
  destruct (int2coord_scaled level x y Hl Hx Hy) as (lng & lat & E & Sx & Sy).
  exists lng, lat. split; [exact E|].
  pose proof (inject_pow2_nonzero level ltac:(lia)) as N.
  split.
  - eapply exactlyb_eq; [|exact (scaled_exactlyb _ level lng ltac:(lia) Sx)].
    unfold Z.sub. rewrite inject_Z_plus, inject_Z_opp, !inject_Z_mult.
    change (inject_Z 360) with 360%Q. change (inject_Z 180) with 180%Q.
    field. exact N.
  - eapply exactlyb_eq; [|exact (scaled_exactlyb _ level lat ltac:(lia) Sy)].
    unfold Z.sub. rewrite inject_Z_plus, inject_Z_opp, !inject_Z_mult.
    change (inject_Z 180) with 180%Q. change (inject_Z 90) with 90%Q.
    field. exact N.
Qed.

Lemma int2coord_exact_witness :
  exists lng lat,
    _int2coord (-3) 1000 (2 ^ 30) = Ok (lng, lat) /\
    F64.exactlyb lng (inject_Z (-3) / inject_Z (2 ^ 30) * 360 - 180)%Q = true /\
    F64.exactlyb lat (inject_Z 1000 / inject_Z (2 ^ 30) * 180 - 90)%Q = true.
Proof. apply (int2coord_exact 30 (-3) 1000); lia. Defined.

Lemma hash2xy_ok_in_grid (level h x y : Z) :
  0 <= level -> _hash2xy h (2 ^ level) = Ok (x, y) ->
  0 <= x < 2 ^ level /\ 0 <= y < 2 ^ level.
Proof.
  intros Hl E. rewrite <- (Z2Nat.id level Hl) in *. set (k := Z.to_nat level) in *.
  destruct (Z_le_gt_dec h (2 ^ Z.of_nat k * 2 ^ Z.of_nat k - 1)) as [Hle|Hgt].
  - rewrite hash2xy_pow2 in E by exact Hle. injection E as E.
    pose proof (index_to_cell_range k h) as Hr. rewrite E in Hr. exact Hr.
  - rewrite hash2xy_asserts in E by lia. discriminate E.
Qed.

(** X13: up to level 43, [decode_exactly] rounds nothing.  When the index
    of the code decodes to the cell [(x, y)], the result is exactly
    [((x + 1/2) / dim * 360 - 180, (y + 1/2) / dim * 180 - 90, 180 / dim,
    90 / dim)], the centre of the cell and half its width and height, and
    [decode] returns the centre. *)
Theorem decode_exactly_centre (c : code) (bits_per_char x y : Z) :
  bits_per_char_ok bits_per_char = true ->
  let level := (Z.of_nat (length c) * bits_per_char) / 2 in
  let dim := 2 ^ level in
  level <= 43 ->
  _hash2xy (decode_int c bits_per_char) dim = Ok (x, y) ->
  exists lng lat lng_err lat_err,
    decode_exactly c bits_per_char = Ok (lng, lat, lng_err, lat_err) /\
    decode c bits_per_char = Ok (lng, lat) /\
    F64.exactlyb lng ((inject_Z x + 1 / 2) / inject_Z dim * 360 - 180)%Q = true /\
    F64.exactlyb lat ((inject_Z y + 1 / 2) / inject_Z dim * 180 - 90)%Q = true /\
    F64.exactlyb lng_err (180 / inject_Z dim)%Q = true /\
    F64.exactlyb lat_err (90 / inject_Z dim)%Q = true.
Proof.
  intros Hb level dim Hmax Ehash.
  assert (Hl : 0 <= level <= 43).
  { split; [|exact Hmax]. subst level.
    destruct (bits_per_char_cases _ Hb) as [-> | [-> | ->]];
      Z.to_euclidean_division_equations; lia. }
  destruct (hash2xy_ok_in_grid level _ x y ltac:(lia) Ehash) as [Hx Hy].
  pose proof (pow2_le_43 level Hl) as Hd. pose proof pow2_53 as H53.
  destruct (int2coord_scaled level x y Hl ltac:(lia) ltac:(lia)) as (lng & lat & E & Sx & Sy).
  destruct (dim_error_scaled level Hl) as (lng_err & lat_err & Ee & Sex & Sey).
  pose proof (add_scaled _ _ _ _ _ Sx Sex ltac:(lia) ltac:(lia)) as Cx.
  pose proof (add_scaled _ _ _ _ _ Sy Sey ltac:(lia) ltac:(lia)) as Cy.
  exists (F64.add lng lng_err), (F64.add lat lat_err), lng_err, lat_err.
  assert (Edec : decode_exactly c bits_per_char =
                 Ok (F64.add lng lng_err, F64.add lat lat_err, lng_err, lat_err)).
  { unfold decode_exactly. rewrite Hb. cbn [assert bind].
    rewrite Z.shiftr_div_pow2 by lia. change (2 ^ 1) with 2. fold level.
    rewrite Z.shiftl_1_l. fold dim. rewrite Ehash. cbn [bind].
    fold dim in E. rewrite E. cbn [bind]. rewrite Ee. reflexivity. }
  split; [exact Edec|].
  split; [unfold decode; rewrite Hb, Edec; reflexivity|].
  pose proof (inject_pow2_nonzero level ltac:(lia)) as N. fold dim in N.
  repeat split.
  - eapply exactlyb_eq; [|exact (scaled_exactlyb _ level _ ltac:(lia) Cx)].
    fold dim. unfold Z.sub. rewrite !inject_Z_plus, inject_Z_opp, !inject_Z_mult.
    change (inject_Z 360) with 360%Q. change (inject_Z 180) with 180%Q.
    field. exact N.
  - eapply exactlyb_eq; [|exact (scaled_exactlyb _ level _ ltac:(lia) Cy)].
    fold dim. unfold Z.sub. rewrite !inject_Z_plus, inject_Z_opp, !inject_Z_mult.
    change (inject_Z 180) with 180%Q. change (inject_Z 90) with 90%Q.
    field. exact N.
  - eapply exactlyb_eq; [|exact (scaled_exactlyb _ level _ ltac:(lia) Sex)].
    fold dim. change (inject_Z 180) with 180%Q. field. exact N.
  - eapply exactlyb_eq; [|exact (scaled_exactlyb _ level _ ltac:(lia) Sey)].
    fold dim. change (inject_Z 90) with 90%Q. field. exact N.
Qed.

Lemma decode_exactly_centre_witness :
  exists lng lat lng_err lat_err,
    decode_exactly [3; 1; 2] 2 = Ok (lng, lat, lng_err, lat_err) /\
    decode [3; 1; 2] 2 = Ok (lng, lat) /\
    F64.exactlyb lng ((inject_Z 4 + 1 / 2) / inject_Z (2 ^ 3) * 360 - 180)%Q = true /\
    F64.exactlyb lat ((inject_Z 2 + 1 / 2) / inject_Z (2 ^ 3) * 180 - 90)%Q = true /\
    F64.exactlyb lng_err (180 / inject_Z (2 ^ 3))%Q = true /\
    F64.exactlyb lat_err (90 / inject_Z (2 ^ 3))%Q = true.
Proof.
  apply (decode_exactly_centre [3; 1; 2] 2 4 2); [reflexivity | cbn; lia | reflexivity].
Defined.

(** ** The quantizer on the closed intervals *)

(** One axis of the quantizer, bounds included: [v] is the coordinate,
    [c = 6333186975989760 * 2 ^ k] is [180.0] or [90.0], and
    [dim = 2 ^ level]. *)
Section ClosedAxis.

Variables k level : Z.
Hypothesis Hk : -1000 <= k <= 900.
Hypothesis Hlevel : 0 <= level <= 1023.

(** [v + c] for [-c <= v <= c]: at most [2 c]. *)
Lemma add_const_closed (v : float) :
  F64.valid v = true ->
  F64.leb (S754_finite true 6333186975989760 k) v = true ->
  F64.leb v (S754_finite false 6333186975989760 k) = true ->
  F64.at_most 6333186975989760 (k + 1)
    (F64.add v (S754_finite false 6333186975989760 k)).
Proof.
  intros Hv Hlo Hhi.
  destruct v as [s|s| |s m e].
  - unfold F64.add. cbn [SFadd F64.at_most].
    replace (k + 1 - k) with 1 by lia. change (2 ^ 1) with 2. lia.
  - destruct s; discriminate.
  - discriminate.
  - pose proof (valid_digits s m e Hv) as Hdig.
    pose proof (digits2_pos_spec m) as [_ Hm53].
    assert (Hm : Z.pos m < 2 ^ 53)
      by (eapply Z.lt_le_trans; [exact Hm53 | apply Z.pow_le_mono_r; lia]).
    rewrite pow2_53 in Hm.
    assert (He : e <= k /\
                 0 <= cond_Zopp s (Z.pos m) + 6333186975989760 * 2 ^ (k - e)
                   <= 6333186975989760 * 2 ^ (k + 1 - e)).
    { replace (k + 1 - e) with (1 + (k - e)) by lia.
      destruct s.
      - apply leb_neg_cases in Hlo. cbn [cond_Zopp].
        destruct Hlo as [Hlt | [-> Hle]].
        + pose proof (pow2_ge_2 (k - e) ltac:(lia)). rewrite Z.pow_add_r by lia.
          change (2 ^ 1) with 2. split; [lia|nia].
        + rewrite !Z.sub_diag. change (2 ^ (1 + 0)) with 2. change (2 ^ 0) with 1.
          lia.
      - apply leb_pos_cases in Hhi. cbn [cond_Zopp].
        destruct Hhi as [Hlt | [-> Hle]].
        + pose proof (pow2_ge_2 (k - e) ltac:(lia)). rewrite Z.pow_add_r by lia.
          change (2 ^ 1) with 2. split; [lia|nia].
        + rewrite !Z.sub_diag. change (2 ^ (1 + 0)) with 2. change (2 ^ 0) with 1.
          lia. }
    destruct He as [He Hsum].
    unfold F64.add. cbn [SFadd]. rewrite Z.min_l by assumption.
    pose proof (shl_align_spec m e e) as [_ Ea].
    pose proof (shl_align_spec 6333186975989760 k e) as [Eb1 Eb].
    rewrite Z.min_r in Eb1 by assumption. rewrite Eb1 in Eb.
    replace (snd (shl_align m e e)) with e in Ea
      by (pose proof (shl_align_spec m e e) as [E _]; lia).
    rewrite Z.sub_diag, Z.mul_1_r in Ea. rewrite Ea, Eb. cbn [cond_Zopp].
    destruct (cond_Zopp s (Z.pos m) + 6333186975989760 * 2 ^ (k - e)) as [|p|p] eqn:Ep;
      cbn [binary_normalize]; [exact I | | lia].
    unfold binary_round.
    pose proof (shl_align_spec p e (fexp F64.prec F64.emax (Z.pos (digits2_pos p) + e)))
      as [Ez Emz].
    destruct (shl_align p e _) as [mz ez']. cbn [fst snd] in Ez, Emz.
    assert (Hez : ez' <= e) by lia.
    apply binary_round_aux_at_most; try lia.
    cbn [F64.inexact]. rewrite Z.add_0_r, Emz.
    replace (k + 1 - ez') with ((k + 1 - e) + (e - ez')) by lia.
    rewrite Z.pow_add_r, Z.mul_assoc by lia.
    apply Z.mul_le_mono_nonneg_r; [|lia].
    pose proof (pow2_pos (e - ez')). lia.
Qed.

(** [a / (2 c)] for [0 <= a <= 2 c]: at most [1.0]. *)
Lemma div_const_closed (a : float) :
  F64.at_most 6333186975989760 (k + 1) a ->
  F64.at_most 4503599627370496 (-52)
    (F64.div a (S754_finite false 6333186975989760 (k + 1))).
Proof.
  intros Ha. destruct a as [s|s| |s ma ea]; cbn [F64.at_most] in Ha;
    try contradiction.
  - exact I.
  - destruct Ha as (-> & Hea & Hma).
    unfold F64.div, SFdiv, SFdiv_core_binary. cbn [xorb Zdigits2].
    change (Z.pos (digits2_pos 6333186975989760)) with 53.
    pose proof (digits_below_bound (Z.pos ma) 6333186975989760 (k + 1 - ea)
                  ltac:(lia) ltac:(lia) ltac:(rewrite pow2_53; lia) Hma) as Hd.
    cbn [Zdigits2] in Hd. rewrite fexp64.
    set (x := Z.pos (digits2_pos ma) + ea - (53 + (k + 1))) in *.
    set (e' := Z.min (Z.max (x - 53) (-1074)) (ea - (k + 1))).
    assert (He' : e' <= -53 /\ e' <= ea - (k + 1)) by (subst e' x; lia).
    set (s := ea - (k + 1) - e').
    assert (Hs : 0 <= s) by (subst s; lia).
    rewrite (shifted_mantissa (Z.pos ma) s Hs).
    destruct (Z.div_eucl (Z.pos ma * 2 ^ s) 6333186975989760) as [q r] eqn:Ediv.
    pose proof (Z.div_eucl_eq (Z.pos ma * 2 ^ s) 6333186975989760 ltac:(lia)) as Heq.
    pose proof (Z.mod_pos_bound (Z.pos ma * 2 ^ s) 6333186975989760 ltac:(lia)) as Hr.
    unfold Z.modulo in Hr. rewrite Ediv in Heq, Hr.
    set (N := 2 ^ (-52 - e')).
    assert (HN : 0 < N) by (apply pow2_pos; lia).
    assert (Hbound : Z.pos ma * 2 ^ s <= 6333186975989760 * (4503599627370496 * N)).
    { subst N. change 4503599627370496 with (2 ^ 52). rewrite <- Z.pow_add_r by lia.
      replace (52 + (-52 - e')) with ((k + 1 - ea) + s) by (subst s; lia).
      rewrite Z.pow_add_r, Z.mul_assoc by lia.
      apply Z.mul_le_mono_nonneg_r; [|exact Hma].
      pose proof (pow2_pos s Hs). lia. }
    assert (Hq : 0 <= q) by (pose proof (pow2_pos s Hs); nia).
    apply binary_round_aux_at_most; try lia. fold N.
    pose proof (inexact_01 (new_location 6333186975989760 r)) as Hi.
    destruct (Z.eq_dec r 0) as [-> | Hr0].
    + rewrite new_location_exact. cbn [F64.inexact]. lia.
    + lia.
Qed.

(** [b * dim] for [0 <= b <= 1]: at most [dim]. *)
Lemma mul_pow2_closed (b : float) :
  F64.at_most 4503599627370496 (-52) b ->
  F64.at_most 4503599627370496 (level - 52)
    (F64.mul b (S754_finite false 4503599627370496 (level - 52))).
Proof.
  intros Hb. destruct b as [s|s| |s mb eb]; cbn [F64.at_most] in Hb;
    try contradiction.
  - exact I.
  - destruct Hb as (-> & Heb & Hmb).
    unfold F64.mul. cbn [SFmul xorb].
    apply binary_round_aux_at_most; try lia.
    cbn [F64.inexact]. rewrite Z.add_0_r, Pos2Z.inj_mul.
    replace (level - 52 - (eb + (level - 52))) with ((-52 - eb) + 52) by lia.
    rewrite Z.pow_add_r, Z.mul_assoc by lia.
    change (2 ^ 52) with 4503599627370496.
    apply Z.mul_le_mono_nonneg_r; [lia | exact Hmb].
Qed.

(** The floor of a float of [[0, 2 ^ level]]. *)
Lemma floor_closed (c : float) :
  F64.at_most 4503599627370496 (level - 52) c ->
  exists x, floor c = Ok x /\ 0 <= x <= 2 ^ level.
Proof.
  intros Hc. assert (Hl : 0 <= level) by lia. pose proof (pow2_pos level Hl) as Hp.
  destruct c as [s|s| |s mc ec]; cbn [F64.at_most] in Hc; try contradiction.
  - exists 0. split; [reflexivity | lia].
  - destruct Hc as (-> & Hec & Hmc). eexists. split; [reflexivity|].
    cbn [cond_Zopp]. unfold F64.floor_scaled.
    assert (Hle : Z.pos mc <= 2 ^ (level - ec)).
    { replace (level - ec) with (52 + (level - 52 - ec)) by lia.
      rewrite Z.pow_add_r by lia. change (2 ^ 52) with 4503599627370496. exact Hmc. }
    destruct (Z_le_gt_dec 0 ec) as [Hpos|Hneg].
    + rewrite Z.shiftl_mul_pow2 by assumption.
      pose proof (pow2_pos ec Hpos).
      assert (2 ^ level = 2 ^ (level - ec) * 2 ^ ec)
        by (rewrite <- Z.pow_add_r by lia; f_equal; lia).
      nia.
    + rewrite Z.shiftl_div_pow2 by lia.
      pose proof (pow2_pos (- ec)).
      split; [apply Z.div_pos; lia|].
      apply Z.div_le_upper_bound; [lia|].
      rewrite <- Z.pow_add_r by lia.
      replace (- ec + level) with (level - ec) by lia. exact Hle.
Qed.

Lemma quantize_axis_closed (v : float) :
  F64.valid v = true ->
  F64.leb (S754_finite true 6333186975989760 k) v = true ->
  F64.leb v (S754_finite false 6333186975989760 k) = true ->
  exists x,
    floor (F64.mul
             (F64.div (F64.add v (S754_finite false 6333186975989760 k))
                      (S754_finite false 6333186975989760 (k + 1)))
             (S754_finite false 4503599627370496 (level - 52))) = Ok x /\
    0 <= x <= 2 ^ level.
Proof.
  intros Hv Hlo Hhi.
  apply floor_closed, mul_pow2_closed, div_const_closed, add_const_closed;
    assumption.
Qed.

End ClosedAxis.

(** X14: the quantizer on the whole valid range.  For [dim = 2 ^ level] with
    [0 <= level <= 1023] and every float [lng] of [[-180.0, 180.0]] and
    [lat] of [[-90.0, 90.0]], bounds included, [_coord2int] raises nothing
    and returns [0 <= x <= dim] and [0 <= y <= dim]; the index [_xy2hash]
    then computes lies in [[0, dim * dim)], also when [x] or [y] is [dim]. *)
Theorem coord2int_closed (lng lat : float) (level : Z) :
  0 <= level <= 1023 ->
  F64.valid lng = true -> F64.valid lat = true ->
  F64.leb (fst _LNG_INTERVAL) lng && F64.leb lng (snd _LNG_INTERVAL) = true ->
  F64.leb (fst _LAT_INTERVAL) lat && F64.leb lat (snd _LAT_INTERVAL) = true ->
  let dim := 2 ^ level in
  exists x y,
    _coord2int lng lat dim = Ok (x, y) /\
    0 <= x <= dim /\ 0 <= y <= dim /\
    0 <= _xy2hash x y dim < dim * dim.
Proof.
  intros Hl Vlng Vlat Rlng Rlat dim.
  apply andb_prop in Rlng as [Lng_lo Lng_hi]. apply andb_prop in Rlat as [Lat_lo Lat_hi].
  pose proof (float_of_int_pow2 level Hl) as Edim. fold dim in Edim.
  destruct (quantize_axis_closed (-45) level ltac:(lia) Hl lng Vlng Lng_lo Lng_hi)
    as (x & Ex & Hx).
  destruct (quantize_axis_closed (-46) level ltac:(lia) Hl lat Vlat Lat_lo Lat_hi)
    as (y & Ey & Hy).
  exists x, y.
  pose proof (pow2_pos level ltac:(lia)) as Hp. fold dim in Hp, Hx, Hy.
  split; [|split; [exact Hx | split; [exact Hy|]]].
  - unfold _coord2int, float_mul_int, assert.
    replace (dim >=? 1) with true by (symmetry; rewrite Z.geb_leb; apply Z.leb_le; lia).
    cbn [bind]. rewrite Edim. cbn [bind snd _LAT_INTERVAL _LNG_INTERVAL].
    change (F64.add lng F64.f180)
      with (F64.add lng (S754_finite false 6333186975989760 (-45))).
    change F64.f360 with (S754_finite false 6333186975989760 (-45 + 1)).
    rewrite Ex. cbn [bind].
    change (F64.add lat F64.f90)
      with (F64.add lat (S754_finite false 6333186975989760 (-46))).
    change F64.f180 with (S754_finite false 6333186975989760 (-46 + 1)).
    rewrite Ey. reflexivity.
  - subst dim. rewrite <- (Z2Nat.id level) by lia.
    rewrite xy2hash_pow2. apply cell_to_index_range.
Qed.

Lemma coord2int_closed_witness :
  exists x y,
    _coord2int F64.f180 F64.fm90 (2 ^ 30) = Ok (x, y) /\
    0 <= x <= 2 ^ 30 /\ 0 <= y <= 2 ^ 30 /\
    0 <= _xy2hash x y (2 ^ 30) < 2 ^ 30 * 2 ^ 30.
Proof. apply (coord2int_closed F64.f180 F64.fm90 30); [lia | reflexivity ..]. Defined.

(** ** The quantizer from one level to the next *)

(** After the shift, a mantissa has at most 53 binary digits and the exponent
    is at least -1074. *)
Lemma shr_fexp_canonical (m e : Z) (l : location) :
  0 <= m ->
  let r := shr_fexp F64.prec F64.emax m e l in
  Zdigits2 (shr_m (fst r)) <= 53 /\ -1074 <= snd r.
Proof.
  intros Hm. cbv zeta.
  pose proof (shr_fexp_m m e l Hm) as [_ Hq]. revert Hq.
  unfold shr_fexp, shr. rewrite fexp64.
  destruct (Z.max (Zdigits2 m + e - 53) (-1074) - e) as [|p|p] eqn:En;
    cbn [fst snd]; intros Hq.
  - rewrite shr_record_of_loc_m. lia.
  - rewrite Hq. replace (e + Z.pos p - e) with (Z.pos p) by lia.
    pose proof (Zdigits2_div_pow2 m (Z.pos p) Hm ltac:(lia)). lia.
  - rewrite shr_record_of_loc_m. lia.
Qed.

Lemma binary_round_aux_canonical (s : bool) (m e : Z) (l : location) :
  0 <= m ->
  match binary_round_aux F64.prec F64.emax s m e l with
  | S754_finite _ m' e' => Z.pos m' < 2 ^ 53 /\ -1074 <= e'
  | _ => True
  end.
Proof.
  intros Hm. unfold binary_round_aux.
  pose proof (shr_fexp_bound m e l Hm) as H1. cbv zeta in H1.
  destruct (shr_fexp F64.prec F64.emax m e l) as [mrs' e']. cbn [fst snd] in H1.
  destruct H1 as (H1a & _ & _).
  pose proof (round_nearest_even_bound (shr_m mrs') (loc_of_shr_record mrs')) as Hr.
  set (m1 := round_nearest_even (shr_m mrs') (loc_of_shr_record mrs')) in *.
  pose proof (shr_fexp_canonical m1 e' loc_Exact ltac:(lia)) as H2. cbv zeta in H2.
  destruct (shr_fexp F64.prec F64.emax m1 e' loc_Exact) as [mrs'' e''].
  cbn [fst snd] in H2. destruct H2 as [H2a H2b].
  destruct (shr_m mrs'') as [|p|p] eqn:Ep; try exact I.
  destruct (e'' <=? F64.emax - F64.prec); [|exact I].
  split; [|exact H2b].
  pose proof (Zdigits2_upper (Z.pos p) ltac:(lia)) as Hu.
  eapply Z.lt_le_trans; [exact Hu|]. apply Z.pow_le_mono_r; lia.
Qed.

(** [floor] of a float that is [v * 2 ^ E], whatever the sign of [E]. *)
Lemma floor_scaled_shift (v E : Z) (f : float) :
  F64.scaled v E f -> floor f = Ok (Z.shiftl v E).
Proof.
  intros Hf. destruct (Z_le_gt_dec E 0) as [Hneg|Hpos].
  - rewrite (floor_scaled_ok v E f Hf Hneg), Z.shiftl_div_pow2 by lia. reflexivity.
  - destruct f as [s|s| |s m e]; try contradiction; cbn [floor F64.scaled] in *.
    + subst v. rewrite Z.shiftl_0_l. reflexivity.
    + destruct Hf as [He Hm]. unfold F64.floor_scaled. rewrite Hm. f_equal.
      rewrite (Z.shiftl_mul_pow2 v E) by lia.
      destruct (Z_le_gt_dec 0 e) as [He0|He0].
      * rewrite Z.shiftl_mul_pow2, <- Z.mul_assoc, <- Z.pow_add_r by lia.
        do 2 f_equal. lia.
      * rewrite Z.shiftl_div_pow2 by lia.
        replace (E - e) with (E + (- e)) by lia.
        rewrite Z.pow_add_r, Z.mul_assoc by lia.
        apply Z.div_mul. pose proof (pow2_pos (- e)); lia.
Qed.

Lemma shiftr_shiftl_any (m n j : Z) :
  0 <= j -> Z.shiftr (Z.shiftl m (n + j)) j = Z.shiftl m n.
Proof.
  intros Hj. apply Z.bits_inj'. intros i Hi.
  rewrite Z.shiftr_spec, !Z.shiftl_spec by lia. f_equal. lia.
Qed.

(** One axis of the quantizer at every level: the quotient
    [(v + c) / (2 c)] does not depend on the level, and the product by
    [dim = 2 ^ level] is exact, so that the results at all levels are the
    shifts of one integer. *)
Lemma quantize_axis_levels (k : Z) (v : float) :
  -1000 <= k <= 900 ->
  F64.valid v = true ->
  F64.leb (S754_finite true 6333186975989760 k) v = true ->
  F64.leb v (S754_finite false 6333186975989760 k) = true ->
  exists m E,
    forall level, 0 <= level <= 1023 ->
      floor (F64.mul
               (F64.div (F64.add v (S754_finite false 6333186975989760 k))
                        (S754_finite false 6333186975989760 (k + 1)))
               (S754_finite false 4503599627370496 (level - 52)))
      = Ok (Z.shiftl m (E + level)).
Proof.
  intros Hk Hv Hlo Hhi.
  pose proof (add_const_closed k Hk v Hv Hlo Hhi) as Ha.
  pose proof (div_const_closed k _ Ha) as Hq.
  set (a := F64.add v (S754_finite false 6333186975989760 k)) in *.
  assert (Hc : match F64.div a (S754_finite false 6333186975989760 (k + 1)) with
               | S754_finite _ m' e' => Z.pos m' < 2 ^ 53 /\ -1074 <= e'
               | _ => True
               end).
  { destruct a as [s|s| |s ma ea]; try exact I.
    unfold F64.div, SFdiv, SFdiv_core_binary.
    match goal with
    | |- context [Z.div_eucl ?n ?d] =>
        assert (Hn : 0 <= n)
          by (destruct (ea - (k + 1) - _) as [|p|p]; try lia; apply Z.shiftl_nonneg; lia);
        pose proof (Z.div_pos n d Hn ltac:(lia)) as Hdiv;
        unfold Z.div in Hdiv; destruct (Z.div_eucl n d) as [q r]
    end.
    apply binary_round_aux_canonical. exact Hdiv. }
  destruct (F64.div a _) as [s|s| |s mq eq]; cbn [F64.at_most] in Hq;
    try contradiction.
  - exists 0, 0. intros level Hl. rewrite Z.shiftl_0_l. reflexivity.
  - destruct Hq as (-> & Heq & Hmq). destruct Hc as [Hc1 Hc2].
    exists (Z.pos mq), eq. intros level Hl. apply floor_scaled_shift.
    unfold F64.mul. cbn [SFmul xorb].
    apply (binary_round_aux_scaled false _ _ (Z.pos mq) (eq + level)); try lia.
    rewrite Pos2Z.inj_mul.
    replace (eq + level - (eq + (level - 52))) with 52 by lia. reflexivity.
Qed.

Lemma coord2int_pow2_eq (lng lat : float) (level : Z) :
  0 <= level <= 1023 ->
  _coord2int lng lat (2 ^ level) =
  (x <- floor (F64.mul
                 (F64.div (F64.add lng (S754_finite false 6333186975989760 (-45)))
                          (S754_finite false 6333186975989760 (-45 + 1)))
                 (S754_finite false 4503599627370496 (level - 52))) ;;
   y <- floor (F64.mul
                 (F64.div (F64.add lat (S754_finite false 6333186975989760 (-46)))
                          (S754_finite false 6333186975989760 (-46 + 1)))
                 (S754_finite false 4503599627370496 (level - 52))) ;;
   Ok (x, y)).
Proof.
  intros Hl. pose proof (pow2_pos level ltac:(lia)) as Hp.
  rewrite (coord2int_eq lng lat _ (2 ^ level) ltac:(lia) (float_of_int_pow2 level Hl)).
  reflexivity.
Qed.

(** X15: the cells of two levels are nested, for every valid coordinate.
    For floats [lng] of [[-180.0, 180.0]] and [lat] of [[-90.0, 90.0]] and
    levels [level <= level + j <= 1023], the cell [_coord2int] returns on
    the grid of [2 ^ level] cells a side is the cell it returns on the grid
    of [2 ^ (level + j)] cells a side with both coordinates shifted right by
    [j], and its index is the index on the finer grid without its last
    [2 * j] bits: the index of a position at a lower precision is the head
    of its index at a higher precision. *)
Theorem coord2int_levels (lng lat : float) (level j : Z) :
  0 <= level -> 0 <= j -> level + j <= 1023 ->
  F64.valid lng = true -> F64.valid lat = true ->
  F64.leb (fst _LNG_INTERVAL) lng && F64.leb lng (snd _LNG_INTERVAL) = true ->
  F64.leb (fst _LAT_INTERVAL) lat && F64.leb lat (snd _LAT_INTERVAL) = true ->
  exists x y x' y',
    _coord2int lng lat (2 ^ level) = Ok (x, y) /\
    _coord2int lng lat (2 ^ (level + j)) = Ok (x', y') /\
    x = Z.shiftr x' j /\ y = Z.shiftr y' j /\
    _xy2hash x y (2 ^ level) = Z.shiftr (_xy2hash x' y' (2 ^ (level + j))) (2 * j).
Proof.
  intros Hl Hj Hmax Vlng Vlat Rlng Rlat.
  apply andb_prop in Rlng as [Lng_lo Lng_hi]. apply andb_prop in Rlat as [Lat_lo Lat_hi].
  destruct (quantize_axis_levels (-45) lng ltac:(lia) Vlng Lng_lo Lng_hi) as (mx & ex & Hx).
  destruct (quantize_axis_levels (-46) lat ltac:(lia) Vlat Lat_lo Lat_hi) as (my & ey & Hy).
  exists (Z.shiftl mx (ex + level)), (Z.shiftl my (ey + level)),
    (Z.shiftl mx (ex + (level + j))), (Z.shiftl my (ey + (level + j))).
  rewrite !coord2int_pow2_eq by lia.
  rewrite (Hx level), (Hy level), (Hx (level + j)), (Hy (level + j)) by lia.
  cbn [bind]. rewrite !Z.add_assoc, !shiftr_shiftl_any by lia.
  repeat split.
  set (x' := Z.shiftl mx (ex + level + j)). set (y' := Z.shiftl my (ey + level + j)).
  rewrite <- (shiftr_shiftl_any mx (ex + level) j), <- (shiftr_shiftl_any my (ey + level) j)
    by lia.
  fold x' y'.
  rewrite <- (Z2Nat.id level Hl), <- (Z2Nat.id j Hj).
  set (k := Z.to_nat level). set (n := Z.to_nat j).
  rewrite <- Nat2Z.inj_add, !xy2hash_pow2, shiftr_even_pow2.
  rewrite !Z.shiftr_div_pow2 by lia.
  rewrite (Nat.add_comm k n). symmetry. apply cell_to_index_ancestor.
Qed.

Lemma coord2int_levels_witness :
  exists x y x' y',
    _coord2int F64.f90_1 F64.fm90 (2 ^ 3) = Ok (x, y) /\
    _coord2int F64.f90_1 F64.fm90 (2 ^ (3 + 27)) = Ok (x', y') /\
    x = Z.shiftr x' 27 /\ y = Z.shiftr y' 27 /\
    _xy2hash x y (2 ^ 3) = Z.shiftr (_xy2hash x' y' (2 ^ (3 + 27))) (2 * 27).
Proof.
  apply (coord2int_levels F64.f90_1 F64.fm90 3 27); [lia | lia | lia | reflexivity ..].
Defined.

(** ** The position [decode_exactly] reports *)











